(** * Charter-party merge engine: extraction, rule-based merge, change log

    A shallow embedding of [document_processor.py] (field extraction and
    [merge_documents]) and [change_tracker.py] (the change log and its
    summary), together with the part of Python's [re] module that the two
    rule catalogues rely on. *)

From Stdlib Require Import String Ascii NArith.
From stdpp Require Import base option list sorting gmap pretty.

Set Default Proof Using "Type".
Local Open Scope nat_scope.

(** ** Python strings

    A Python [str] is a sequence of Unicode code points; a code point is an
    [N].  ASCII literals are written with [u]. *)

Fixpoint u (s : string) : list N :=
  match s with
  | EmptyString => []
  | String a s' => N_of_ascii a :: u s'
  end.
Arguments u : simpl never.

(** The tables of the Unicode character database that [re] and [str.strip]
    consult.  They are far too large to transcribe, so the development is
    parametric in them; the only facts used are that they extend ASCII. *)
Class Unicode := {
  (** [Py_UNICODE_ISSPACE]: the class [\s] and the characters [strip] removes *)
  is_space : N → bool;
  (** the class [\d]: decimal digits *)
  is_digit : N → bool;
  (** the class [\w]: alphanumerics and the underscore *)
  is_word : N → bool;
  (** a representative of the set of characters that [re.IGNORECASE]
      identifies with the given one *)
  casefold : N → N;
  (** [str.isidentifier] *)
  is_identifier : list N → bool;
  (** what the development needs to know of the tables: the blank is
      white space, and the ASCII digits are digits and not white space *)
  blank_is_space : is_space 32 = true;
  digits_are_digits :
    forallb is_digit [48; 49; 50; 51; 52; 53; 54; 55; 56; 57]%N = true;
  digits_not_space :
    existsb is_space [48; 49; 50; 51; 52; 53; 54; 55; 56; 57]%N = false;
}.

(** ** Outcomes: a Python call returns a value or raises *)

Inductive exn : Set :=
  | ReError          (* re.error *)
  | IndexError
  | AttributeError.

Inductive result (A : Type) : Type :=
  | Ok (a : A)
  | Raise (e : exn).
Arguments Ok {A} a.
Arguments Raise {A} e.

Definition bind {A B} (x : result A) (f : A → result B) : result B :=
  match x with
  | Ok a => f a
  | Raise e => Raise e
  end.

Notation "'let*' x := e1 'in' e2" := (bind e1 (λ x, e2))
  (at level 10, x pattern, e1 at level 200, e2 at level 200).

(** ** The regular-expression engine ([re])

    Patterns are kept as syntax trees; each catalogue entry below quotes
    the pattern text it transcribes. *)
Module Re.

Inductive citem : Set :=
  | CChr (c : N)
  | CRange (lo hi : N)
  | CSpace
  | CDigit
  | CWord.

Inductive regex : Set :=
  | Eps
  | Chr (c : N)
  | Dot
  | Cls (neg : bool) (items : list citem)
  | Cat (r1 r2 : regex)
  | Alt (r1 r2 : regex)
  | Grp (i : nat) (r : regex)
  | Rep (greedy : bool) (lo : nat) (hi : option nat) (r : regex)
  | Ahead (r : regex)
  | Eos.

Record flags : Set := { icase : bool; dotall : bool }.

(** Captured groups, by group number. *)
Abbreviation caps := (gmap nat (list N)).
Abbreviation kont :=
  (list N → gmap nat (list N) → option (list N * gmap nat (list N))).

(** A match object: the matched text ([group(0)]), the groups that took
    part in the match, and the number of groups of the pattern. *)
Record Match := {
  m_span : list N;
  m_caps : gmap nat (list N);
  m_ngroups : nat;
}.

(** [Match.group(i)]: [None] for a group that did not take part, and an
    [IndexError] for a group the pattern does not have. *)
Definition group (mt : Match) (i : nat) : result (option (list N)) :=
  match i with
  | 0 => Ok (Some (m_span mt))
  | _ => if i <=? m_ngroups mt then Ok (m_caps mt !! i) else Raise IndexError
  end.

(** Number of capturing groups of a pattern ([Pattern.groups]). *)
Fixpoint ngroups (r : regex) : nat :=
  match r with
  | Cat r1 r2 | Alt r1 r2 => ngroups r1 `max` ngroups r2
  | Grp i r => i `max` ngroups r
  | Rep _ _ _ r | Ahead r => ngroups r
  | _ => 0
  end.

(** A compiled replacement template: literal characters and group
    references. *)
Inductive titem : Set :=
  | TLit (c : N)
  | TGroup (i : nat).

(** The template parser is either between items or inside the name of
    [\g<name>], of which [acc] is the part read so far, reversed. *)
Inductive tmode : Set :=
  | TNormal
  | TName (acc : list N).

Definition N_range (lo hi : N) : list N :=
  map (λ i, (lo + N.of_nat i)%N) (seq 0 (N.to_nat (N.succ hi - lo))).

Section engine.
Context {uni : Unicode}.

Definition chr_eq (ic : bool) (c x : N) : bool :=
  if ic then (casefold x =? casefold c)%N else (x =? c)%N.

Definition item_match (ic : bool) (it : citem) (x : N) : bool :=
  match it with
  | CChr c => chr_eq ic c x
  | CRange lo hi =>
      if ic then existsb (λ c, chr_eq true c x) (N_range lo hi)
      else (lo <=? x)%N && (x <=? hi)%N
  | CSpace => is_space x
  | CDigit => is_digit x
  | CWord => is_word x
  end.

Definition cls_match (ic neg : bool) (items : list citem) (x : N) : bool :=
  xorb neg (existsb (λ it, item_match ic it x) items).

(** [lo] compulsory iterations. *)
Fixpoint rep_min (step : list N → caps → kont → option (list N * caps))
    (n : nat) (s : list N) (g : caps) (k : kont) : option (list N * caps) :=
  match n with
  | 0 => k s g
  | S n' => step s g (λ s' g', rep_min step n' s' g' k)
  end.

(** The optional iterations that follow; each must consume input, so
    [fuel], the length of the remaining text, bounds their number. *)
Fixpoint rep_opt (step : list N → caps → kont → option (list N * caps))
    (greedy : bool) (fuel : nat) (extra : option nat)
    (s : list N) (g : caps) (k : kont) : option (list N * caps) :=
  match fuel, extra with
  | 0, _ | _, Some 0 => k s g
  | S fuel', _ =>
      let more := step s g (λ s' g',
        if length s' <? length s
        then rep_opt step greedy fuel' (pred <$> extra) s' g' k
        else None) in
      if greedy
      then match more with Some x => Some x | None => k s g end
      else match k s g with Some x => Some x | None => more end
  end.

(** The backtracking matcher: [m fl r s g k] matches [r] at the head of
    [s] and hands the rest of the text to [k]; alternatives are tried
    in Python's order (left alternative first, greedy loops longest
    first, lazy loops shortest first). *)
Fixpoint m (fl : flags) (r : regex) (s : list N) (g : caps) (k : kont)
    {struct r} : option (list N * caps) :=
  match r with
  | Eps => k s g
  | Chr c =>
      match s with
      | x :: s' => if chr_eq (icase fl) c x then k s' g else None
      | [] => None
      end
  | Dot =>
      match s with
      | x :: s' => if dotall fl || negb (x =? 10)%N then k s' g else None
      | [] => None
      end
  | Cls neg items =>
      match s with
      | x :: s' => if cls_match (icase fl) neg items x then k s' g else None
      | [] => None
      end
  | Cat r1 r2 => m fl r1 s g (λ s' g', m fl r2 s' g' k)
  | Alt r1 r2 =>
      match m fl r1 s g k with
      | Some x => Some x
      | None => m fl r2 s g k
      end
  | Grp i r =>
      m fl r s g (λ s' g', k s' (<[i := take (length s - length s') s]> g'))
  | Rep greedy lo hi r =>
      rep_min (m fl r) lo s g (λ s' g',
        rep_opt (m fl r) greedy (length s') ((λ h, h - lo) <$> hi) s' g' k)
  | Ahead r =>
      match m fl r s g (λ s' g', Some (s', g')) with
      | Some (_, g') => k s g'
      | None => None
      end
  | Eos =>
      match s with
      | [] => k s g
      | [c] => if (c =? 10)%N then k s g else None
      | _ => None
      end
  end.

(** A match starting exactly at the head of [s].  With [adv] (sre's
    [must_advance]) an empty match is refused. *)
Definition match_at (fl : flags) (r : regex) (s : list N) (adv : bool)
    : option Match :=
  match m fl r s ∅ (λ s' g,
          if adv && (length s' =? length s) then None else Some (s', g)) with
  | Some (s', g) =>
      Some {| m_span := take (length s - length s') s; m_caps := g;
              m_ngroups := ngroups r |}
  | None => None
  end.

(** [re.search]: the leftmost match, with the text skipped before it. *)
Fixpoint search (fl : flags) (r : regex) (s : list N)
    : option (list N * Match) :=
  match match_at fl r s false with
  | Some mt => Some ([], mt)
  | None =>
      match s with
      | [] => None
      | c :: s' =>
          match search fl r s' with
          | Some (p, mt) => Some (c :: p, mt)
          | None => None
          end
      end
  end.

(** *** Replacement templates ([re.sub] with a string replacement)

    The template language of Python 3.12: [\g<n>] and [\n] refer to
    groups, [\0] and three octal digits are octal escapes, the usual
    letter escapes stand for control characters, any other escaped
    ASCII letter is an error and any other escaped character is kept
    together with its backslash. *)

Definition is_octdigit (c : N) : bool := ((48 <=? c) && (c <=? 55))%N.
Definition is_decdigit (c : N) : bool := ((48 <=? c) && (c <=? 57))%N.
Definition is_ascii_letter (c : N) : bool :=
  ((65 <=? c) && (c <=? 90) || (97 <=? c) && (c <=? 122))%N.
Definition digit_val (c : N) : nat := N.to_nat (c - 48).
Definition decimal (ds : list N) : nat :=
  foldl (λ acc d, 10 * acc + digit_val d) 0 ds.

(** [ESCAPES] restricted to the entries a template can reach. *)
Definition escape (c : N) : option N :=
  if (c =? 97)%N then Some 7%N           (* \a *)
  else if (c =? 98)%N then Some 8%N      (* \b *)
  else if (c =? 102)%N then Some 12%N    (* \f *)
  else if (c =? 110)%N then Some 10%N    (* \n *)
  else if (c =? 114)%N then Some 13%N    (* \r *)
  else if (c =? 116)%N then Some 9%N     (* \t *)
  else if (c =? 118)%N then Some 11%N    (* \v *)
  else if (c =? 92)%N then Some 92%N     (* \\ *)
  else None.

Definition addgroup (groups index : nat) (rest : result (list titem))
    : result (list titem) :=
  if groups <? index then Raise ReError   (* invalid group reference *)
  else let* items := rest in Ok (TGroup index :: items).

Definition addlit (c : N) (rest : result (list titem))
    : result (list titem) :=
  let* items := rest in Ok (TLit c :: items).

Fixpoint parse_template (groups : nat) (mode : tmode) (t : list N)
    {struct t} : result (list titem) :=
  match mode with
  | TName acc =>
      match t with
      | [] => Raise ReError               (* missing >, unterminated name *)
      | c :: t' =>
          if (c =? 62)%N then
            match acc with
            | [] => Raise ReError         (* missing group name *)
            | _ =>
                let name := rev acc in
                if forallb is_decdigit name
                then addgroup groups (decimal name)
                       (parse_template groups TNormal t')
                else if is_identifier name
                then Raise IndexError     (* unknown group name *)
                else Raise ReError        (* bad character in group name *)
            end
          else parse_template groups (TName (c :: acc)) t'
      end
  | TNormal =>
      match t with
      | [] => Ok []
      | c :: t' =>
          if negb (c =? 92)%N then addlit c (parse_template groups TNormal t')
          else
            match t' with
            | [] => Raise ReError         (* bad escape (end of pattern) *)
            | e :: t1 =>
                if (e =? 103)%N then      (* \g<name> *)
                  match t1 with
                  | lt :: t2 =>
                      if (lt =? 60)%N
                      then parse_template groups (TName []) t2
                      else Raise ReError  (* missing < *)
                  | [] => Raise ReError
                  end
                else if (e =? 48)%N then  (* \0 and up to two octal digits *)
                  match t1 with
                  | d1 :: t2 =>
                      if is_octdigit d1 then
                        match t2 with
                        | d2 :: t3 =>
                            if is_octdigit d2
                            then addlit
                                   (N.of_nat ((8 * digit_val d1 + digit_val d2)
                                              `mod` 256))
                                   (parse_template groups TNormal t3)
                            else addlit (N.of_nat (digit_val d1))
                                   (parse_template groups TNormal t2)
                        | [] => addlit (N.of_nat (digit_val d1))
                                  (parse_template groups TNormal t2)
                        end
                      else addlit 0%N (parse_template groups TNormal t1)
                  | [] => addlit 0%N (parse_template groups TNormal t1)
                  end
                else if is_decdigit e then
                  match t1 with
                  | d1 :: t2 =>
                      if is_decdigit d1 then
                        match t2 with
                        | d2 :: t3 =>
                            if is_octdigit e && is_octdigit d1 && is_octdigit d2
                            then
                              let v := 64 * digit_val e + 8 * digit_val d1
                                       + digit_val d2 in
                              if 255 <? v then Raise ReError
                              else addlit (N.of_nat v)
                                     (parse_template groups TNormal t3)
                            else addgroup groups (10 * digit_val e + digit_val d1)
                                   (parse_template groups TNormal t2)
                        | [] => addgroup groups (10 * digit_val e + digit_val d1)
                                  (parse_template groups TNormal t2)
                        end
                      else addgroup groups (digit_val e)
                             (parse_template groups TNormal t1)
                  | [] => addgroup groups (digit_val e)
                            (parse_template groups TNormal t1)
                  end
                else
                  match escape e with
                  | Some x => addlit x (parse_template groups TNormal t1)
                  | None =>
                      if is_ascii_letter e then Raise ReError  (* bad escape *)
                      else addlit 92%N
                             (addlit e (parse_template groups TNormal t1))
                  end
            end
      end
  end.

(** [Match.expand]: a group that did not take part expands to nothing. *)
Definition expand_template (items : list titem) (mt : Match) : list N :=
  concat (map (λ it,
    match it with
    | TLit c => [c]
    | TGroup 0 => m_span mt
    | TGroup i => default [] (m_caps mt !! i)
    end) items).

(** *** Substitution ([re.sub])

    The loop of [pattern_subx]: search from the current position, copy
    the text skipped, ask [repl] for the replacement, and go on after
    the match; after an empty match the next match at the same place
    must not be empty.  [repl] may change the caller's state and may
    raise.  Every round either consumes a character or turns [adv]
    on, so [2 * length s + 2] rounds are enough. *)
Fixpoint subx {St : Type} (fl : flags) (r : regex)
    (repl : Match → St → result (list N * St))
    (fuel : nat) (s : list N) (adv : bool) (st : St)
    : result (list N * St) :=
  match fuel with
  | 0 => Ok (s, st)
  | S fuel' =>
      match match_at fl r s adv with
      | Some mt =>
          let* (new, st1) := repl mt st in
          let* (out, st2) :=
            subx fl r repl fuel' (drop (length (m_span mt)) s)
              (bool_decide (m_span mt = [])) st1 in
          Ok (new ++ out, st2)
      | None =>
          match s with
          | [] => Ok ([], st)
          | c :: s' =>
              let* (out, st1) := subx fl r repl fuel' s' false st in
              Ok (c :: out, st1)
          end
      end
  end.

(** [re.sub(pattern, function, s)] *)
Definition sub_callable {St : Type} (fl : flags) (r : regex)
    (repl : Match → St → result (list N * St)) (s : list N) (st : St)
    : result (list N * St) :=
  subx fl r repl (2 * length s + 2) s false st.

(** [re.sub(pattern, template, s)]: the template is compiled first, so
    a malformed one raises whether or not the pattern occurs. *)
Definition sub_template (fl : flags) (r : regex) (template s : list N)
    : result (list N) :=
  let* items := parse_template (ngroups r) TNormal template in
  let* (out, _) :=
    sub_callable fl r (λ mt (_ : unit), Ok (expand_template items mt, ()))
      s () in
  Ok out.

(** The occurrences that [re.sub] and [re.finditer] visit: each match
    with the text skipped since the previous one, and the text left
    after the last. *)
Fixpoint occurrences_from (fl : flags) (r : regex) (fuel : nat)
    (s : list N) (adv : bool) : list (list N * Match) * list N :=
  match fuel with
  | 0 => ([], s)
  | S fuel' =>
      match match_at fl r s adv with
      | Some mt =>
          let (hits, tail) :=
            occurrences_from fl r fuel' (drop (length (m_span mt)) s)
              (bool_decide (m_span mt = [])) in
          (([], mt) :: hits, tail)
      | None =>
          match s with
          | [] => ([], [])
          | c :: s' =>
              match occurrences_from fl r fuel' s' false with
              | ([], tail) => ([], c :: tail)
              | ((gap, mt) :: hits, tail) => ((c :: gap, mt) :: hits, tail)
              end
          end
      end
  end.

Definition occurrences (fl : flags) (r : regex) (s : list N)
    : list (list N * Match) * list N :=
  occurrences_from fl r (2 * length s + 2) s false.

End engine.
End Re.

(** The tables restricted to what is certain below code point 128 (and the
    complete list of Python's white space); used to run the engine on
    ASCII texts. *)
Definition ascii_space (c : N) : bool :=
  ((9 <=? c) && (c <=? 13) || (28 <=? c) && (c <=? 32) || (c =? 133)
   || (c =? 160) || (c =? 5760) || (8192 <=? c) && (c <=? 8202)
   || (c =? 8232) || (c =? 8233) || (c =? 8239) || (c =? 8287)
   || (c =? 12288))%N.

Definition ascii_digit (c : N) : bool := ((48 <=? c) && (c <=? 57))%N.

Definition ascii_alpha (c : N) : bool :=
  ((65 <=? c) && (c <=? 90) || (97 <=? c) && (c <=? 122))%N.

Definition ascii_word (c : N) : bool :=
  ascii_alpha c || ascii_digit c || (c =? 95)%N.

Definition ascii_fold (c : N) : N :=
  if ((65 <=? c) && (c <=? 90))%N then (c + 32)%N else c.

Definition ascii_identifier (s : list N) : bool :=
  match s with
  | [] => false
  | c :: _ => negb (ascii_digit c) && forallb ascii_word s
  end.

Definition ascii_tables : Unicode :=
  {| is_space := ascii_space; is_digit := ascii_digit;
     is_word := ascii_word; casefold := ascii_fold;
     is_identifier := ascii_identifier;
     blank_is_space := eq_refl;
     digits_are_digits := eq_refl;
     digits_not_space := eq_refl |}.

(** ** String methods *)

Definition nl : N := 10%N.

Fixpoint drop_while (p : N → bool) (s : list N) : list N :=
  match s with
  | [] => []
  | c :: s' => if p c then drop_while p s' else s
  end.

(** [str.strip()] *)
Definition strip {uni : Unicode} (s : list N) : list N :=
  rev (drop_while is_space (rev (drop_while is_space s))).

(** [sep.join(parts)] *)
Fixpoint join (sep : list N) (parts : list (list N)) : list N :=
  match parts with
  | [] => []
  | [p] => p
  | p :: ps => p ++ sep ++ join sep ps
  end.

Fixpoint is_prefix (p s : list N) : bool :=
  match p, s with
  | [], _ => true
  | a :: p', b :: s' => (a =? b)%N && is_prefix p' s'
  | _ :: _, [] => false
  end.

(** [s.replace(old, new)] for a non-empty [old]: [skip] counts the
    characters of an occurrence just replaced that are still to be
    passed over. *)
Fixpoint str_replace (old new : list N) (skip : nat) (s : list N) : list N :=
  match s with
  | [] => []
  | c :: s' =>
      match skip with
      | S k => str_replace old new k s'
      | 0 =>
          if is_prefix old s
          then new ++ str_replace old new (length old - 1) s'
          else c :: str_replace old new 0 s'
      end
  end.

(** [str(n)] for a non-negative integer *)
Definition str_of_nat (n : nat) : list N := u (pretty n).

(** A value stored in a dict or interpolated in an f-string: a string or
    [None]. *)
Inductive pyval : Set :=
  | PStr (s : list N)
  | PNone.

Definition fmt (v : pyval) : list N :=
  match v with
  | PStr s => s
  | PNone => u "None"
  end.

Definition of_group (g : option (list N)) : pyval :=
  match g with
  | Some s => PStr s
  | None => PNone
  end.

(** ** change_tracker.py *)
Module ChangeTracker.

Record ChangeRecord := {
  ch_id : nat;
  ch_field : list N;
  ch_old_value : list N;
  ch_new_value : list N;
  ch_description : list N;
  ch_timestamp : list N;
  ch_change_type : list N;
}.

(** Truth value of a string: non-empty. *)
Definition truthy (s : list N) : bool :=
  match s with
  | [] => false
  | _ :: _ => true
  end.

Definition _determine_change_type (old_value new_value : list N) : list N :=
  if negb (truthy old_value) && truthy new_value then u "addition"
  else if truthy old_value && negb (truthy new_value) then u "deletion"
  else if bool_decide (old_value ≠ new_value) then u "modification"
  else u "no_change".

(** A tracker is its [changes] list; [now] is what
    [datetime.now().isoformat()] returns during the call. *)
Definition track_change (now field old_value new_value description : list N)
    (self : list ChangeRecord) : ChangeRecord * list ChangeRecord :=
  let change := {|
    ch_id := length self + 1;
    ch_field := field;
    ch_old_value := old_value;
    ch_new_value := new_value;
    ch_description := description;
    ch_timestamp := now;
    ch_change_type := _determine_change_type old_value new_value;
  |} in
  (change, self ++ [change]).

(** The dict [generate_summary] returns; [timestamp] is the one key the
    empty case does not have, and [fields_modified] is built from a set,
    in no particular order. *)
Record Summary := {
  total_changes : nat;
  change_types : gmap (list N) nat;
  fields_modified : gset (list N);
  summary : list N;
  timestamp : option (list N);
}.

(** [d[k] += 1] *)
Definition incr (k : list N) (d : gmap (list N) nat) : gmap (list N) nat :=
  <[k := default 0 (d !! k) + 1]> d.

Definition count (k : list N) (d : gmap (list N) nat) : nat :=
  default 0 (d !! k).

Definition tally (acc : gmap (list N) nat * gset (list N)) (change : ChangeRecord)
    : gmap (list N) nat * gset (list N) :=
  let '(types, fields) := acc in
  let change_type := ch_change_type change in
  let types' :=
    if bool_decide (change_type = u "addition") then incr (u "additions") types
    else if bool_decide (change_type = u "modification")
    then incr (u "modifications") types
    else if bool_decide (change_type = u "deletion")
    then incr (u "deletions") types
    else types in
  (types', {[ch_field change]} ∪ fields).

Definition generate_summary (now : list N) (changes : list ChangeRecord)
    : Summary :=
  match changes with
  | [] =>
      {| total_changes := 0;
         change_types := ∅;
         fields_modified := ∅;
         summary := u "No changes were made to the document.";
         timestamp := None |}
  | _ :: _ =>
      let zero : gmap (list N) nat :=
        <[u "deletions" := 0]> (<[u "modifications" := 0]>
          (<[u "additions" := 0]> ∅)) in
      let '(types, fields) := foldl tally (zero, ∅) changes in
      let parts1 :=
        if 0 <? count (u "additions") types
        then [str_of_nat (count (u "additions") types) ++ u " addition(s)"]
        else [] in
      let parts2 :=
        if 0 <? count (u "modifications") types
        then parts1 ++ [str_of_nat (count (u "modifications") types)
                        ++ u " modification(s)"]
        else parts1 in
      let summary_parts :=
        if 0 <? count (u "deletions") types
        then parts2 ++ [str_of_nat (count (u "deletions") types)
                        ++ u " deletion(s)"]
        else parts2 in
      {| total_changes := length changes;
         change_types := types;
         fields_modified := fields;
         summary := u "Document successfully merged with "
                    ++ join (u ", ") summary_parts ++ u ".";
         timestamp := Some now |}
  end.

End ChangeTracker.

(** ** document_processor.py *)
Module DocumentProcessor.
Import Re ChangeTracker.

(** *** Pattern shorthands *)

Definition cat (rs : list regex) : regex := foldr Cat Eps rs.
Definition lit (s : string) : regex := cat (map Chr (u s)).
Fixpoint alts (rs : list regex) : regex :=
  match rs with
  | [] => Eps
  | [r] => r
  | r :: rs' => Alt r (alts rs')
  end.
Definition plus (r : regex) : regex := Rep true 1 None r.            (* r+ *)
Definition star (r : regex) : regex := Rep true 0 None r.            (* r* *)
Definition lazy_plus (r : regex) : regex := Rep false 1 None r.      (* r+? *)
Definition lazy_star (r : regex) : regex := Rep false 0 None r.      (* r*? *)
Definition opt (r : regex) : regex := Rep true 0 (Some 1) r.         (* r? *)
Definition times (n : nat) (r : regex) : regex := Rep true n (Some n) r.
Definition ws : regex := Cls false [CSpace].                         (* \s *)
Definition dg : regex := Cls false [CDigit].                         (* \d *)
Definition wd : regex := Cls false [CWord].                          (* \w *)
Definition none_of (cs : list N) : regex := Cls true (map CChr cs).  (* [^..] *)

Definition dquote : N := 34%N.
Definition ndash : N := 8211%N.     (* U+2013 EN DASH *)
Definition eacute : N := 233%N.     (* U+00E9 *)

(** *** The merge-rule catalogue *)

Inductive replacement : Type :=
  | Callable (f : Match → result (list N))
  | Fixed (s : list N).

Record rule := {
  field : list N;
  pattern : regex;
  repl : option replacement;         (* the key 'replacement', if present *)
  recap_field : option (list N);
  description : list N;
}.

(** Pattern: "(made and concluded in\s+\w+\s+)(\d+)(th|st|nd|rd)(\s+day of\s+\w+\s+19\s+)(\d+)" *)
Definition charter_date_pattern : regex :=
  cat [ Grp 1 (cat [lit "made and concluded in"; plus ws; plus wd; plus ws]);
        Grp 2 (plus dg);
        Grp 3 (alts [lit "th"; lit "st"; lit "nd"; lit "rd"]);
        Grp 4 (cat [plus ws; lit "day of"; plus ws; plus wd; plus ws;
                    lit "19"; plus ws]);
        Grp 5 (plus dg) ].

(** [f"{m.group(1)}10{m.group(3)}{m.group(4).replace('May', 'June')}2025"] *)
Definition charter_date_repl (mt : Match) : result (list N) :=
  let* g1 := group mt 1 in
  let* g3 := group mt 3 in
  let* g4 := group mt 4 in
  match g4 with
  | None => Raise AttributeError
  | Some s4 =>
      Ok (fmt (of_group g1) ++ u "10" ++ fmt (of_group g3)
          ++ str_replace (u "May") (u "June") 0 s4 ++ u "2025")
  end.

(** [(Steamship/Motorship\s+Q)([^Q]+)(Q)], where Q stands for the
    double-quote character *)
Definition vessel_name_pattern : regex :=
  cat [ Grp 1 (cat [lit "Steamship/Motorship"; plus ws; Chr dquote]);
        Grp 2 (plus (none_of [dquote]));
        Grp 3 (Chr dquote) ].

(** [f'{m.group(1)}LUNAR STAR 1{m.group(3)}'] *)
Definition vessel_name_repl (mt : Match) : result (list N) :=
  let* g1 := group mt 1 in
  let* g3 := group mt 3 in
  Ok (fmt (of_group g1) ++ u "LUNAR STAR 1" ++ fmt (of_group g3)).

(** Pattern: "(Between\s+)[^,]+,([^,]+,){2}[^,]+,([^,]+,)[^,]+" *)
Definition owner_details_pattern : regex :=
  cat [ Grp 1 (cat [lit "Between"; plus ws]);
        plus (none_of (u ",")); lit ",";
        times 2 (Grp 2 (cat [plus (none_of (u ",")); lit ","]));
        plus (none_of (u ",")); lit ",";
        Grp 3 (cat [plus (none_of (u ",")); lit ","]);
        plus (none_of (u ",")) ].

Definition owner_details_text : list N :=
  u "MV LUNAR STAR 1 SHIPPING COMPANY LIMITED, C/o Oesterreichischer Lloyd Seereederei (Cyprus) Ltd, 67 Franklin Roosevelt Ave, Limassol, VAT number CY60177359M".

(** Pattern: "(and\s+)[^C]+COMPANY[^S]+SINGAPORE[^S]+SINGAPORE" *)
Definition charterer_details_pattern : regex :=
  cat [ Grp 1 (cat [lit "and"; plus ws]);
        plus (none_of (u "C")); lit "COMPANY";
        plus (none_of (u "S")); lit "SINGAPORE";
        plus (none_of (u "S")); lit "SINGAPORE" ].

Definition charterer_details_text : list N :=
  u "Louis Dreyfus Company Suisse S.A.- Charterers of the City of GVA Center,29 route de l' A"
  ++ [eacute] ++ u "roport- P.O. Box 236, 1215 Geneva 15,Switzerland".

(** Pattern: "(about\s+minimum\s+)(\d+)(\s+months\s+to\s+maximum\s+)(\d+)(\s+months[^,]*"
    and a closing parenthesis *)
Definition charter_period_pattern : regex :=
  cat [ Grp 1 (cat [lit "about"; plus ws; lit "minimum"; plus ws]);
        Grp 2 (plus dg);
        Grp 3 (cat [plus ws; lit "months"; plus ws; lit "to"; plus ws;
                    lit "maximum"; plus ws]);
        Grp 4 (plus dg);
        Grp 5 (cat [plus ws; lit "months"; star (none_of (u ","))]) ].

Definition charter_period_text : list N :=
  u "About 11 to about 14 months (about to mean +/- 15 days in charterer's option) at 107.00 % bhsi38 index ( with option to convert to fixed rate) + opt about 10 "
  ++ [ndash] ++ u " about 14 months (about to mean +/ - 15 days in charterer's option) at $ 11,500 declarable in charterer's option. Optional 10-14 months to be declared by Charterers latest 45 days prior max duration".

(** Pattern: "(at\s+on\s+dropping\s+last\s+outward\s+sea\s+pilot\s+)[^(]+(\(intention[^)]*\))" *)
Definition delivery_port_pattern : regex :=
  cat [ Grp 1 (cat [lit "at"; plus ws; lit "on"; plus ws; lit "dropping";
                    plus ws; lit "last"; plus ws; lit "outward"; plus ws;
                    lit "sea"; plus ws; lit "pilot"; plus ws]);
        plus (none_of (u "("));
        Grp 2 (cat [lit "(intention"; star (none_of (u ")")); lit ")"]) ].

Definition delivery_port_text : list N :=
  u "Yeosu, subject Sellers port changes".

(** Pattern: "(WOULD SUGGEST 1 \(ONE\) MONTH AFTER DIVER SURVEY TO BE CARRIED OUT IN YEOSU)" *)
Definition laycan_pattern : regex :=
  Grp 1 (lit "WOULD SUGGEST 1 (ONE) MONTH AFTER DIVER SURVEY TO BE CARRIED OUT IN YEOSU").

Definition laycan_text : list N :=
  u "Laycan: 3-10 July " ++ [ndash]
  ++ u " it is mutually agreed between both Owners and Charterers that if any adjustment on laycan required, same to be discussed in good faith by both parties".

Definition charter_date_rule : rule :=
  {| field := u "charter_date";
     pattern := charter_date_pattern;
     repl := Some (Callable charter_date_repl);
     recap_field := None;
     description := u "Updated charter date to June 10, 2025" |}.

Definition vessel_name_rule : rule :=
  {| field := u "vessel_name";
     pattern := vessel_name_pattern;
     repl := Some (Callable vessel_name_repl);
     recap_field := Some (u "vessel_name");
     description := u "Updated vessel name" |}.

Definition owner_details_rule : rule :=
  {| field := u "owner_details";
     pattern := owner_details_pattern;
     repl := Some (Fixed owner_details_text);
     recap_field := None;
     description := u "Updated owner details" |}.

Definition charterer_details_rule : rule :=
  {| field := u "charterer_details";
     pattern := charterer_details_pattern;
     repl := Some (Fixed charterer_details_text);
     recap_field := None;
     description := u "Updated charterer details" |}.

Definition charter_period_rule : rule :=
  {| field := u "charter_period";
     pattern := charter_period_pattern;
     repl := Some (Callable (λ _, Ok charter_period_text));
     recap_field := None;
     description :=
       u "Updated charter period with index rate and optional period" |}.

Definition delivery_port_rule : rule :=
  {| field := u "delivery_port";
     pattern := delivery_port_pattern;
     repl := Some (Fixed delivery_port_text);
     recap_field := Some (u "delivery_port");
     description := u "Updated delivery port" |}.

Definition laycan_rule : rule :=
  {| field := u "laycan";
     pattern := laycan_pattern;
     repl := Some (Fixed laycan_text);
     recap_field := None;
     description := u "Added laycan period" |}.

Definition merge_rules : list rule := [
  charter_date_rule; vessel_name_rule; owner_details_rule;
  charterer_details_rule; charter_period_rule; delivery_port_rule;
  laycan_rule
].

(** Pattern: "(as the Charterers or their Agents shall direct, on the following conditions:)" *)
Definition exclusion_pattern : regex :=
  Grp 1 (lit "as the Charterers or their Agents shall direct, on the following conditions:").

Definition dd_clause : list N :=
  [nl; nl] ++ u "DRY-DOCKING CLAUSE:" ++ [nl]
  ++ u "Dry-docking / SS Oct - early Nov 25 in China or Med/Black Sea/Portugal, duration 10-15 days. DD location (med or China) is in Charterer's option. Charterers to place the vessel into either Med Sea / Black Sea range or Singapore - Japan range for owners to take over for DD."
  ++ [nl].

(** [re.IGNORECASE] *)
Definition merge_flags : flags := {| icase := true; dotall := false |}.
Definition no_flags : flags := {| icase := false; dotall := false |}.

(** *** The state of one merge

    [changes] is the local list, [tracker] the [changes] list of the
    [ChangeTracker] passed in, and [ticks] counts the clock readings
    taken so far. *)
Record mstate := {
  changes : list ChangeRecord;
  tracker : list ChangeRecord;
  ticks : nat;
}.

Fixpoint summary_lines (i : nat) (l : list ChangeRecord) : list N :=
  match l with
  | [] => []
  | change :: l' =>
      str_of_nat i ++ u ". " ++ ch_description change ++ [nl]
      ++ summary_lines (S i) l'
  end.

Definition summary_section (l : list ChangeRecord) : list N :=
  [nl; nl] ++ u "=== SUMMARY OF CHANGES ===" ++ [nl]
  ++ match l with
     | _ :: _ =>
         u "The following modifications were made to the base Charter Party:"
         ++ [nl; nl] ++ summary_lines 1 l
         ++ [nl] ++ u "=== END SUMMARY ===" ++ [nl]
     | [] =>
         u "No changes were made to the base Charter Party document." ++ [nl]
         ++ u "=== END SUMMARY ===" ++ [nl]
     end.

Section merge.
Context {uni : Unicode}.
(** [clock n] is the [n]-th value of [datetime.now().isoformat()]. *)
Variable clock : nat → list N.

(** [changes.append(change_tracker.track_change(...))] *)
Definition track (fld old_text new_text descr : list N) (st : mstate)
    : mstate :=
  let '(change, tracker') :=
    track_change (clock (ticks st)) fld old_text new_text descr (tracker st) in
  {| changes := changes st ++ [change];
     tracker := tracker';
     ticks := S (ticks st) |}.

(** The closure [replace_func] of the rule loop. *)
Definition replace_func (rl : rule) (f : Match → result (list N))
    (mt : Match) (st : mstate) : result (list N * mstate) :=
  let old_text := m_span mt in
  let* new_text := f mt in
  Ok (new_text, track (field rl) old_text new_text (description rl) st).

(** One round of the loop over [merge_rules]. *)
Definition apply_rule (rl : rule) (merged_text : list N) (st : mstate)
    : result (list N * mstate) :=
  match repl rl with
  | Some (Callable f) =>
      sub_callable merge_flags (pattern rl) (replace_func rl f) merged_text st
  | Some (Fixed new_text) =>
      match search merge_flags (pattern rl) merged_text with
      | Some (_, mt) =>
          let old_text := m_span mt in
          let st' := track (field rl) old_text new_text (description rl) st in
          let* merged_text' :=
            sub_template merge_flags (pattern rl) new_text merged_text in
          Ok (merged_text', st')
      | None => Ok (merged_text, st)
      end
  | None => Ok (merged_text, st)
  end.

Fixpoint apply_rules (rules : list rule) (merged_text : list N) (st : mstate)
    : result (list N * mstate) :=
  match rules with
  | [] => Ok (merged_text, st)
  | rl :: rules' =>
      let* (merged_text', st') := apply_rule rl merged_text st in
      apply_rules rules' merged_text' st'
  end.

(** The trading-exclusions insertion. *)
Definition add_trading_exclusions (recap_data : gmap (list N) pyval)
    (merged_text : list N) (st : mstate) : result (list N * mstate) :=
  match recap_data !! u "trading_exclusions" with
  | Some v =>
      match search no_flags exclusion_pattern merged_text with
      | Some _ =>
          let trading_exclusions :=
            [nl; nl] ++ u "TRADING EXCLUSIONS:" ++ [nl] ++ fmt v ++ [nl] in
          let* merged_text' :=
            sub_template no_flags exclusion_pattern
              (u "\1" ++ trading_exclusions) merged_text in
          Ok (merged_text',
              track (u "trading_exclusions") [] trading_exclusions
                (u "Added trading exclusions clause") st)
      | None => Ok (merged_text, st)
      end
  | None => Ok (merged_text, st)
  end.

(** [merge_documents]: the merged text, and the state in which
    [changes] is the list returned and [tracker] what the tracker
    passed in has become. *)
Definition merge_documents (base_cp_text : list N)
    (recap_data : gmap (list N) pyval) (change_tracker : list ChangeRecord)
    : result (list N * mstate) :=
  let st0 := {| changes := []; tracker := change_tracker; ticks := 0 |} in
  let* (text1, st1) := apply_rules merge_rules base_cp_text st0 in
  let* (text2, st2) := add_trading_exclusions recap_data text1 st1 in
  let text3 := text2 ++ dd_clause in
  let st3 :=
    track (u "dry_docking") [] dd_clause (u "Added dry-docking clause") st2 in
  Ok (text3 ++ summary_section (changes st3), st3).

End merge.
(** *** Field extraction *)

(** Pattern: "MV\s+([A-Z\s\d]+?)(?:\s+ex\s+|IMO|\s+Cyprus)" *)
Definition x_vessel_name : regex :=
  cat [ lit "MV"; plus ws;
        Grp 1 (lazy_plus (Cls false [CRange 65 90; CSpace; CDigit]));
        alts [ cat [plus ws; lit "ex"; plus ws]; lit "IMO";
               cat [plus ws; lit "Cyprus"] ] ].

(** Pattern: "IMO\s+(\d+)" *)
Definition x_imo_number : regex :=
  cat [ lit "IMO"; plus ws; Grp 1 (plus dg) ].

(** Pattern: "(Cyprus|Liberian|Marshall Islands|Panama)\s+flag" *)
Definition x_flag : regex :=
  cat [ Grp 1 (alts [lit "Cyprus"; lit "Liberian"; lit "Marshall Islands";
                     lit "Panama"]);
        plus ws; lit "flag" ].

(** Pattern: "BLT\s+(\d{4})" *)
Definition x_built_year : regex :=
  cat [ lit "BLT"; plus ws; Grp 1 (times 4 dg) ].

(** Pattern: "DWT\s+([\d,\']+)" *)
Definition x_dwt : regex :=
  cat [ lit "DWT"; plus ws;
        Grp 1 (plus (Cls false [CDigit; CChr 44; CChr 39])) ].

(** Pattern: "Delivery\s+DLOSP\s+([A-Za-z\s,]+)" *)
Definition x_delivery_port : regex :=
  cat [ lit "Delivery"; plus ws; lit "DLOSP"; plus ws;
        Grp 1 (plus (Cls false [CRange 65 90; CRange 97 122; CSpace;
                                CChr 44])) ].

(** Pattern: "Laycan:\s*([^D\n]+)", where D stands for the dash U+2013 *)
Definition x_laycan : regex :=
  cat [ lit "Laycan:"; star ws; Grp 1 (plus (none_of [ndash; nl])) ].

(** Pattern: "at\s+([\d.]+)\s*%\s*bhsi38" *)
Definition x_hire_rate : regex :=
  cat [ lit "at"; plus ws; Grp 1 (plus (Cls false [CDigit; CChr 46]));
        star ws; lit "%"; star ws; lit "bhsi38" ].

(** Pattern: "About\s+(\d+)\s+to\s+about\s+(\d+)\s+months" *)
Definition x_period : regex :=
  cat [ lit "About"; plus ws; Grp 1 (plus dg); plus ws; lit "to"; plus ws;
        lit "about"; plus ws; Grp 2 (plus dg); plus ws; lit "months" ].

(** Pattern: "opt\s+about\s+(\d+)\s*[D-]\s*about\s+(\d+)\s+months\s+at\s*\$\s*([\d,]+)",
    where D stands for the dash U+2013 *)
Definition x_optional_period : regex :=
  cat [ lit "opt"; plus ws; lit "about"; plus ws; Grp 1 (plus dg); star ws;
        Cls false [CChr ndash; CChr 45]; star ws; lit "about"; plus ws;
        Grp 2 (plus dg); plus ws; lit "months"; plus ws; lit "at"; star ws;
        lit "$"; star ws; Grp 3 (plus (Cls false [CDigit; CChr 44])) ].

(** Pattern: "REDEL\s+DOP\s+1SP\s+WW\s+WITHIN\s+TRADING\s+LIMITS.*?(?=\+|$)" *)
Definition x_redelivery_range : regex :=
  cat [ lit "REDEL"; plus ws; lit "DOP"; plus ws; lit "1SP"; plus ws;
        lit "WW"; plus ws; lit "WITHIN"; plus ws; lit "TRADING"; plus ws;
        lit "LIMITS"; lazy_star Dot; Ahead (Alt (lit "+") Eos) ].

(** Pattern: "VLSFO\s+ABOUT\s+(\d+)\s+MT\s+AND\s+MGO\s+ABOUT\s+(\d+)\s+MT" *)
Definition x_bunkers_delivery : regex :=
  cat [ lit "VLSFO"; plus ws; lit "ABOUT"; plus ws; Grp 1 (plus dg); plus ws;
        lit "MT"; plus ws; lit "AND"; plus ws; lit "MGO"; plus ws;
        lit "ABOUT"; plus ws; Grp 2 (plus dg); plus ws; lit "MT" ].

(** Pattern: "Commission:\s*([\d.]+)\s*%?\s*address\s+commission" *)
Definition x_commission : regex :=
  cat [ lit "Commission:"; star ws; Grp 1 (plus (Cls false [CDigit; CChr 46]));
        star ws; opt (lit "%"); star ws; lit "address"; plus ws;
        lit "commission" ].

(** Pattern: "LOUIS\s+DREYFUS\s+COMPANY[^+]*" *)
Definition x_charterer : regex :=
  cat [ lit "LOUIS"; plus ws; lit "DREYFUS"; plus ws; lit "COMPANY";
        star (none_of (u "+")) ].

(** Pattern: "MV\s+LUNAR\s+STAR\s+1\s+SHIPPING\s+COMPANY[^+]*" *)
Definition x_owner : regex :=
  cat [ lit "MV"; plus ws; lit "LUNAR"; plus ws; lit "STAR"; plus ws;
        lit "1"; plus ws; lit "SHIPPING"; plus ws; lit "COMPANY";
        star (none_of (u "+")) ].

(** The dict [patterns], in the order it is written. *)
Definition patterns : list (list N * regex) := [
  (u "vessel_name", x_vessel_name);
  (u "imo_number", x_imo_number);
  (u "flag", x_flag);
  (u "built_year", x_built_year);
  (u "dwt", x_dwt);
  (u "delivery_port", x_delivery_port);
  (u "laycan", x_laycan);
  (u "hire_rate", x_hire_rate);
  (u "period", x_period);
  (u "optional_period", x_optional_period);
  (u "redelivery_range", x_redelivery_range);
  (u "bunkers_delivery", x_bunkers_delivery);
  (u "commission", x_commission);
  (u "charterer", x_charterer);
  (u "owner", x_owner)
].

(** Pattern: "TRADING EXCLUSIONS(.*?)(?=\+|$)" *)
Definition x_trading_section : regex :=
  cat [ lit "TRADING EXCLUSIONS"; Grp 1 (lazy_star Dot);
        Ahead (Alt (lit "+") Eos) ].

(** Pattern: "Hire payment clause:(.*?)(?=Conversion|For subsequent)" *)
Definition x_hire_section : regex :=
  cat [ lit "Hire payment clause:"; Grp 1 (lazy_star Dot);
        Ahead (Alt (lit "Conversion") (lit "For subsequent")) ].

(** [re.IGNORECASE | re.DOTALL] *)
Definition extract_flags : flags := {| icase := true; dotall := true |}.

Section extraction.
Context {uni : Unicode}.

(** [g.strip()] for a group [g]; [None] has no [strip]. *)
Definition strip_group (g : option (list N)) : result pyval :=
  match g with
  | Some s => Ok (PStr (strip s))
  | None => Raise AttributeError
  end.

(** The body of the [try]: the dict as the body leaves it, and how the
    body ended. *)
Definition store (key : list N) (mt : Match)
    (extracted_data : gmap (list N) pyval)
    : gmap (list N) pyval * result () :=
  if bool_decide (key = u "period") then
    match
      (let* g1 := group mt 1 in
       let* g2 := group mt 2 in
       Ok (fmt (of_group g1) ++ u " to " ++ fmt (of_group g2) ++ u " months"))
    with
    | Ok v => (<[key := PStr v]> extracted_data, Ok ())
    | Raise e => (extracted_data, Raise e)
    end
  else if bool_decide (key = u "optional_period") then
    match
      (let* g1 := group mt 1 in
       let* g2 := group mt 2 in
       let* g3 := group mt 3 in
       Ok (fmt (of_group g1) ++ u " to " ++ fmt (of_group g2)
           ++ u " months at $" ++ fmt (of_group g3)))
    with
    | Ok v => (<[key := PStr v]> extracted_data, Ok ())
    | Raise e => (extracted_data, Raise e)
    end
  else if bool_decide (key = u "bunkers_delivery") then
    match group mt 1 with
    | Ok g1 =>
        let data1 := <[u "vlsfo_quantity" := of_group g1]> extracted_data in
        match group mt 2 with
        | Ok g2 => (<[u "mgo_quantity" := of_group g2]> data1, Ok ())
        | Raise e => (data1, Raise e)
        end
    | Raise e => (extracted_data, Raise e)
    end
  else if 0 <? m_ngroups mt then         (* match.groups() is not empty *)
    match (let* g1 := group mt 1 in strip_group g1) with
    | Ok v => (<[key := v]> extracted_data, Ok ())
    | Raise e => (extracted_data, Raise e)
    end
  else (<[key := PStr (strip (m_span mt))]> extracted_data, Ok ()).

(** One round of the loop over [patterns]. *)
Definition extract_entry (recap_text : list N)
    (extracted_data : gmap (list N) pyval) (entry : list N * regex)
    : result (gmap (list N) pyval) :=
  let '(key, pat) := entry in
  match search extract_flags pat recap_text with
  | Some (_, mt) =>
      match store key mt extracted_data with
      | (data, Ok _) => Ok data
      | (data, Raise IndexError) =>     (* except IndexError *)
          Ok (<[key := PStr (strip (m_span mt))]> data)
      | (_, Raise e) => Raise e
      end
  | None => Ok extracted_data
  end.

Fixpoint extract_entries (recap_text : list N)
    (entries : list (list N * regex))
    (extracted_data : gmap (list N) pyval)
    : result (gmap (list N) pyval) :=
  match entries with
  | [] => Ok extracted_data
  | entry :: entries' =>
      let* data := extract_entry recap_text extracted_data entry in
      extract_entries recap_text entries' data
  end.

(** A section search: [key] receives the stripped first group. *)
Definition extract_section (recap_text key : list N) (pat : regex)
    (extracted_data : gmap (list N) pyval)
    : result (gmap (list N) pyval) :=
  match search extract_flags pat recap_text with
  | Some (_, mt) =>
      let* g1 := group mt 1 in
      let* v := strip_group g1 in
      Ok (<[key := v]> extracted_data)
  | None => Ok extracted_data
  end.

(** [extract_recap_data], from the text that [extract_text_from_file]
    returned for the recap file. *)
Definition extract_recap_data (recap_text : list N)
    : result (gmap (list N) pyval) :=
  let* data := extract_entries recap_text patterns ∅ in
  let* data :=
    extract_section recap_text (u "trading_exclusions") x_trading_section
      data in
  extract_section recap_text (u "hire_payment") x_hire_section data.

End extraction.

End DocumentProcessor.

(** ** Notions used to state the properties *)

Import Re ChangeTracker DocumentProcessor.

(** Group [i] takes part in every match of [r]: it sits on every path
    through the pattern. *)
Fixpoint always_sets (i : nat) (r : regex) : bool :=
  match r with
  | Cat r1 r2 => always_sets i r1 || always_sets i r2
  | Alt r1 r2 => always_sets i r1 && always_sets i r2
  | Grp j r => (i =? j) || always_sets i r
  | Rep _ lo _ r => (0 <? lo) && always_sets i r
  | Ahead r => always_sets i r
  | _ => false
  end.

(** What a successful run of a matching step guarantees: the
    continuation succeeded on a suffix of the text, no group was lost,
    and the groups in [A] are set. *)
Definition step_inv (A : nat → Prop)
    (step : list N → caps → kont → option (list N * caps)) : Prop :=
  ∀ s g k res, step s g k = Some res →
    ∃ s' g', k s' g' = Some res ∧ s' `suffix_of` s
             ∧ ∀ i, is_Some (g !! i) ∨ A i → is_Some (g' !! i).

(** The decomposition of a text that a left-to-right scan produces,
    stated without reference to any bound on the number of rounds:
    [Occ fl r adv s hits tail] when scanning [s] (an empty match being
    refused at its head if [adv]) meets the matches [hits], each after
    the gap recorded with it, and ends with [tail] unmatched. *)
Inductive Occ {uni : Unicode} (fl : flags) (r : regex)
    : bool → list N → list (list N * Match) → list N → Prop :=
  | Occ_end adv :
      match_at fl r [] adv = None →
      Occ fl r adv [] [] []
  | Occ_hit adv s mt hits tail :
      match_at fl r s adv = Some mt →
      Occ fl r (bool_decide (m_span mt = [])) (drop (length (m_span mt)) s)
        hits tail →
      Occ fl r adv s (([], mt) :: hits) tail
  | Occ_skip_hit adv c s gap mt hits tail :
      match_at fl r (c :: s) adv = None →
      Occ fl r false s ((gap, mt) :: hits) tail →
      Occ fl r adv (c :: s) ((c :: gap, mt) :: hits) tail
  | Occ_skip_end adv c s tail :
      match_at fl r (c :: s) adv = None →
      Occ fl r false s [] tail →
      Occ fl r adv (c :: s) [] (c :: tail).

(** The text a list of occurrences was cut from, and the text obtained by
    putting [news] in the place of the matches. *)
Definition original (hits : list (list N * Match)) (tail : list N) : list N :=
  concat (map (λ hit, hit.1 ++ m_span hit.2) hits) ++ tail.

Definition splice (hits : list (list N * Match)) (news : list (list N))
    (tail : list N) : list N :=
  concat (zip_with (λ hit new, hit.1 ++ new) hits news) ++ tail.

(** Calling [repl] on each occurrence in turn. *)
Fixpoint run_hits {St : Type} (repl : Match → St → result (list N * St))
    (hits : list (list N * Match)) (st : St) : result (list (list N) * St) :=
  match hits with
  | [] => Ok ([], st)
  | (_, mt) :: hits' =>
      let* (new, st1) := repl mt st in
      let* (news, st2) := run_hits repl hits' st1 in
      Ok (new :: news, st2)
  end.

(** The number of rounds a scan of [s] needs at most. *)
Definition rounds (s : list N) (adv : bool) : nat :=
  2 * length s + (if adv then 1 else 2).

(** A sequence of calls to [track_change] on one tracker: each call with
    the clock reading it sees and its four arguments. *)
Record call := {
  c_now : list N;
  c_field : list N;
  c_old_value : list N;
  c_new_value : list N;
  c_description : list N;
}.

Definition track_all (calls : list call) (self : list ChangeRecord)
    : list ChangeRecord :=
  foldl (λ self c,
    (track_change (c_now c) (c_field c) (c_old_value c) (c_new_value c)
       (c_description c) self).2) self calls.

(** The number of records of a given change type in a log. *)
Definition occurrences_of_type (ty : list N) (l : list ChangeRecord) : nat :=
  length (filter (λ c, ch_change_type c = ty) l).

(** The dict of the three counts. *)
Definition type_counts (a m d : nat) : gmap (list N) nat :=
  <[u "deletions" := d]> (<[u "modifications" := m]>
    (<[u "additions" := a]> ∅)).

(** The narrative sentence as the specification words it: the non-zero
    counts, in the order addition, modification, deletion, joined with
    commas. *)
Definition narrative (a m d : nat) : list N :=
  u "Document successfully merged with "
  ++ join (u ", ")
       (map (λ p, str_of_nat p.1 ++ p.2)
          (filter (λ p, 0 < p.1)
             [(a, u " addition(s)"); (m, u " modification(s)");
              (d, u " deletion(s)")]))
  ++ u ".".

(** The records a rule logs for the occurrences [hits] replaced by
    [news], when the tracker already holds [len] records and the clock
    has been read [tick] times. *)
Fixpoint logged (clock : nat → list N) (rl : rule) (len tick : nat)
    (hits : list (list N * Match)) (news : list (list N))
    : list ChangeRecord :=
  match hits, news with
  | (_, mt) :: hits', new :: news' =>
      {| ch_id := len + 1;
         ch_field := field rl;
         ch_old_value := m_span mt;
         ch_new_value := new;
         ch_description := description rl;
         ch_timestamp := clock tick;
         ch_change_type := _determine_change_type (m_span mt) new |}
      :: logged clock rl (S len) (S tick) hits' news'
  | _, _ => []
  end.

(** A state after [new] more records have been logged. *)
Definition extend (st : mstate) (new : list ChangeRecord) : mstate :=
  {| changes := changes st ++ new;
     tracker := tracker st ++ new;
     ticks := ticks st + length new |}.

(** Forgetting the clock readings. *)
Definition untimed (c : ChangeRecord) : ChangeRecord :=
  {| ch_id := ch_id c;
     ch_field := ch_field c;
     ch_old_value := ch_old_value c;
     ch_new_value := ch_new_value c;
     ch_description := ch_description c;
     ch_timestamp := [];
     ch_change_type := ch_change_type c |}.

Definition untimed_state (st : mstate) : mstate :=
  {| changes := untimed <$> changes st;
     tracker := untimed <$> tracker st;
     ticks := ticks st |}.

Definition untimed_result (x : result (list N * mstate))
    : result (list N * mstate) :=
  match x with
  | Ok (text, st) => Ok (text, untimed_state st)
  | Raise e => Raise e
  end.

(** A clock to run the model on concrete inputs. *)
Definition sample_clock (n : nat) : list N :=
  u "2025-06-10T09:00:0" ++ str_of_nat n.

(** An IMO token: the extraction pattern for the IMO number matches at
    position [i] of the text. *)
Definition imo_token_at {uni : Unicode} (text : list N) (i : nat) : Prop :=
  is_Some (match_at extract_flags x_imo_number (drop i text) false).

(** The entries of the dict [patterns] whose first group, when the
    pattern has groups, takes part in every match. *)
Definition first_group_sure (entry : list N * regex) : bool :=
  (ngroups entry.2 =? 0) || always_sets 1 entry.2.

(** ** change_tracker.py: display of the log *)

(** [_truncate_text]; [max_length] is never negative where it is called. *)
Definition _truncate_text (text : list N) (max_length : nat) : list N :=
  if negb (truthy text) then []
  else if length text <=? max_length then text
  else take max_length text ++ u "...".

(** The dict [field_names]. *)
Definition field_names : gmap (list N) (list N) :=
  <[u "dry_docking" := u "Dry-Docking Clause"]>
  (<[u "trading_exclusions" := u "Trading Exclusions"]>
  (<[u "laycan" := u "Laycan Period"]>
  (<[u "delivery_port" := u "Delivery Port"]>
  (<[u "charter_period" := u "Charter Period"]>
  (<[u "charterer_details" := u "Charterer Details"]>
  (<[u "owner_details" := u "Owner Details"]>
  (<[u "charter_date" := u "Charter Date"]>
  (<[u "vessel_name" := u "Vessel Name"]> ∅)))))))).

(** The dict [format_change_for_display] returns. *)
Record DisplayRecord := {
  d_id : nat;
  d_field : list N;
  d_description : list N;
  d_change_type : list N;
  d_old_value : list N;
  d_new_value : list N;
  d_timestamp : list N;
}.

Section display.
(** [str.title], which rests on the case tables of the Unicode
    database. *)
Variable title : list N → list N.

(** [field_names.get(field, field.replace('_', ' ').title())] *)
Definition _format_field_name (field : list N) : list N :=
  default (title (str_replace (u "_") (u " ") 0 field)) (field_names !! field).

Definition format_change_for_display (change : ChangeRecord) : DisplayRecord :=
  {| d_id := ch_id change;
     d_field := _format_field_name (ch_field change);
     d_description := ch_description change;
     d_change_type := ch_change_type change;
     d_old_value := _truncate_text (ch_old_value change) 200;
     d_new_value := _truncate_text (ch_new_value change) 200;
     d_timestamp := ch_timestamp change |}.

(** [export_changes_to_dict], on the tracker's [changes] list. *)
Definition export_changes_to_dict (self : list ChangeRecord)
    : list DisplayRecord :=
  format_change_for_display <$> self.

End display.

(** ** The state of a merge, as the loop keeps it *)

(** What holds of every record [merge_documents] logs: its new value is
    not empty, its change type is that of its two values, and its field
    has a display name. *)
Definition record_ok (c : ChangeRecord) : Prop :=
  ch_new_value c ≠ []
  ∧ ch_change_type c
    = _determine_change_type (ch_old_value c) (ch_new_value c)
  ∧ is_Some (field_names !! ch_field c).

(** [tr] being the log of the tracker when the merge began: the tracker
    has received the records of the local list and no other, the clock
    was read once per record, and the ids and timestamps follow. *)
Definition merge_inv (clock : nat → list N) (tr : list ChangeRecord)
    (st : mstate) : Prop :=
  tracker st = tr ++ changes st
  ∧ ticks st = length (changes st)
  ∧ ch_id <$> changes st = seq (S (length tr)) (length (changes st))
  ∧ ch_timestamp <$> changes st = clock <$> seq 0 (length (changes st))
  ∧ Forall record_ok (changes st).

(** ** document_processor.py: what the extraction leaves in the dict *)

(** The keys that an entry of [patterns] writes when its pattern is found:
    the bunkers entry writes two keys of its own choosing, every other
    entry its own key. *)
Definition written_keys (key : list N) : list (list N) :=
  if bool_decide (key = u "bunkers_delivery")
  then [u "vlsfo_quantity"; u "mgo_quantity"]
  else [key].

(** The keys whose values are stored without [strip]. *)
Definition unstripped_keys : list (list N) :=
  [u "period"; u "optional_period"; u "vlsfo_quantity"; u "mgo_quantity"].

(** What the three group tests of an entry need for [store] to end
    neither in [None.strip()] nor, for the bunkers entry, in the handler
    of [IndexError]. *)
Definition entry_sure (entry : list N * regex) : Prop :=
  first_group_sure entry = true
  ∧ (entry.1 = u "bunkers_delivery" →
     2 ≤ ngroups entry.2
     ∧ always_sets 1 entry.2 = true ∧ always_sets 2 entry.2 = true).

Section extraction_notions.
Context {uni : Unicode}.

(** [re.search(pat, text, re.IGNORECASE | re.DOTALL)] finds a match. *)
Definition occurs (pat : regex) (text : list N) : bool :=
  bool_decide (is_Some (search extract_flags pat text)).

(** The keys of the entries and sections whose pattern occurs. *)
Definition expected_keys (text : list N) : gset (list N) :=
  list_to_set
    (flat_map (λ entry : list N * regex,
                 if occurs entry.2 text then written_keys entry.1 else [])
              patterns)
  ∪ (if occurs x_trading_section text
     then {[ u "trading_exclusions" ]} else ∅)
  ∪ (if occurs x_hire_section text then {[ u "hire_payment" ]} else ∅).

(** No white space at either end. *)
Definition trimmed (s : list N) : Prop :=
  match s with
  | [] => True
  | c :: _ => is_space c = false
  end
  ∧ match last s with
    | Some c => is_space c = false
    | None => True
    end.

(** A stored value is a string, trimmed unless its key is one of the
    four that are stored as they are. *)
Definition value_ok (k : list N) (v : pyval) : Prop :=
  ∃ s, v = PStr s ∧ (k ∉ unstripped_keys → trimmed s).

End extraction_notions.

(** ** app.py *)
Module App.

(** The set [ALLOWED_EXTENSIONS]. *)
Definition ALLOWED_EXTENSIONS : gset (list N) :=
  {[ u "pdf"; u "docx"; u "doc" ]}.

(** [s.rfind(sep)] for a separator of one character: the index of its
    last occurrence. *)
Fixpoint rfind (sep : N) (s : list N) : option nat :=
  match s with
  | [] => None
  | c :: s' =>
      match rfind sep s' with
      | Some i => Some (S i)
      | None => if (c =? sep)%N then Some 0 else None
      end
  end.

(** [s.rsplit(sep, 1)]: one split, at the last separator. *)
Definition rsplit1 (sep : N) (s : list N) : list (list N) :=
  match rfind sep s with
  | Some i => [take i s; drop (S i) s]
  | None => [s]
  end.

(** [l[i]] for an index that is not negative. *)
Definition item {A : Type} (l : list A) (i : nat) : result A :=
  match l !! i with
  | Some x => Ok x
  | None => Raise IndexError
  end.

Section upload.
(** [str.lower] *)
Variable lower : list N → list N.

(** [allowed_file]; [and] evaluates its right operand only when the left
    one holds. *)
Definition allowed_file (filename : list N) : result bool :=
  if existsb (N.eqb 46) filename then
    let* ext := item (rsplit1 46 filename) 1 in
    Ok (bool_decide (lower ext ∈ ALLOWED_EXTENSIONS))
  else Ok false.

End upload.

End App.

(** ** document_processor.py: the text of the laid-out documents *)

Section layout_text.
Context {uni : Unicode}.

(** Runs of white space replaced by one blank each: [prev] tells that the
    character before was white space. *)
Fixpoint squeeze (prev : bool) (s : list N) : list N :=
  match s with
  | [] => []
  | c :: s' =>
      if is_space c
      then if prev then squeeze true s' else 32%N :: squeeze true s'
      else c :: squeeze false s'
  end.

(** Every white-space character is a blank and stands before a character
    that is not white space. *)
Fixpoint single_spaced (t : list N) : bool :=
  match t with
  | [] => true
  | c :: t' =>
      (if is_space c
       then (c =? 32)%N
            && match t' with
               | [] => false
               | d :: _ => negb (is_space d)
               end
       else true)
      && single_spaced t'
  end.

(** The characters that are not white space, in order. *)
Definition visible (s : list N) : list N :=
  filter (λ c, is_space c = false) s.

(** [s.split(sep)] for a separator of one character. *)
Fixpoint split (sep : N) (s : list N) : list (list N) :=
  match s with
  | [] => [[]]
  | c :: s' =>
      if (c =? sep)%N then [] :: split sep s'
      else match split sep s' with
           | part :: parts => (c :: part) :: parts
           | [] => [[c]]
           end
  end.

(** [needle in s] *)
Fixpoint contains (needle s : list N) : bool :=
  is_prefix needle s
  || match s with
     | [] => false
     | _ :: s' => contains needle s'
     end.

(** Pattern: "^\d+\.\s", used with [re.match]: the anchor holds where
    [re.match] starts, and is left out. *)
Definition numbered_clause : regex := cat [plus dg; Chr 46; ws].

(** What a line of the content leaves in the document: a marker line
    nothing, or the heading of the summary; any other line itself. *)
Definition rendered (line : list N) : list N :=
  if is_prefix (u "===") (strip line) then
    if contains (u "SUMMARY OF CHANGES") (strip line)
    then u "Summary of Changes" else []
  else strip line.

End layout_text.

(** ** Outcomes of the layout functions

    Besides [re], the layout functions call reportlab and python-docx,
    whose constructors raise on texts they refuse: reportlab reads the
    text of a [Paragraph] as markup, python-docx refuses control
    characters and unknown styles. *)

Inductive lib_exn : Set :=
  | ValueError
  | KeyError.

Inductive layout_exn : Set :=
  | OfRe (e : exn)            (* raised by [re] *)
  | OfLib (e : lib_exn).      (* raised by reportlab or python-docx *)

Inductive lresult (A : Type) : Type :=
  | Laid (a : A)
  | Failed (e : layout_exn).
Arguments Laid {A} a.
Arguments Failed {A} e.

Definition lbind {A B} (x : lresult A) (f : A → lresult B) : lresult B :=
  match x with
  | Laid a => f a
  | Failed e => Failed e
  end.

Notation "'let+' x := e1 'in' e2" := (lbind e1 (λ x, e2))
  (at level 10, x pattern, e1 at level 200, e2 at level 200).

Definition of_re {A} (r : result A) : lresult A :=
  match r with
  | Ok a => Laid a
  | Raise e => Failed (OfRe e)
  end.

(** What holds of an outcome: [P] of the value returned, [R] of the
    exception raised. *)
Definition post {A} (P : A → Prop) (R : layout_exn → Prop) (x : lresult A)
    : Prop :=
  match x with
  | Laid a => P a
  | Failed e => R e
  end.

(** ** document_processor.py: the PDF story *)

(** The paragraph styles that [generate_pdf] builds. *)
Inductive pstyle : Set :=
  | title_style
  | header_style
  | normal_style
  | section_style.

(** The flowables of the story, each with the arguments it was built
    from.  What reportlab does with the story ([doc.build]) is outside
    the model. *)
Inductive flowable : Set :=
  | Paragraph (text : list N) (style : pstyle)
  | Spacer (width height : nat).

(** The text of a flowable. *)
Definition text_of (f : flowable) : list N :=
  match f with
  | Paragraph text _ => text
  | Spacer _ _ => []
  end.

Section pdf.
Context {uni : Unicode}.

(** reportlab's verdict on [Paragraph(text, style)]: the exception its
    constructor raises, if it raises. *)
Variable refused : list N → pstyle → option lib_exn.

(** [story.append(Paragraph(text, style))] *)
Definition append_paragraph (story : list flowable) (text : list N)
    (style : pstyle) : lresult (list flowable) :=
  match refused text style with
  | Some e => Failed (OfLib e)
  | None => Laid (story ++ [Paragraph text style])
  end.

(** [_add_pdf_paragraph]: the story after the call.  The pattern of the
    substitution is "\s+". *)
Definition _add_pdf_paragraph (story : list flowable) (text : list N)
    (normal_style section_style : pstyle) : lresult (list flowable) :=
  if negb (truthy (strip text)) then Laid story
  else
    let text := strip text in
    let+ text := of_re (sub_template no_flags (plus ws) (u " ") text) in
    if is_prefix (u "That the") text && (50 <? length text)
    then append_paragraph story text section_style
    else append_paragraph story text normal_style.

(** The head of the story, when reportlab takes its four paragraphs. *)
Definition pdf_header : list flowable := [
  Paragraph (u "Time Charter Party") title_style;
  Paragraph (u "GOVERNMENT FORM") header_style;
  Paragraph (u "Approved by the New York Produce Exchange") normal_style;
  Paragraph
    (u "November 6th, 1913 - Amended October 20th, 1921; August 6th, 1931; October 3rd, 1946")
    normal_style;
  Spacer 1 12
].

(** [if current_paragraph: self._add_pdf_paragraph(...);
    current_paragraph = ...] *)
Definition pdf_flush (story : list flowable) (current_paragraph : list N)
    : lresult (list flowable * list N) :=
  if truthy current_paragraph then
    let+ story :=
      _add_pdf_paragraph story current_paragraph normal_style section_style in
    Laid (story, [])
  else Laid (story, current_paragraph).

(** One round of the loop over the lines of [generate_pdf]. *)
Definition pdf_line (state : list flowable * list N) (line : list N)
    : lresult (list flowable * list N) :=
  let '(story, current_paragraph) := state in
  let line := strip line in
  if negb (truthy line) then pdf_flush story current_paragraph
  else if is_prefix (u "===") line then
    let+ (story, current_paragraph) := pdf_flush story current_paragraph in
    if contains (u "SUMMARY OF CHANGES") line then
      let+ story :=
        append_paragraph (story ++ [Spacer 1 20]) (u "Summary of Changes")
          section_style in
      Laid (story, current_paragraph)
    else Laid (story, current_paragraph)
  else if bool_decide (is_Some (match_at no_flags numbered_clause line false))
  then
    let+ (story, current_paragraph) := pdf_flush story current_paragraph in
    let+ story := append_paragraph story line section_style in
    Laid (story, current_paragraph)
  else
    let current_paragraph :=
      if truthy current_paragraph then current_paragraph ++ u " " ++ line
      else line in
    if 800 <? length current_paragraph then
      let+ story :=
        _add_pdf_paragraph story current_paragraph normal_style
          section_style in
      Laid (story, [])
    else Laid (story, current_paragraph).

Fixpoint pdf_lines (lines : list (list N)) (state : list flowable * list N)
    : lresult (list flowable * list N) :=
  match lines with
  | [] => Laid state
  | line :: lines' =>
      let+ state' := pdf_line state line in
      pdf_lines lines' state'
  end.

(** [generate_pdf], with reportlab at hand: the story that is handed to
    [doc.build], or the exception raised before that. *)
Definition generate_pdf (content : list N) : lresult (list flowable) :=
  let+ story := append_paragraph [] (u "Time Charter Party") title_style in
  let+ story := append_paragraph story (u "GOVERNMENT FORM") header_style in
  let+ story :=
    append_paragraph story (u "Approved by the New York Produce Exchange")
      normal_style in
  let+ story :=
    append_paragraph story
      (u "November 6th, 1913 - Amended October 20th, 1921; August 6th, 1931; October 3rd, 1946")
      normal_style in
  let story := story ++ [Spacer 1 12] in
  let+ (story, current_paragraph) :=
    pdf_lines (split nl content) (story, []) in
  if truthy current_paragraph then
    _add_pdf_paragraph story current_paragraph normal_style section_style
  else Laid story.

(** An exception of the PDF layout that comes from reportlab refusing a
    paragraph; none comes from [re]. *)
Definition paragraph_refused (e : layout_exn) : Prop :=
  match e with
  | OfLib e' => ∃ text style, refused text style = Some e'
  | OfRe _ => False
  end.

End pdf.

(** ** document_processor.py: the DOCX document *)

(** The calls that add to the document, in the order they are made:
    [doc.add_heading(text, level)], [doc.add_paragraph(text, style)]
    ([doc.add_paragraph()] has an empty text and no style) and
    [doc.add_page_break()].  What python-docx does with them when the
    document is saved is outside the model. *)
Inductive docx_item : Set :=
  | Heading (text : list N) (level : nat)
  | DocParagraph (text : list N) (style : option (list N))
  | PageBreak.

(** The text of an item. *)
Definition docx_text (item : docx_item) : list N :=
  match item with
  | Heading text _ | DocParagraph text _ => text
  | PageBreak => []
  end.

(** Pattern: "^\d+\)\s|^[a-z]\)\s|^B\s|^-\s", where B stands for the
    bullet U+2022; used with [re.match], so that the anchors hold and are
    left out. *)
Definition list_item : regex :=
  alts [cat [plus dg; Chr 41; ws];
        cat [Cls false [CRange 97 122]; Chr 41; ws];
        cat [Chr 8226; ws];
        cat [Chr 45; ws]].

Section docx.
Context {uni : Unicode}.

(** python-docx's verdict on a call: the exception it raises, if it
    raises. *)
Variable refused : docx_item → option lib_exn.

(** One call on [doc]. *)
Definition docx_call (doc : list docx_item) (item : docx_item)
    : lresult (list docx_item) :=
  match refused item with
  | Some e => Failed (OfLib e)
  | None => Laid (doc ++ [item])
  end.

(** [_add_formatted_paragraph]: the document after the call.  The spacing
    set on the new paragraph, in a [try] that swallows every exception,
    is not modelled. *)
Definition _add_formatted_paragraph (doc : list docx_item) (text : list N)
    : lresult (list docx_item) :=
  if negb (truthy (strip text)) then Laid doc
  else
    let text := strip text in
    if bool_decide (is_Some (match_at no_flags list_item text false))
    then docx_call doc (DocParagraph text (Some (u "List Bullet")))
    else docx_call doc (DocParagraph text None).

(** The head of the document, when python-docx takes its five calls. *)
Definition docx_header : list docx_item := [
  Heading (u "Time Charter Party") 0;
  Heading (u "GOVERNMENT FORM") 1;
  DocParagraph (u "Approved by the New York Produce Exchange") None;
  DocParagraph
    (u "November 6th, 1913 - Amended October 20th, 1921; August 6th, 1931; October 3rd, 1946")
    None;
  DocParagraph [] None
].

(** [if current_paragraph: self._add_formatted_paragraph(...);
    current_paragraph = ...] *)
Definition docx_flush (doc : list docx_item) (current_paragraph : list N)
    : lresult (list docx_item * list N) :=
  if truthy current_paragraph then
    let+ doc := _add_formatted_paragraph doc current_paragraph in
    Laid (doc, [])
  else Laid (doc, current_paragraph).

(** One round of the loop over the lines of [generate_docx]. *)
Definition docx_line (state : list docx_item * list N) (line : list N)
    : lresult (list docx_item * list N) :=
  let '(doc, current_paragraph) := state in
  let line := strip line in
  if negb (truthy line) then docx_flush doc current_paragraph
  else if is_prefix (u "===") line then
    let+ (doc, current_paragraph) := docx_flush doc current_paragraph in
    if contains (u "SUMMARY OF CHANGES") line then
      let+ doc := docx_call doc PageBreak in
      let+ doc := docx_call doc (Heading (u "Summary of Changes") 1) in
      Laid (doc, current_paragraph)
    else if contains (u "END SUMMARY") line then
      let+ doc := docx_call doc (DocParagraph [] None) in
      Laid (doc, current_paragraph)
    else Laid (doc, current_paragraph)
  else if bool_decide (is_Some (match_at no_flags numbered_clause line false))
  then
    let+ (doc, current_paragraph) := docx_flush doc current_paragraph in
    let+ doc := docx_call doc (Heading line 2) in
    Laid (doc, current_paragraph)
  else if is_prefix (u "That the") line && (50 <? length line) then
    let+ (doc, current_paragraph) := docx_flush doc current_paragraph in
    let+ doc := docx_call doc (Heading line 3) in
    Laid (doc, current_paragraph)
  else
    let current_paragraph :=
      if truthy current_paragraph then current_paragraph ++ u " " ++ line
      else line in
    if 500 <? length current_paragraph then
      let+ doc := _add_formatted_paragraph doc current_paragraph in
      Laid (doc, [])
    else Laid (doc, current_paragraph).

Fixpoint docx_lines (lines : list (list N))
    (state : list docx_item * list N) : lresult (list docx_item * list N) :=
  match lines with
  | [] => Laid state
  | line :: lines' =>
      let+ state' := docx_line state line in
      docx_lines lines' state'
  end.

(** [generate_docx], with python-docx at hand: the calls made on the
    document before it is saved, or the exception raised before that. *)
Definition generate_docx (content : list N) : lresult (list docx_item) :=
  let+ doc := docx_call [] (Heading (u "Time Charter Party") 0) in
  let+ doc := docx_call doc (Heading (u "GOVERNMENT FORM") 1) in
  let+ doc :=
    docx_call doc
      (DocParagraph (u "Approved by the New York Produce Exchange") None) in
  let+ doc :=
    docx_call doc
      (DocParagraph
         (u "November 6th, 1913 - Amended October 20th, 1921; August 6th, 1931; October 3rd, 1946")
         None) in
  let+ doc := docx_call doc (DocParagraph [] None) in
  let+ (doc, current_paragraph) :=
    docx_lines (split nl content) (doc, []) in
  if truthy current_paragraph
  then _add_formatted_paragraph doc current_paragraph
  else Laid doc.

(** An exception of the DOCX layout that comes from python-docx refusing
    a call; none comes from [re]. *)
Definition call_refused (e : layout_exn) : Prop :=
  match e with
  | OfLib e' => ∃ item, refused item = Some e'
  | OfRe _ => False
  end.

End docx.

(** * Properties *)

(** ** The matcher *)

Section engine_facts.
Context {uni : Unicode}.
Implicit Types (s : list N) (g : caps) (k : kont) (r : regex).

Lemma rep_min_inv A step n :
  step_inv A step → step_inv (λ i, 0 < n ∧ A i) (rep_min step n).
Proof.
  intros Hs. induction n as [|n IH]; intros s g k res Hm; simpl in Hm.
  - exists s, g. split; [done|]. split; [done|].
    intros i [Hi|[Hn _]]; [done|lia].
  - apply Hs in Hm as (s1 & g1 & Hk & Hsuf & Hg).
    apply IH in Hk as (s2 & g2 & Hk & Hsuf2 & Hg2).
    exists s2, g2. split; [done|]. split; [by etrans|].
    intros i Hi. apply Hg2. left. apply Hg. naive_solver.
Qed.

Lemma orelse_Some {A} (x y : option A) (a : A) :
  match x with Some v => Some v | None => y end = Some a →
  x = Some a ∨ y = Some a.
Proof. destruct x; naive_solver. Qed.

Lemma rep_opt_inv A step greedy fuel extra :
  step_inv A step → step_inv (λ _, False) (rep_opt step greedy fuel extra).
Proof.
  intros Hs. revert extra.
  induction fuel as [|fuel IH]; intros extra s g k res Hm.
  { exists s, g. destruct extra as [[|?]|]; naive_solver. }
  assert (Hstop : k s g = Some res →
    ∃ s' g', k s' g' = Some res ∧ s' `suffix_of` s
             ∧ ∀ i, is_Some (g !! i) ∨ False → is_Some (g' !! i)).
  { intros Hk. exists s, g. naive_solver. }
  assert (Hmore : ∀ extra', step s g (λ s' g',
            if length s' <? length s
            then rep_opt step greedy fuel extra' s' g' k
            else None) = Some res →
    ∃ s' g', k s' g' = Some res ∧ s' `suffix_of` s
             ∧ ∀ i, is_Some (g !! i) ∨ False → is_Some (g' !! i)).
  { intros extra' Hk. apply Hs in Hk as (s1 & g1 & Hk & Hsuf & Hg).
    destruct (length s1 <? length s); [|done].
    apply IH in Hk as (s2 & g2 & Hk & Hsuf2 & Hg2).
    exists s2, g2. split; [done|]. split; [by etrans|].
    intros i [Hi|[]]. apply Hg2. left. apply Hg. by left. }
  simpl in Hm. destruct extra as [[|e]|]; [by apply Hstop| |];
    destruct greedy; apply orelse_Some in Hm as [Hm|Hm];
    first [by apply Hstop|by eapply Hmore].
Qed.

(** Every successful match hands a suffix of the text to its
    continuation, keeps the groups already set and sets the groups that
    lie on every path through the pattern. *)
Lemma m_inv fl r : step_inv (λ i, always_sets i r = true) (m fl r).
Proof.
  induction r as [|c| |neg items|r1 IH1 r2 IH2|r1 IH1 r2 IH2|j r IH
                  |greedy lo hi r IH|r IH|];
    intros s g k res Hm; simpl in Hm.
  - exists s, g. naive_solver.
  - destruct s as [|x s']; [done|]. destruct (chr_eq _ _ _); [|done].
    exists s', g. split; [done|]. split; [by apply suffix_cons_r|naive_solver].
  - destruct s as [|x s']; [done|]. destruct (_ || _); [|done].
    exists s', g. split; [done|]. split; [by apply suffix_cons_r|naive_solver].
  - destruct s as [|x s']; [done|]. destruct (cls_match _ _ _ _); [|done].
    exists s', g. split; [done|]. split; [by apply suffix_cons_r|naive_solver].
  - apply IH1 in Hm as (s1 & g1 & Hm & Hsuf1 & Hg1).
    apply IH2 in Hm as (s2 & g2 & Hk & Hsuf2 & Hg2).
    exists s2, g2. split; [done|]. split; [by etrans|].
    intros i [Hi|Hi]; [apply Hg2; left; apply Hg1; by left|].
    simpl in Hi. apply orb_true_iff in Hi as [Hi|Hi].
    + apply Hg2. left. apply Hg1. by right.
    + apply Hg2. by right.
  - assert (Hor : m fl r1 s g k = Some res ∨ m fl r2 s g k = Some res).
    { destruct (m fl r1 s g k); [left|right]; done. }
    destruct Hor as [Hm'|Hm'].
    + apply IH1 in Hm' as (s1 & g1 & Hk & Hsuf & Hg).
      exists s1, g1. split; [done|]. split; [done|].
      intros i [Hi|Hi]; apply Hg; [by left|right].
      simpl in Hi. by apply andb_true_iff in Hi as [? _].
    + apply IH2 in Hm' as (s1 & g1 & Hk & Hsuf & Hg).
      exists s1, g1. split; [done|]. split; [done|].
      intros i [Hi|Hi]; apply Hg; [by left|right].
      simpl in Hi. by apply andb_true_iff in Hi as [_ ?].
  - apply IH in Hm as (s1 & g1 & Hk & Hsuf & Hg).
    eexists s1, _. split; [exact Hk|]. split; [done|].
    intros i Hi. destruct (decide (i = j)) as [->|Hne].
    + rewrite lookup_insert_eq. by eexists.
    + rewrite lookup_insert_ne; [|done]. apply Hg.
      destruct Hi as [Hi|Hi]; [by left|right].
      simpl in Hi. apply orb_true_iff in Hi as [Hi|Hi]; [|done].
      apply Nat.eqb_eq in Hi. done.
  - apply (rep_min_inv _ _ lo IH) in Hm as (s1 & g1 & Hm & Hsuf1 & Hg1).
    apply (rep_opt_inv _ _ _ _ _ IH) in Hm as (s2 & g2 & Hk & Hsuf2 & Hg2).
    exists s2, g2. split; [done|]. split; [by etrans|].
    intros i Hi. apply Hg2. left. apply Hg1.
    destruct Hi as [Hi|Hi]; [by left|right].
    simpl in Hi. apply andb_true_iff in Hi as [Hlo Hi].
    apply Nat.ltb_lt in Hlo. done.
  - destruct (m fl r s g _) as [[s0 g0]|] eqn:E; [|done].
    apply IH in E as (s1 & g1 & E & Hsuf & Hg). simplify_eq.
    exists s, g0. split; [done|]. split; [done|].
    intros i Hi. apply Hg. naive_solver.
  - exists s, g. split; [|naive_solver].
    destruct s as [|c [|??]]; [done| |done].
    by destruct (c =? 10)%N.
Qed.

(** A match at the head of [s] is a prefix of [s], is not empty when an
    empty match was ruled out, and has every group that lies on every
    path through the pattern. *)
Lemma match_at_inv fl r s adv mt :
  match_at fl r s adv = Some mt →
  (∃ s', s = m_span mt ++ s')
  ∧ (adv = true → m_span mt ≠ [])
  ∧ m_ngroups mt = ngroups r
  ∧ ∀ i, always_sets i r = true → is_Some (m_caps mt !! i).
Proof.
  unfold match_at. intros Hm.
  destruct (m fl r s ∅ _) as [[s1 g1]|] eqn:E; [|done].
  apply m_inv in E as (s2 & g2 & Hk & [pre ->] & Hg).
  assert (s2 = s1 ∧ g2 = g1 ∧ (adv = true → pre ≠ [])) as (-> & -> & Hadv).
  { destruct adv; simpl in Hk.
    - destruct (length s2 =? length (pre ++ s2)) eqn:El; [done|].
      simplify_eq. split_and!; [done..|]. intros _ ->.
      by rewrite Nat.eqb_refl in El.
    - by simplify_eq. }
  simplify_eq. simpl.
  replace (length (pre ++ s1) - length s1) with (length pre)
    by (rewrite length_app; lia).
  rewrite take_app_length.
  split; [by exists s1|]. split; [done|]. split; [done|].
  intros i Hi. apply Hg. by right.
Qed.

Lemma match_at_length fl r s adv mt :
  match_at fl r s adv = Some mt → length (m_span mt) ≤ length s.
Proof.
  intros ([s' Hs] & _)%match_at_inv. rewrite Hs, length_app. lia.
Qed.

End engine_facts.

(** ** Scanning a text for the occurrences of a pattern *)

Section scan_facts.
Context {uni : Unicode}.
Implicit Types (s : list N) (r : regex) (hits : list (list N * Match)).

Lemma rounds_hit fl r s adv mt fuel :
  match_at fl r s adv = Some mt →
  rounds s adv ≤ S fuel →
  rounds (drop (length (m_span mt)) s) (bool_decide (m_span mt = [])) ≤ fuel.
Proof.
  intros ([s' Hs] & Hadv & _)%match_at_inv. unfold rounds.
  rewrite length_drop. assert (length s = length (m_span mt) + length s')
    as -> by (by rewrite Hs at 1; rewrite length_app).
  case_bool_decide as Hspan.
  - rewrite Hspan. simpl. destruct adv; [by destruct Hadv|]. lia.
  - assert (0 < length (m_span mt)) by (destruct (m_span mt); simpl; [done|lia]).
    destruct adv; lia.
Qed.

Lemma rounds_skip c s adv fuel :
  rounds (c :: s) adv ≤ S fuel → rounds s false ≤ fuel.
Proof. unfold rounds. simpl. destruct adv; lia. Qed.

Lemma rounds_pos s adv : 0 < rounds s adv.
Proof. unfold rounds. destruct adv; lia. Qed.

(** With enough rounds the scan is complete: what [occurrences_from]
    returns is the decomposition [Occ] describes. *)
Lemma occurrences_from_Occ fl r fuel s adv :
  rounds s adv ≤ fuel →
  Occ fl r adv s (occurrences_from fl r fuel s adv).1
                 (occurrences_from fl r fuel s adv).2.
Proof.
  revert s adv. induction fuel as [|fuel IH]; intros s adv Hfuel.
  { pose proof (rounds_pos s adv). lia. }
  simpl. destruct (match_at fl r s adv) as [mt|] eqn:E.
  - pose proof (IH _ _ (rounds_hit _ _ _ _ _ _ E Hfuel)) as IH'.
    destruct (occurrences_from fl r fuel _ _) as [hits tail]. simpl in *.
    by apply Occ_hit.
  - destruct s as [|c s]; [by apply Occ_end|].
    pose proof (IH _ _ (rounds_skip _ _ _ _ Hfuel)) as IH'.
    destruct (occurrences_from fl r fuel s false) as [[|[gap mt] hits] tail];
      simpl in *.
    + by apply Occ_skip_end.
    + by apply Occ_skip_hit.
Qed.

Lemma occurrences_Occ fl r s :
  Occ fl r false s (occurrences fl r s).1 (occurrences fl r s).2.
Proof. apply occurrences_from_Occ. unfold rounds. lia. Qed.

(** The occurrences and the gaps between them make up the text: they
    come in order and do not overlap. *)
Lemma Occ_original fl r adv s hits tail :
  Occ fl r adv s hits tail → original hits tail = s.
Proof.
  unfold original. induction 1 as [adv Hm|adv s mt hits tail Hm _ IH
    |adv c s gap mt hits tail Hm _ IH|adv c s tail Hm _ IH]; simpl in *.
  - done.
  - apply match_at_inv in Hm as ([s' Hs] & _).
    rewrite <- app_assoc, IH. simpl.
    rewrite Hs at 1 2. by rewrite drop_app_length.
  - by rewrite IH.
  - by rewrite IH.
Qed.

(** Every occurrence is a match of the pattern where it lies. *)
Lemma Occ_matches fl r adv s hits tail :
  Occ fl r adv s hits tail →
  Forall (λ hit, ∃ s' adv', match_at fl r s' adv' = Some hit.2) hits.
Proof.
  induction 1 as [adv Hm|adv s mt hits tail Hm _ IH
    |adv c s gap mt hits tail Hm _ IH|adv c s tail Hm _ IH].
  - constructor.
  - constructor; [by exists s, adv|done].
  - inversion IH; subst. by constructor.
  - constructor.
Qed.

(** The scan is a function of the text. *)
Lemma Occ_functional fl r adv s hits1 tail1 hits2 tail2 :
  Occ fl r adv s hits1 tail1 → Occ fl r adv s hits2 tail2 →
  hits1 = hits2 ∧ tail1 = tail2.
Proof.
  intros H1. revert hits2 tail2.
  induction H1 as [adv Hm|adv s mt hits tail Hm _ IH
    |adv c s gap mt hits tail Hm _ IH|adv c s tail Hm _ IH];
    intros hits2 tail2 H2; inversion H2; simplify_eq; try done.
  - by destruct (IH _ _ ltac:(eassumption)) as [-> ->].
  - by destruct (IH _ _ ltac:(eassumption)) as [? ->]; simplify_eq.
  - by destruct (IH _ _ ltac:(eassumption)) as [? ?].
  - by destruct (IH _ _ ltac:(eassumption)) as [? ?].
  - by destruct (IH _ _ ltac:(eassumption)) as [_ ->].
Qed.

(** [re.sub] visits exactly the occurrences of [Occ], in order, and puts
    what [repl] returns in their place. *)
Lemma subx_Occ {St : Type} fl r (repl : Match → St → result (list N * St))
    adv s hits tail :
  Occ fl r adv s hits tail →
  ∀ fuel st, rounds s adv ≤ fuel →
    subx fl r repl fuel s adv st =
      (let* (news, st') := run_hits repl hits st in
       Ok (splice hits news tail, st')).
Proof.
  induction 1 as [adv Hm|adv s mt hits tail Hm _ IH
    |adv c s gap mt hits tail Hm _ IH|adv c s tail Hm _ IH];
    intros fuel st Hfuel;
    (destruct fuel as [|fuel];
       [exfalso; unfold rounds in Hfuel; destruct adv; lia|]);
    simpl; rewrite Hm.
  - done.
  - destruct (repl mt st) as [[new st1]|e]; simpl; [|done].
    rewrite IH by eauto using rounds_hit.
    destruct (run_hits repl hits st1) as [[news st2]|e]; simpl; [|done].
    unfold splice. simpl. by rewrite app_assoc.
  - rewrite IH by eauto using rounds_skip. simpl.
    destruct (repl mt st) as [[new st1]|e]; simpl; [|done].
    destruct (run_hits repl hits st1) as [[news st2]|e]; simpl; done.
  - rewrite IH by eauto using rounds_skip. done.
Qed.

Lemma sub_callable_occurrences {St : Type} fl r
    (repl : Match → St → result (list N * St)) s st :
  sub_callable fl r repl s st =
    (let* (news, st') := run_hits repl (occurrences fl r s).1 st in
     Ok (splice (occurrences fl r s).1 news (occurrences fl r s).2, st')).
Proof.
  unfold sub_callable. apply subx_Occ; [apply occurrences_Occ|].
  unfold rounds. lia.
Qed.

(** A substitution raises only if the replacement does, on a match. *)
Lemma subx_ok {St : Type} fl r (repl : Match → St → result (list N * St))
    (P : St → Prop) :
  (∀ s adv mt st, match_at fl r s adv = Some mt → P st →
     ∃ new st', repl mt st = Ok (new, st') ∧ P st') →
  ∀ fuel s adv st, P st →
    ∃ out st', subx fl r repl fuel s adv st = Ok (out, st') ∧ P st'.
Proof.
  intros Hrepl. induction fuel as [|fuel IH]; intros s adv st HP; simpl.
  { by exists s, st. }
  destruct (match_at fl r s adv) as [mt|] eqn:E.
  - destruct (Hrepl _ _ _ _ E HP) as (new & st1 & -> & HP1). simpl.
    destruct (IH (drop (length (m_span mt)) s)
                 (bool_decide (m_span mt = [])) st1 HP1)
      as (out & st2 & -> & HP2).
    simpl. by eexists _, _.
  - destruct s as [|c s]; [by eexists _, _|].
    destruct (IH s false st HP) as (out & st1 & -> & HP1).
    simpl. by eexists _, _.
Qed.

End scan_facts.

(** ** The change tracker *)

(** C3. [_determine_change_type] is a function of the two values alone:
    empty old and non-empty new is an addition, non-empty old and empty
    new a deletion, unequal non-empty values a modification, and equal
    values no change. *)
Theorem determine_change_type_cases :
  (∀ c s, _determine_change_type [] (c :: s) = u "addition")
  ∧ (∀ c s, _determine_change_type (c :: s) [] = u "deletion")
  ∧ (∀ old new, old ≠ [] → new ≠ [] → old ≠ new →
       _determine_change_type old new = u "modification")
  ∧ (∀ v, _determine_change_type v v = u "no_change").
Proof.
  split_and!.
  - done.
  - done.
  - intros [|c old] [|c' new] Hold Hnew Hne; try done.
    unfold _determine_change_type. simpl. by rewrite bool_decide_eq_true_2.
  - intros [|c v]; [done|].
    unfold _determine_change_type. simpl. by rewrite bool_decide_eq_false_2 by naive_solver.
Qed.

Lemma determine_change_type_cases_witness :
  _determine_change_type (u "OLD NAME") (u "LUNAR STAR 1") = u "modification".
Proof.
  apply (proj1 (proj2 (proj2 determine_change_type_cases)));
    vm_compute; discriminate.
Defined.

(** C4. On an empty change list [generate_summary] reports no change at
    all: a total of zero, no change type counted, no field, and the fixed
    sentence. *)
Theorem generate_summary_empty now :
  let s := generate_summary now [] in
  total_changes s = 0
  ∧ change_types s = ∅
  ∧ (∀ ty, count ty (change_types s) = 0)
  ∧ fields_modified s = ∅
  ∧ summary s = u "No changes were made to the document.".
Proof. done. Qed.

Lemma track_all_ids calls self :
  ch_id <$> track_all calls self
  = (ch_id <$> self) ++ seq (S (length self)) (length calls).
Proof.
  revert self. induction calls as [|c calls IH]; intros self; simpl.
  { by rewrite app_nil_r. }
  unfold track_all in *. simpl. rewrite IH.
  rewrite fmap_app, length_app, <- app_assoc. simpl.
  do 3 f_equal; lia.
Qed.

Lemma seq_strictly_increasing start len : StronglySorted lt (seq start len).
Proof.
  revert start. induction len as [|len IH]; intros start; simpl;
    constructor; [apply IH|].
  apply Forall_forall. intros x Hx%list_elem_of_In%in_seq. lia.
Qed.

(** C5. After any sequence of calls to [track_change] on a fresh tracker
    the ids in its log are 1, 2, ..., N in the order of the calls, so each
    is greater than all earlier ones. *)
Theorem track_change_ids calls :
  let log := track_all calls [] in
  length log = length calls
  ∧ ch_id <$> log = seq 1 (length calls)
  ∧ StronglySorted lt (ch_id <$> log).
Proof.
  simpl. pose proof (track_all_ids calls []) as Hids. simpl in Hids.
  split_and!.
  - by rewrite <- (length_fmap ch_id), Hids, length_seq.
  - done.
  - rewrite Hids. apply seq_strictly_increasing.
Qed.

Lemma type_keys_distinct :
  u "additions" ≠ u "modifications" ∧ u "additions" ≠ u "deletions"
  ∧ u "modifications" ≠ u "deletions".
Proof. split_and!; vm_compute; discriminate. Qed.

Lemma type_names_distinct :
  u "addition" ≠ u "modification" ∧ u "addition" ≠ u "deletion"
  ∧ u "modification" ≠ u "deletion".
Proof. split_and!; vm_compute; discriminate. Qed.

Lemma count_type_counts a m d :
  count (u "additions") (type_counts a m d) = a
  ∧ count (u "modifications") (type_counts a m d) = m
  ∧ count (u "deletions") (type_counts a m d) = d.
Proof.
  destruct type_keys_distinct as (H1 & H2 & H3).
  unfold count, type_counts. split_and!.
  - rewrite lookup_insert_ne, lookup_insert_ne, lookup_insert_eq; done.
  - rewrite lookup_insert_ne, lookup_insert_eq; done.
  - by rewrite lookup_insert_eq.
Qed.

Lemma incr_type_counts a m d :
  incr (u "additions") (type_counts a m d) = type_counts (a + 1) m d
  ∧ incr (u "modifications") (type_counts a m d) = type_counts a (m + 1) d
  ∧ incr (u "deletions") (type_counts a m d) = type_counts a m (d + 1).
Proof.
  destruct type_keys_distinct as (H1 & H2 & H3).
  destruct (count_type_counts a m d) as (Ha & Hm & Hd).
  unfold incr. fold (count (u "additions") (type_counts a m d)).
  fold (count (u "modifications") (type_counts a m d)).
  fold (count (u "deletions") (type_counts a m d)).
  rewrite Ha, Hm, Hd. unfold type_counts. split_and!.
  - rewrite (insert_insert_ne _ (u "additions") (u "deletions")) by done.
    rewrite (insert_insert_ne _ (u "additions") (u "modifications")) by done.
    by rewrite insert_insert_eq.
  - rewrite (insert_insert_ne _ (u "modifications") (u "deletions")) by done.
    by rewrite insert_insert_eq.
  - by rewrite insert_insert_eq.
Qed.

Lemma occurrences_of_type_cons ty c l :
  occurrences_of_type ty (c :: l)
  = (if bool_decide (ch_change_type c = ty) then 1 else 0)
    + occurrences_of_type ty l.
Proof.
  unfold occurrences_of_type. rewrite filter_cons.
  case_decide; case_bool_decide; done.
Qed.

Lemma foldl_tally l a m d fields :
  ∃ fields',
    foldl tally (type_counts a m d, fields) l
    = (type_counts (a + occurrences_of_type (u "addition") l)
         (m + occurrences_of_type (u "modification") l)
         (d + occurrences_of_type (u "deletion") l), fields').
Proof.
  revert a m d fields. induction l as [|c l IH]; intros a m d fields.
  { exists fields. simpl. unfold occurrences_of_type. simpl.
    by rewrite !Nat.add_0_r. }
  destruct type_names_distinct as (H1 & H2 & H3).
  destruct (incr_type_counts a m d) as (Ha & Hm & Hd).
  change (foldl tally (type_counts a m d, fields) (c :: l))
    with (foldl tally (tally (type_counts a m d, fields) c) l).
  unfold tally at 2. rewrite !occurrences_of_type_cons.
  repeat case_bool_decide; try congruence;
    rewrite ?Ha, ?Hm, ?Hd;
    edestruct IH as [fields' ->]; exists fields'; do 2 f_equal; lia.
Qed.

Lemma narrative_parts a m d :
  (let parts1 :=
     if 0 <? a then [str_of_nat a ++ u " addition(s)"] else [] in
   let parts2 :=
     if 0 <? m then parts1 ++ [str_of_nat m ++ u " modification(s)"]
     else parts1 in
   if 0 <? d then parts2 ++ [str_of_nat d ++ u " deletion(s)"] else parts2)
  = map (λ p, str_of_nat p.1 ++ p.2)
      (filter (λ p, 0 < p.1)
         [(a, u " addition(s)"); (m, u " modification(s)");
          (d, u " deletion(s)")]).
Proof.
  rewrite !filter_cons, filter_nil. simpl.
  destruct (Nat.ltb_spec 0 a), (Nat.ltb_spec 0 m), (Nat.ltb_spec 0 d);
    repeat case_decide; try lia; done.
Qed.

Lemma generate_summary_nonempty now c l :
  let s := generate_summary now (c :: l) in
  let a := occurrences_of_type (u "addition") (c :: l) in
  let m := occurrences_of_type (u "modification") (c :: l) in
  let d := occurrences_of_type (u "deletion") (c :: l) in
  total_changes s = length (c :: l)
  ∧ change_types s = type_counts a m d
  ∧ summary s = narrative a m d.
Proof.
  intros s a m d. unfold s, generate_summary.
  change (<[u "deletions":=0]> _) with (type_counts 0 0 0).
  destruct (foldl_tally (c :: l) 0 0 0 ∅) as [fields' ->].
  rewrite !Nat.add_0_l. fold a m d. cbv beta iota zeta.
  destruct (count_type_counts a m d) as (-> & -> & ->).
  unfold total_changes, change_types, summary.
  split_and!; [done..|].
  unfold narrative. by rewrite <- narrative_parts.
Qed.

Lemma occurrences_of_type_perm ty l tys :
  ch_change_type <$> l ≡ₚ tys →
  occurrences_of_type ty l = length (filter (λ t, t = ty) tys).
Proof.
  intros Hp. rewrite <- Hp. clear Hp. unfold occurrences_of_type.
  induction l as [|c l IH]; [done|].
  rewrite fmap_cons, !filter_cons. repeat case_decide; simpl; congruence.
Qed.

(** C6. On a non-empty change list [generate_summary] reports the length
    of the list as the total, the number of additions, modifications and
    deletions, and a sentence that lists the counts that are not zero, in
    that order, separated by commas; a log of two additions and one
    modification gives a total of 3 and the sentence with
    [2 addition(s), 1 modification(s)]. *)
Theorem generate_summary_counts now changes :
  changes ≠ [] →
  let s := generate_summary now changes in
  let a := occurrences_of_type (u "addition") changes in
  let m := occurrences_of_type (u "modification") changes in
  let d := occurrences_of_type (u "deletion") changes in
  total_changes s = length changes
  ∧ change_types s = type_counts a m d
  ∧ summary s = narrative a m d
  ∧ (ch_change_type <$> changes
       ≡ₚ [u "addition"; u "addition"; u "modification"] →
     total_changes s = 3
     ∧ summary s
       = u "Document successfully merged with 2 addition(s), 1 modification(s).").
Proof.
  intros Hne. destruct changes as [|c l]; [done|].
  intros s a m d.
  destruct (generate_summary_nonempty now c l) as (Htot & Hty & Hsum).
  fold s a m d in Htot, Hty, Hsum.
  split_and!; [done..|].
  intros Hp. split.
  - rewrite Htot, <- (length_fmap ch_change_type), Hp. done.
  - rewrite Hsum. unfold a, m, d.
    rewrite !(occurrences_of_type_perm _ _ _ Hp). by vm_compute.
Qed.

Lemma generate_summary_counts_witness :
  let log :=
    track_all
      [ {| c_now := u "t1"; c_field := u "trading_exclusions";
           c_old_value := []; c_new_value := u "x"; c_description := u "a" |};
        {| c_now := u "t2"; c_field := u "vessel_name";
           c_old_value := u "OLD"; c_new_value := u "NEW";
           c_description := u "b" |};
        {| c_now := u "t3"; c_field := u "dry_docking";
           c_old_value := []; c_new_value := u "y"; c_description := u "c" |} ]
      [] in
  total_changes (generate_summary (u "t4") log) = 3
  ∧ summary (generate_summary (u "t4") log)
    = u "Document successfully merged with 2 addition(s), 1 modification(s).".
Proof.
  intros log.
  apply (generate_summary_counts (u "t4") log); [by vm_compute|].
  vm_compute. apply perm_skip, perm_swap.
Defined.

(** ** The rule loop of [merge_documents] *)

Section merge_facts.
Context {uni : Unicode} (clock : nat → list N).
Implicit Types (st : mstate) (rl : rule) (hits : list (list N * Match)).

Lemma extend_nil st : extend st [] = st.
Proof.
  destruct st. unfold extend. simpl. by rewrite !app_nil_r, Nat.add_0_r.
Qed.

Lemma extend_extend st new1 new2 :
  extend (extend st new1) new2 = extend st (new1 ++ new2).
Proof.
  unfold extend. simpl. rewrite <- !app_assoc, length_app. f_equal. lia.
Qed.

Lemma track_extend fld old_text new_text descr st :
  track clock fld old_text new_text descr st
  = extend st [ {| ch_id := length (tracker st) + 1;
                   ch_field := fld;
                   ch_old_value := old_text;
                   ch_new_value := new_text;
                   ch_description := descr;
                   ch_timestamp := clock (ticks st);
                   ch_change_type :=
                     _determine_change_type old_text new_text |} ].
Proof. unfold track, extend. simpl. f_equal. lia. Qed.

Lemma length_logged rl len tick hits news :
  length hits = length news →
  length (logged clock rl len tick hits news) = length hits.
Proof.
  revert len tick news. induction hits as [|[gap mt] hits IH];
    intros len tick [|new news] Hlen; simpl in *; try done.
  f_equal. apply IH. lia.
Qed.

Lemma run_hits_replace_func rl f hits news st :
  Forall2 (λ hit new, f hit.2 = Ok new) hits news →
  run_hits (replace_func clock rl f) hits st
  = Ok (news,
        extend st (logged clock rl (length (tracker st)) (ticks st) hits news)).
Proof.
  intros Hall. revert st.
  induction Hall as [|[gap mt] new hits news Hf _ IH]; intros st; simpl.
  { by rewrite extend_nil. }
  simpl in Hf. unfold replace_func at 1. rewrite Hf. simpl.
  rewrite IH. simpl. rewrite track_extend, extend_extend. simpl.
  rewrite length_app. simpl. by rewrite Nat.add_1_r.
Qed.

Lemma Forall_exists_Forall2 {A B} (P : A → B → Prop) (l : list A) :
  Forall (λ x, ∃ y, P x y) l → ∃ k, Forall2 P l k.
Proof.
  induction 1 as [|x l [y Hy] _ [k Hk]].
  - by exists [].
  - exists (y :: k). by constructor.
Qed.

(** The three function replacements of the catalogue return a string on
    every match of their pattern: the groups they read always take
    part. *)
Lemma catalogue_callable_ok rl f s adv mt :
  rl ∈ merge_rules → repl rl = Some (Callable f) →
  match_at merge_flags (pattern rl) s adv = Some mt →
  ∃ new, f mt = Ok new.
Proof.
  unfold merge_rules. intros Hin Hf Hm.
  apply match_at_inv in Hm as (_ & _ & Hn & Hg).
  repeat (apply elem_of_cons in Hin as [->|Hin]);
    [..|by apply elem_of_nil in Hin]; simpl in *; simplify_eq.
  - destruct (Hg 1 eq_refl) as [g1 Hg1], (Hg 3 eq_refl) as [g3 Hg3],
      (Hg 4 eq_refl) as [g4 Hg4].
    unfold charter_date_repl, group. rewrite Hn, Hg1, Hg3, Hg4.
    by eexists.
  - destruct (Hg 1 eq_refl) as [g1 Hg1], (Hg 3 eq_refl) as [g3 Hg3].
    unfold vessel_name_repl, group. rewrite Hn, Hg1, Hg3.
    by eexists.
  - by eexists.
Qed.

(** A catalogue rule whose replacement is a function visits the
    occurrences of its pattern in order; none of them makes the function
    raise. *)
Lemma callable_rule_run rl f text st :
  rl ∈ merge_rules → repl rl = Some (Callable f) →
  ∃ news,
    Forall2 (λ hit new, f hit.2 = Ok new)
      (occurrences merge_flags (pattern rl) text).1 news
    ∧ apply_rule clock rl text st
      = Ok (splice (occurrences merge_flags (pattern rl) text).1 news
              (occurrences merge_flags (pattern rl) text).2,
            extend st
              (logged clock rl (length (tracker st)) (ticks st)
                 (occurrences merge_flags (pattern rl) text).1 news)).
Proof.
  intros Hin Hf.
  pose proof (occurrences_Occ merge_flags (pattern rl) text) as Hocc.
  destruct (Forall_exists_Forall2 (λ hit new, f hit.2 = Ok new)
              (occurrences merge_flags (pattern rl) text).1)
    as [news Hnews].
  { eapply Forall_impl; [by eapply Occ_matches|].
    intros hit (s & adv & Hm). by eapply catalogue_callable_ok. }
  exists news. split; [done|].
  unfold apply_rule. rewrite Hf, sub_callable_occurrences.
  by rewrite (run_hits_replace_func _ _ _ news).
Qed.

(** C7. A catalogue rule whose replacement is a function replaces every
    occurrence of its pattern in the current text: the text is cut into
    the successive non-overlapping matches and the gaps between them,
    each match gives way to what the function computes from it, and for
    each, in order, one record is logged with the rule's field and
    description, the matched text as old value and the computed text as
    new value. *)
Theorem callable_rule_replaces_all rl f text st :
  rl ∈ merge_rules → repl rl = Some (Callable f) →
  let hits := (occurrences merge_flags (pattern rl) text).1 in
  let tail := (occurrences merge_flags (pattern rl) text).2 in
  Occ merge_flags (pattern rl) false text hits tail
  ∧ original hits tail = text
  ∧ ∃ news,
      Forall2 (λ hit new, f hit.2 = Ok new) hits news
      ∧ apply_rule clock rl text st
        = Ok (splice hits news tail,
              extend st
                (logged clock rl (length (tracker st)) (ticks st) hits news)).
Proof.
  intros Hin Hf hits tail.
  pose proof (occurrences_Occ merge_flags (pattern rl) text) as Hocc.
  fold hits tail in Hocc.
  split; [done|]. split; [by eapply Occ_original|].
  by apply callable_rule_run.
Qed.

End merge_facts.

(** ** Replacement templates and the rules with a fixed replacement *)

Section template_facts.
Context {uni : Unicode}.

(** A template without a backslash stands for itself. *)
Lemma parse_template_plain n t :
  forallb (λ c, negb (c =? 92)%N) t = true →
  parse_template n TNormal t = Ok (TLit <$> t).
Proof.
  induction t as [|c t IH]; simpl; intros Hplain; [done|].
  apply andb_true_iff in Hplain as [Hc Ht].
  rewrite Hc. unfold addlit. by rewrite IH.
Qed.

Lemma expand_template_lits t mt : expand_template (TLit <$> t) mt = t.
Proof.
  unfold expand_template. induction t as [|c t IH]; [done|].
  rewrite fmap_cons. simpl. f_equal. exact IH.
Qed.

Lemma run_hits_pure (g : Match → list N) hits :
  run_hits (λ mt (_ : ()), Ok (g mt, ())) hits ()
  = Ok ((λ hit, g hit.2) <$> hits, ()).
Proof.
  induction hits as [|[gap mt] hits IH]; simpl; [done|]. by rewrite IH.
Qed.

(** With a well-formed template, [re.sub] rewrites every occurrence. *)
Lemma sub_template_occurrences fl r template items s :
  parse_template (ngroups r) TNormal template = Ok items →
  sub_template fl r template s
  = Ok (splice (occurrences fl r s).1
          ((λ hit, expand_template items hit.2) <$> (occurrences fl r s).1)
          (occurrences fl r s).2).
Proof.
  intros Hparse. unfold sub_template. rewrite Hparse. simpl.
  by rewrite sub_callable_occurrences, run_hits_pure.
Qed.

(** With a malformed one it raises, whatever the text. *)
Lemma sub_template_raise fl r template s e :
  parse_template (ngroups r) TNormal template = Raise e →
  sub_template fl r template s = Raise e.
Proof. intros Hparse. unfold sub_template. by rewrite Hparse. Qed.

Lemma sub_template_cases fl r template s :
  match parse_template (ngroups r) TNormal template with
  | Ok _ => ∃ out, sub_template fl r template s = Ok out
  | Raise e => sub_template fl r template s = Raise e
  end.
Proof.
  destruct (parse_template _ _ _) as [items|e] eqn:E.
  - rewrite (sub_template_occurrences _ _ _ items) by done. by eexists.
  - by apply sub_template_raise.
Qed.

Lemma catalogue_fixed_plain rl new_text :
  rl ∈ merge_rules → repl rl = Some (Fixed new_text) →
  forallb (λ c, negb (c =? 92)%N) new_text = true.
Proof.
  unfold merge_rules. intros Hin Hf.
  repeat (apply elem_of_cons in Hin as [->|Hin]);
    [..|by apply elem_of_nil in Hin]; simpl in *; by simplify_eq.
Qed.

End template_facts.

Section rule_facts.
Context {uni : Unicode} (clock : nat → list N).
Implicit Types (st : mstate) (rl : rule).

(** What a catalogue rule with a fixed replacement does: if the pattern
    occurs, one record is logged, for the first occurrence, and every
    occurrence is rewritten. *)
Lemma fixed_rule_rewrites rl new_text text st :
  rl ∈ merge_rules → repl rl = Some (Fixed new_text) →
  apply_rule clock rl text st =
    match search merge_flags (pattern rl) text with
    | Some (_, mt) =>
        Ok (splice (occurrences merge_flags (pattern rl) text).1
              ((λ _, new_text) <$> (occurrences merge_flags (pattern rl) text).1)
              (occurrences merge_flags (pattern rl) text).2,
            extend st [ {| ch_id := length (tracker st) + 1;
                           ch_field := field rl;
                           ch_old_value := m_span mt;
                           ch_new_value := new_text;
                           ch_description := description rl;
                           ch_timestamp := clock (ticks st);
                           ch_change_type :=
                             _determine_change_type (m_span mt) new_text |} ])
    | None => Ok (text, st)
    end.
Proof.
  intros Hin Hf. unfold apply_rule. rewrite Hf.
  destruct (search _ _ _) as [[skipped mt]|]; [|done].
  rewrite (sub_template_occurrences _ _ _ (TLit <$> new_text))
    by (apply parse_template_plain; by eapply catalogue_fixed_plain).
  simpl. rewrite track_extend. do 3 f_equal.
  apply list_fmap_ext. intros ???. apply expand_template_lits.
Qed.

Lemma logged_fields rl len tick hits news :
  Forall (λ c, ch_field c = field rl) (logged clock rl len tick hits news).
Proof.
  revert len tick news. induction hits as [|[gap mt] hits IH];
    intros len tick [|new news]; simpl; try constructor; [done|apply IH].
Qed.

(** No catalogue rule raises, and the records a rule logs bear its
    field. *)
Lemma apply_rule_catalogue rl text st :
  rl ∈ merge_rules →
  ∃ text' new,
    apply_rule clock rl text st = Ok (text', extend st new)
    ∧ Forall (λ c, ch_field c = field rl) new.
Proof.
  intros Hin. destruct (repl rl) as [[f|new_text]|] eqn:Hf.
  - destruct (callable_rule_run clock rl f text st Hin Hf)
      as (news & _ & ->).
    eexists _, _. split; [done|]. apply logged_fields.
  - rewrite (fixed_rule_rewrites rl new_text) by done.
    destruct (search _ _ _) as [[skipped mt]|].
    + eexists _, _. split; [done|]. by repeat constructor.
    + exists text, []. by rewrite extend_nil.
  - exists text, []. unfold apply_rule. by rewrite Hf, extend_nil.
Qed.

Lemma apply_rules_catalogue rules text st :
  Forall (λ rl, rl ∈ merge_rules) rules →
  ∃ text' new,
    apply_rules clock rules text st = Ok (text', extend st new)
    ∧ Forall (λ c, ∃ rl, rl ∈ rules ∧ ch_field c = field rl) new.
Proof.
  intros Hall. revert text st.
  induction Hall as [|rl rules Hin _ IH]; intros text st; simpl.
  { exists text, []. by rewrite extend_nil. }
  destruct (apply_rule_catalogue rl text st Hin) as (text1 & new1 & -> & H1).
  simpl. destruct (IH text1 (extend st new1)) as (text2 & new2 & -> & H2).
  exists text2, (new1 ++ new2). rewrite extend_extend. split; [done|].
  apply Forall_app. split.
  - eapply Forall_impl; [done|]. intros c Hc. exists rl.
    split; [apply elem_of_cons; by left|done].
  - eapply Forall_impl; [done|]. intros c (rl' & Hrl' & Hc). exists rl'.
    split; [apply elem_of_cons; by right|done].
Qed.

Lemma merge_rules_run text st :
  ∃ text' new,
    apply_rules clock merge_rules text st = Ok (text', extend st new)
    ∧ Forall (λ c, ∃ rl, rl ∈ merge_rules ∧ ch_field c = field rl) new.
Proof. apply apply_rules_catalogue. by apply Forall_forall. Qed.

(** The template of the trading-exclusions insertion: group 1, then the
    block. *)
Lemma exclusion_template_parse block :
  parse_template (ngroups exclusion_pattern) TNormal (u "\1" ++ nl :: block)
  = (let* items := parse_template 1 TNormal (nl :: block) in
     Ok (TGroup 1 :: items)).
Proof. done. Qed.

(** The insertion step: skipped without the field or without the anchor;
    otherwise it raises exactly when the block is not a well-formed
    template, and logs one addition when it is. *)
Lemma add_trading_exclusions_cases recap_data text st :
  match add_trading_exclusions clock recap_data text st with
  | Ok (text', st') =>
      (text' = text ∧ st' = st
       ∧ (recap_data !! u "trading_exclusions" = None
          ∨ search no_flags exclusion_pattern text = None))
      ∨ (∃ v c, recap_data !! u "trading_exclusions" = Some v
           ∧ st' = extend st [c]
           ∧ ch_field c = u "trading_exclusions"
           ∧ ch_old_value c = [])
  | Raise e =>
      ∃ v, recap_data !! u "trading_exclusions" = Some v
        ∧ is_Some (search no_flags exclusion_pattern text)
        ∧ parse_template 1 TNormal
            (u "\1" ++ [nl; nl] ++ u "TRADING EXCLUSIONS:" ++ [nl] ++ fmt v
             ++ [nl]) = Raise e
  end.
Proof.
  unfold add_trading_exclusions.
  destruct (recap_data !! u "trading_exclusions") as [v|] eqn:Hv;
    [|left; by eauto].
  destruct (search no_flags exclusion_pattern text) as [found|] eqn:Hs;
    [|left; by eauto].
  pose proof (sub_template_cases no_flags exclusion_pattern
    (u "\1" ++ [nl; nl] ++ u "TRADING EXCLUSIONS:" ++ [nl] ++ fmt v ++ [nl])
    text) as Hsub.
  change (ngroups exclusion_pattern) with 1 in Hsub.
  destruct (parse_template 1 TNormal _) as [items|e] eqn:Hp.
  - destruct Hsub as [out ->]. simpl. right. rewrite track_extend.
    by eexists _, _.
  - rewrite Hsub. cbn [bind]. exists v. split; [done|]. split; [by eexists|].
    exact Hp.
Qed.

End rule_facts.

(** ** [merge_documents] as a whole *)

Section merge_documents_facts.
Context {uni : Unicode}.
Implicit Types (st : mstate) (rl : rule) (clock : nat → list N).

Lemma rule_fields_not_exclusions rl :
  rl ∈ merge_rules → field rl ≠ u "trading_exclusions".
Proof.
  unfold merge_rules. intros Hin.
  repeat (apply elem_of_cons in Hin as [->|Hin]);
    [..|by apply elem_of_nil in Hin]; vm_compute; discriminate.
Qed.

(** Whenever [merge_documents] returns, the dry-docking clause has been
    appended and logged last, as an addition with an empty old value; so
    the list returned is not empty and the text ends with the summary
    block in its listing form, whose first line is the first change.  It
    returns unless a trading-exclusions text that is not a well-formed
    replacement template makes the insertion step raise. *)
Lemma merge_documents_logs_dry_docking clock base fm tr :
  match merge_documents clock base fm tr with
  | Ok (text, st) =>
      ∃ body prior ts c l,
        changes st
        = prior ++ [ {| ch_id := length tr + length prior + 1;
                        ch_field := u "dry_docking";
                        ch_old_value := [];
                        ch_new_value := dd_clause;
                        ch_description := u "Added dry-docking clause";
                        ch_timestamp := ts;
                        ch_change_type := u "addition" |} ]
        ∧ tracker st = tr ++ changes st
        ∧ changes st = c :: l
        ∧ text = body ++ dd_clause ++ summary_section (changes st)
        ∧ summary_section (changes st)
          = [nl; nl] ++ u "=== SUMMARY OF CHANGES ===" ++ [nl]
            ++ u "The following modifications were made to the base Charter Party:"
            ++ [nl; nl]
            ++ (u "1. " ++ ch_description c ++ [nl] ++ summary_lines 2 l)
            ++ [nl] ++ u "=== END SUMMARY ===" ++ [nl]
  | Raise e =>
      ∃ v, fm !! u "trading_exclusions" = Some v
        ∧ parse_template 1 TNormal
            (u "\1" ++ [nl; nl] ++ u "TRADING EXCLUSIONS:" ++ [nl] ++ fmt v
             ++ [nl]) = Raise e
  end.
Proof.
  unfold merge_documents.
  destruct (merge_rules_run clock base
              {| changes := []; tracker := tr; ticks := 0 |})
    as (text1 & new1 & -> & _).
  cbn [bind].
  pose proof (add_trading_exclusions_cases clock fm text1
    (extend {| changes := []; tracker := tr; ticks := 0 |} new1)) as Hte.
  destruct (add_trading_exclusions _ _ _ _) as [[text2 st2]|e]; cbn [bind];
    [|destruct Hte as (v & Hv & _ & Hp); exists v; by split].
  assert (∃ new2, st2
            = extend {| changes := []; tracker := tr; ticks := 0 |} new2)
    as [new2 ->].
  { destruct Hte as [(_ & -> & _)|(v & c & _ & -> & _)].
    - by exists new1.
    - exists (new1 ++ [c]). by rewrite extend_extend. }
  rewrite track_extend. cbn [extend changes tracker ticks app length].
  assert (∃ c l,
    new2 ++ [ {| ch_id := length (tr ++ new2) + 1;
                 ch_field := u "dry_docking";
                 ch_old_value := [];
                 ch_new_value := dd_clause;
                 ch_description := u "Added dry-docking clause";
                 ch_timestamp := clock (0 + length new2);
                 ch_change_type := _determine_change_type [] dd_clause |} ]
    = c :: l) as (c & l & Hcl).
  { destruct new2; by eexists _, _. }
  exists text2, new2, (clock (0 + length new2)), c, l.
  split_and!.
  - rewrite length_app. reflexivity.
  - by rewrite app_assoc.
  - exact Hcl.
  - by rewrite <- app_assoc.
  - rewrite Hcl. reflexivity.
Qed.

(** [merge_documents] returns whenever the FieldMap has no trading
    exclusions. *)
Lemma merge_documents_returns clock base fm tr :
  fm !! u "trading_exclusions" = None →
  ∃ text st, merge_documents clock base fm tr = Ok (text, st).
Proof.
  intros Hnone. unfold merge_documents, add_trading_exclusions.
  rewrite Hnone.
  destruct (merge_rules_run clock base
              {| changes := []; tracker := tr; ticks := 0 |})
    as (text1 & new1 & -> & _).
  cbn [bind]. by eexists _, _.
Qed.

(** C2, as the code has it.  An absent field never makes
    [merge_documents] raise: without trading exclusions it returns, and
    removing any other field changes nothing at all.  The absence of the
    trading exclusions skips their insertion (the result is that for a
    FieldMap without any field, and no record bears that field); the
    catalogue rules do not look at the FieldMap. *)
Theorem merge_documents_absent_fields clock base fm tr :
  (∀ key, key ≠ u "trading_exclusions" →
     merge_documents clock base (delete key fm) tr
     = merge_documents clock base fm tr)
  ∧ (fm !! u "trading_exclusions" = None →
     ∃ text st,
       merge_documents clock base fm tr = Ok (text, st)
       ∧ merge_documents clock base ∅ tr = Ok (text, st)
       ∧ Forall (λ c, ch_field c ≠ u "trading_exclusions") (changes st)).
Proof.
  split.
  - intros key Hkey. unfold merge_documents, add_trading_exclusions.
    by rewrite lookup_delete_ne.
  - intros Hnone. unfold merge_documents, add_trading_exclusions.
    rewrite Hnone, lookup_empty.
    destruct (merge_rules_run clock base
                {| changes := []; tracker := tr; ticks := 0 |})
      as (text1 & new1 & -> & Hfields).
    simpl. eexists _, _. split; [done|]. split; [done|].
    rewrite track_extend. simpl. apply Forall_app. split.
    + eapply Forall_impl; [done|]. intros c (rl & Hin & ->).
      by apply rule_fields_not_exclusions.
    + repeat constructor. vm_compute. discriminate.
Qed.

(** *** Independence from the clock *)

Lemma untimed_track clock fld old_text new_text descr st :
  untimed_state (track clock fld old_text new_text descr st)
  = track (λ _, []) fld old_text new_text descr (untimed_state st).
Proof.
  unfold track, untimed_state. simpl.
  by rewrite !fmap_app, length_fmap.
Qed.

Lemma subx_fusion {St1 St2 : Type} (h : St1 → St2) fl r
    (repl1 : Match → St1 → result (list N * St1))
    (repl2 : Match → St2 → result (list N * St2)) :
  (∀ mt w,
     match repl1 mt w with
     | Ok (new, w') => repl2 mt (h w) = Ok (new, h w')
     | Raise e => repl2 mt (h w) = Raise e
     end) →
  ∀ fuel s adv w,
    match subx fl r repl1 fuel s adv w with
    | Ok (out, w') => subx fl r repl2 fuel s adv (h w) = Ok (out, h w')
    | Raise e => subx fl r repl2 fuel s adv (h w) = Raise e
    end.
Proof.
  intros Hrepl. induction fuel as [|fuel IH]; intros s adv w; simpl; [done|].
  destruct (match_at fl r s adv) as [mt|].
  - specialize (Hrepl mt w).
    destruct (repl1 mt w) as [[new w1]|e]; rewrite Hrepl; simpl; [|done].
    specialize (IH (drop (length (m_span mt)) s)
                   (bool_decide (m_span mt = [])) w1).
    destruct (subx fl r repl1 fuel _ _ w1) as [[out w2]|e]; rewrite IH; done.
  - destruct s as [|c s]; [done|].
    specialize (IH s false w).
    destruct (subx fl r repl1 fuel s false w) as [[out w1]|e];
      rewrite IH; done.
Qed.

Lemma untimed_apply_rule clock rl text st :
  untimed_result (apply_rule clock rl text st)
  = apply_rule (λ _, []) rl text (untimed_state st).
Proof.
  unfold apply_rule. destruct (repl rl) as [[f|new_text]|]; [| |done].
  - unfold sub_callable.
    pose proof (subx_fusion untimed_state merge_flags (pattern rl)
      (replace_func clock rl f) (replace_func (λ _, []) rl f)) as Hfus.
    specialize (Hfus ltac:(intros mt st0; unfold replace_func;
      destruct (f mt); simpl; by rewrite ?untimed_track)
      (2 * length text + 2) text false st).
    destruct (subx _ _ (replace_func clock rl f) _ _ _ _) as [[out st']|e];
      by rewrite Hfus.
  - destruct (search _ _ _) as [[skipped mt]|]; [|done].
    destruct (sub_template _ _ _ _); simpl; [|done].
    by rewrite untimed_track.
Qed.

Lemma untimed_apply_rules clock rules text st :
  untimed_result (apply_rules clock rules text st)
  = apply_rules (λ _, []) rules text (untimed_state st).
Proof.
  revert text st. induction rules as [|rl rules IH]; intros text st; simpl;
    [done|].
  rewrite <- (untimed_apply_rule clock).
  destruct (apply_rule clock rl text st) as [[text' st']|e]; simpl; [|done].
  apply IH.
Qed.

Lemma untimed_add_trading_exclusions clock fm text st :
  untimed_result (add_trading_exclusions clock fm text st)
  = add_trading_exclusions (λ _, []) fm text (untimed_state st).
Proof.
  unfold add_trading_exclusions.
  destruct (fm !! _); [|done]. destruct (search _ _ _); [|done].
  destruct (sub_template _ _ _ _); simpl; [|done].
  by rewrite untimed_track.
Qed.

Lemma summary_lines_untimed i l :
  summary_lines i (untimed <$> l) = summary_lines i l.
Proof.
  revert i. induction l as [|c l IH]; intros i; simpl; [done|].
  by rewrite IH.
Qed.

Lemma summary_section_untimed l :
  summary_section (untimed <$> l) = summary_section l.
Proof.
  unfold summary_section. destruct l as [|c l]; [done|].
  rewrite fmap_cons. cbv beta iota. by rewrite <- fmap_cons, summary_lines_untimed.
Qed.

(** A merge under any clock is the merge under a clock that always reads
    the empty string, up to the timestamps. *)
Lemma untimed_merge_documents clock base fm tr :
  untimed_result (merge_documents clock base fm tr)
  = merge_documents (λ _, []) base fm (untimed <$> tr).
Proof.
  unfold merge_documents.
  change {| changes := []; tracker := untimed <$> tr; ticks := 0 |}
    with (untimed_state {| changes := []; tracker := tr; ticks := 0 |}).
  rewrite <- (untimed_apply_rules clock).
  destruct (apply_rules clock merge_rules base _) as [[text1 st1]|e]; simpl;
    [|done].
  rewrite <- (untimed_add_trading_exclusions clock).
  destruct (add_trading_exclusions clock fm text1 st1) as [[text2 st2]|e];
    simpl; [|done].
  rewrite <- (untimed_track clock).
  do 3 f_equal.
  rewrite <- (summary_section_untimed (changes st2 ++ _)), fmap_app, length_fmap.
  reflexivity.
Qed.

(** C8. Two merges of the same base text and FieldMap, each with a fresh
    tracker, end alike whatever the clocks read: the same exception, or
    the same merged text and the same change list and tracker log apart
    from the timestamps. *)
Theorem merge_documents_deterministic clock1 clock2 base fm :
  untimed_result (merge_documents clock1 base fm [])
  = untimed_result (merge_documents clock2 base fm []).
Proof. by rewrite !untimed_merge_documents. Qed.

End merge_documents_facts.

(** ** The model run on concrete inputs *)

(** C1 fails on the code: a base text with the laycan placeholder twice.
    The rule has a fixed replacement; one record is logged, for the first
    occurrence, and yet both occurrences are rewritten. *)
Theorem laycan_rule_rewrites_both_occurrences :
  let sentence :=
    u "WOULD SUGGEST 1 (ONE) MONTH AFTER DIVER SURVEY TO BE CARRIED OUT IN YEOSU" in
  let logged_laycan :=
    {| ch_id := 1;
       ch_field := u "laycan";
       ch_old_value := sentence;
       ch_new_value := laycan_text;
       ch_description := u "Added laycan period";
       ch_timestamp := sample_clock 0;
       ch_change_type := u "modification" |} in
  let logged_dry_docking :=
    {| ch_id := 2;
       ch_field := u "dry_docking";
       ch_old_value := [];
       ch_new_value := dd_clause;
       ch_description := u "Added dry-docking clause";
       ch_timestamp := sample_clock 1;
       ch_change_type := u "addition" |} in
  merge_documents (uni := ascii_tables) sample_clock
    (sentence ++ u "; " ++ sentence) ∅ []
  = Ok (laycan_text ++ u "; " ++ laycan_text ++ dd_clause
        ++ summary_section [logged_laycan; logged_dry_docking],
        {| changes := [logged_laycan; logged_dry_docking];
           tracker := [logged_laycan; logged_dry_docking];
           ticks := 2 |}).
Proof. vm_compute. reflexivity. Qed.

(** C2 fails on the code as stated: the vessel-name rule names the recap
    field [vessel_name], the FieldMap is empty, and the rule is applied
    all the same. *)
Lemma absent_vessel_name_rule_applied :
  let base := u "Steamship/Motorship " ++ [dquote] ++ u "OLD NAME" ++ [dquote] in
  let logged_vessel_name :=
    {| ch_id := 1;
       ch_field := u "vessel_name";
       ch_old_value := base;
       ch_new_value :=
         u "Steamship/Motorship " ++ [dquote] ++ u "LUNAR STAR 1" ++ [dquote];
       ch_description := u "Updated vessel name";
       ch_timestamp := sample_clock 0;
       ch_change_type := u "modification" |} in
  let logged_dry_docking :=
    {| ch_id := 2;
       ch_field := u "dry_docking";
       ch_old_value := [];
       ch_new_value := dd_clause;
       ch_description := u "Added dry-docking clause";
       ch_timestamp := sample_clock 1;
       ch_change_type := u "addition" |} in
  vessel_name_rule ∈ merge_rules
  ∧ recap_field vessel_name_rule = Some (u "vessel_name")
  ∧ (∅ : gmap (list N) pyval) !! u "vessel_name" = None
  ∧ merge_documents (uni := ascii_tables) sample_clock base ∅ []
    = Ok (u "Steamship/Motorship " ++ [dquote] ++ u "LUNAR STAR 1" ++ [dquote]
          ++ dd_clause
          ++ summary_section [logged_vessel_name; logged_dry_docking],
          {| changes := [logged_vessel_name; logged_dry_docking];
             tracker := [logged_vessel_name; logged_dry_docking];
             ticks := 2 |}).
Proof.
  split_and!.
  - unfold merge_rules. apply elem_of_cons. right. apply elem_of_cons. by left.
  - done.
  - done.
  - vm_compute. reflexivity.
Qed.

Lemma merge_documents_absent_fields_witness :
  let base := u "Steamship/Motorship " ++ [dquote] ++ u "OLD NAME" ++ [dquote] in
  let fm : gmap (list N) pyval :=
    {[ u "vessel_name" := PStr (u "LUNAR STAR 1") ]} in
  ∃ text st,
    merge_documents (uni := ascii_tables) sample_clock base fm [] = Ok (text, st)
    ∧ merge_documents (uni := ascii_tables) sample_clock base ∅ []
      = Ok (text, st)
    ∧ Forall (λ c, ch_field c ≠ u "trading_exclusions") (changes st).
Proof.
  intros base fm.
  apply (proj2 (merge_documents_absent_fields (uni := ascii_tables)
                  sample_clock base fm [])).
  apply lookup_singleton_ne. vm_compute. discriminate.
Defined.

Lemma callable_rule_replaces_all_witness :
  let text :=
    u "Steamship/Motorship " ++ [dquote] ++ u "OLD NAME" ++ [dquote]
    ++ u " and steamship/motorship " ++ [dquote] ++ u "X" ++ [dquote] in
  let st := {| changes := []; tracker := []; ticks := 0 |} in
  let hits :=
    (occurrences (uni := ascii_tables) merge_flags
       (pattern vessel_name_rule) text).1 in
  let tail :=
    (occurrences (uni := ascii_tables) merge_flags
       (pattern vessel_name_rule) text).2 in
  Occ (uni := ascii_tables) merge_flags (pattern vessel_name_rule) false text
    hits tail
  ∧ original hits tail = text
  ∧ ∃ news,
      Forall2 (λ hit new, vessel_name_repl hit.2 = Ok new) hits news
      ∧ apply_rule (uni := ascii_tables) sample_clock vessel_name_rule text st
        = Ok (splice hits news tail,
              extend st
                (logged sample_clock vessel_name_rule (length (tracker st))
                   (ticks st) hits news)).
Proof.
  intros text st.
  apply (callable_rule_replaces_all (uni := ascii_tables) sample_clock
           vessel_name_rule vessel_name_repl text st).
  - unfold merge_rules. apply elem_of_cons. right. apply elem_of_cons. by left.
  - reflexivity.
Defined.

(** C10 fails on the code: the anchor sentence is in the base text and
    the trading exclusions of the FieldMap hold a backslash before a
    letter that is no escape.  The exclusions are handed to [re.sub] as
    part of a replacement template, which raises [re.error]; so
    [merge_documents] returns nothing: the dry-docking clause is not
    appended, no record is logged for it and no change list comes back. *)
Theorem merge_documents_bad_template :
  merge_documents (uni := ascii_tables) sample_clock
    (u "as the Charterers or their Agents shall direct, on the following conditions: 1.")
    {[ u "trading_exclusions" := PStr (u "N\A") ]} []
  = Raise ReError.
Proof. vm_compute. reflexivity. Qed.

(** ** Searching and matching literal text and greedy classes *)

Section search_facts.
Context {uni : Unicode}.
Implicit Types (s : list N) (g : caps) (k : kont) (r : regex).

Lemma search_inv fl r s skipped mt :
  search fl r s = Some (skipped, mt) →
  ∃ s', s = skipped ++ s' ∧ match_at fl r s' false = Some mt.
Proof.
  revert skipped. induction s as [|c s IH]; intros skipped; simpl.
  - destruct (match_at fl r [] false) eqn:E; [|done].
    intros [= <- <-]. by exists [].
  - destruct (match_at fl r (c :: s) false) eqn:E.
    + intros [= <- <-]. by exists (c :: s).
    + destruct (search fl r s) as [[p mt']|]; [|done].
      intros [= <- <-]. destruct (IH p eq_refl) as (s' & -> & Hm).
      by exists s'.
Qed.

Lemma search_None fl r s :
  (∀ i, match_at fl r (drop i s) false = None) → search fl r s = None.
Proof.
  induction s as [|c s IH]; intros Hno; simpl.
  - by rewrite (Hno 0 : match_at fl r [] false = None).
  - rewrite (Hno 0 : match_at fl r (c :: s) false = None).
    rewrite IH; [done|]. intros i. apply (Hno (S i)).
Qed.

(** The first place where the pattern matches is the one [re.search]
    returns. *)
Lemma search_first fl r skipped s mt :
  (∀ i, i < length skipped →
     match_at fl r (drop i (skipped ++ s)) false = None) →
  match_at fl r s false = Some mt →
  search fl r (skipped ++ s) = Some (skipped, mt).
Proof.
  intros Hno Hm. induction skipped as [|c skipped IH]; simpl.
  - destruct s; simpl; by rewrite Hm.
  - rewrite (Hno 0 ltac:(simpl; lia)
               : match_at fl r (c :: skipped ++ s) false = None).
    rewrite IH; [done|].
    intros i Hi. apply (Hno (S i)). simpl. lia.
Qed.

Lemma chr_eq_refl ic c : chr_eq ic c c = true.
Proof. unfold chr_eq. destruct ic; apply N.eqb_refl. Qed.

(** A literal matches itself. *)
Lemma m_literal fl cs rest g k :
  m fl (cat (Chr <$> cs)) (cs ++ rest) g k = k rest g.
Proof.
  induction cs as [|c cs IH]; simpl; [done|].
  by rewrite chr_eq_refl.
Qed.

Lemma rep_min_class fl neg items pre rest g k :
  Forall (λ x, cls_match (icase fl) neg items x = true) pre →
  rep_min (m fl (Cls neg items)) (length pre) (pre ++ rest) g k = k rest g.
Proof.
  induction 1 as [|x pre Hx _ IH]; simpl; [done|]. by rewrite Hx.
Qed.

(** A greedy loop over a character class takes as many characters of
    the class as the text offers, when what follows then matches. *)
Lemma rep_opt_greedy_class fl neg items pre rest fuel g k res :
  Forall (λ x, cls_match (icase fl) neg items x = true) pre →
  match rest with
  | [] => True
  | x :: _ => cls_match (icase fl) neg items x = false
  end →
  length (pre ++ rest) ≤ fuel →
  k rest g = Some res →
  rep_opt (m fl (Cls neg items)) true fuel None (pre ++ rest) g k = Some res.
Proof.
  intros Hpre Hrest Hfuel Hk. revert fuel Hfuel.
  induction Hpre as [|x pre Hx _ IH]; intros fuel Hfuel; simpl.
  - destruct fuel as [|fuel]; simpl; [done|].
    destruct rest as [|x rest]; [done|]. by rewrite Hrest.
  - destruct fuel as [|fuel]; simpl in *; [lia|].
    rewrite Hx.
    assert (length (pre ++ rest) <? S (length (pre ++ rest)) = true) as ->
      by (apply Nat.ltb_lt; lia).
    rewrite IH; [done|lia].
Qed.

Lemma m_greedy_class fl neg items lo pre1 pre2 rest g k res :
  length pre1 = lo →
  Forall (λ x, cls_match (icase fl) neg items x = true) (pre1 ++ pre2) →
  match rest with
  | [] => True
  | x :: _ => cls_match (icase fl) neg items x = false
  end →
  k rest g = Some res →
  m fl (Rep true lo None (Cls neg items)) (pre1 ++ pre2 ++ rest) g k
  = Some res.
Proof.
  intros <- [Hpre1 Hpre2]%Forall_app Hrest Hk.
  change (m fl (Rep true (length pre1) None (Cls neg items))
            (pre1 ++ pre2 ++ rest) g k)
    with (rep_min (m fl (Cls neg items)) (length pre1) (pre1 ++ pre2 ++ rest) g
            (λ s' g', rep_opt (m fl (Cls neg items)) true (length s') None
                        s' g' k)).
  rewrite rep_min_class by done. by apply rep_opt_greedy_class.
Qed.

Lemma digit_facts c :
  c ∈ [48; 49; 50; 51; 52; 53; 54; 55; 56; 57]%N →
  is_digit c = true ∧ is_space c = false.
Proof.
  pose proof digits_are_digits as Hd. pose proof digits_not_space as Hs.
  simpl in Hd, Hs.
  repeat (apply andb_true_iff in Hd as [? Hd]).
  repeat (apply orb_false_iff in Hs as [? Hs]).
  intros Hc. repeat (apply elem_of_cons in Hc as [->|Hc]);
    [..|by apply elem_of_nil in Hc]; done.
Qed.

Lemma cls_match_single ic it x :
  cls_match ic false [it] x = item_match ic it x.
Proof.
  unfold cls_match. simpl. rewrite orb_false_r. by destruct (item_match _ _ _).
Qed.

(** The IMO pattern at the head of [IMO 1234567], when no further digit
    follows. *)
Lemma imo_match_here post :
  match post with
  | [] => True
  | x :: _ => is_digit x = false
  end →
  match_at extract_flags x_imo_number (u "IMO 1234567" ++ post) false
  = Some {| m_span := u "IMO 1234567";
            m_caps := {[ 1 := u "1234567" ]};
            m_ngroups := 1 |}.
Proof.
  intros Hpost.
  assert (Hdigits : Forall (λ x, is_digit x = true ∧ is_space x = false)
                      (u "1234567")).
  { repeat constructor; apply digit_facts; set_solver. }
  unfold match_at.
  set (k0 := λ (s' : list N) (g : caps),
         if false && (length s' =? length (u "IMO 1234567" ++ post))
         then None else Some (s', g)).
  assert (Hm : m extract_flags x_imo_number (u "IMO 1234567" ++ post) ∅ k0
               = Some (post, {[ 1 := u "1234567" ]})).
  { change (m extract_flags x_imo_number (u "IMO 1234567" ++ post) ∅ k0)
      with (m extract_flags (cat (Chr <$> u "IMO"))
              (u "IMO" ++ u " 1234567" ++ post) ∅
              (λ s' g', m extract_flags
                          (Cat (plus ws) (Cat (Grp 1 (plus dg)) Eps))
                          s' g' k0)).
    rewrite m_literal.
    change (m extract_flags (Cat (plus ws) (Cat (Grp 1 (plus dg)) Eps))
              (u " 1234567" ++ post) ∅ k0)
      with (m extract_flags (Rep true 1 None (Cls false [CSpace]))
              ([32%N] ++ [] ++ (u "1234567" ++ post)) ∅
              (λ s' g', m extract_flags (Cat (Grp 1 (plus dg)) Eps)
                          s' g' k0)).
    apply m_greedy_class; [done| | |].
    { repeat constructor. rewrite cls_match_single. apply blank_is_space. }
    { change (cls_match (icase extract_flags) false [CSpace] 49 = false).
      rewrite cls_match_single. apply (digit_facts 49). set_solver. }
    change (m extract_flags (Cat (Grp 1 (plus dg)) Eps)
              (u "1234567" ++ post) ∅ k0)
      with (m extract_flags (Rep true 1 None (Cls false [CDigit]))
              ([49%N] ++ u "234567" ++ post) ∅
              (λ s' g', k0 s'
                 (<[1 := take (length (u "1234567" ++ post) - length s')
                           (u "1234567" ++ post)]> g'))).
    apply m_greedy_class; [done| | |].
    { eapply Forall_impl; [exact Hdigits|]. intros x [Hx _].
      by rewrite cls_match_single. }
    { destruct post as [|x post]; [done|]. by rewrite cls_match_single. }
    unfold k0. simpl. do 2 f_equal.
    replace (S (S (S (S (S (S (S (length post))))))) - length post) with 7
      by lia.
    done. }
  rewrite Hm. f_equal. f_equal.
  rewrite length_app. simpl.
  replace (S (S (S (S (S (S (S (S (S (S (S (length post)))))))))))
           - length post) with 11 by lia.
  done.
Qed.

End search_facts.

(** ** Field extraction *)

Section extraction_facts.
Context {uni : Unicode}.
Implicit Types (data : gmap (list N) pyval) (text key k : list N).

Lemma group_raise mt i e : group mt i = Raise e → e = IndexError.
Proof.
  unfold group. destruct i as [|i]; [done|].
  destruct (S i <=? m_ngroups mt); [done|]. by intros [= <-].
Qed.

Lemma group_first mt :
  0 < m_ngroups mt → group mt 1 = Ok (m_caps mt !! 1).
Proof.
  intros Hn. unfold group.
  by destruct (Nat.leb_spec 1 (m_ngroups mt)); [|lia].
Qed.

(** A match found by [re.search] for an entry whose first group is sure
    has that group. *)
Lemma search_first_group text key pat skipped mt :
  first_group_sure (key, pat) = true →
  search extract_flags pat text = Some (skipped, mt) →
  0 < m_ngroups mt → is_Some (m_caps mt !! 1).
Proof.
  intros Hsure (s' & _ & Hm)%search_inv Hpos.
  apply match_at_inv in Hm as (_ & _ & Hn & Hg).
  apply Hg. unfold first_group_sure in Hsure. simpl in Hsure.
  apply orb_true_iff in Hsure as [Hz%Nat.eqb_eq|Hs]; [lia|done].
Qed.

(** One round of the extraction loop returns, for an entry of that kind,
    and writes no key but the entry's own and the two bunker keys. *)
Lemma extract_entry_other text data key pat k :
  first_group_sure (key, pat) = true →
  k ≠ key → k ≠ u "vlsfo_quantity" → k ≠ u "mgo_quantity" →
  ∃ data', extract_entry text data (key, pat) = Ok data'
           ∧ data' !! k = data !! k.
Proof.
  intros Hsure Hk Hv Hm. unfold extract_entry.
  destruct (search extract_flags pat text) as [[skipped mt]|] eqn:Hs;
    [|by exists data].
  pose proof (search_first_group _ _ _ _ _ Hsure Hs) as Hg1.
  unfold store. repeat case_bool_decide.
  - destruct (group mt 1) as [g1|e1] eqn:E1;
      [|apply group_raise in E1 as ->]; cbn [bind].
    2: { eexists. split; [done|]. by rewrite lookup_insert_ne. }
    destruct (group mt 2) as [g2|e2] eqn:E2;
      [|apply group_raise in E2 as ->]; cbn [bind];
      eexists; (split; [done|]); by rewrite lookup_insert_ne.
  - destruct (group mt 1) as [g1|e1] eqn:E1;
      [|apply group_raise in E1 as ->]; cbn [bind].
    2: { eexists. split; [done|]. by rewrite lookup_insert_ne. }
    destruct (group mt 2) as [g2|e2] eqn:E2;
      [|apply group_raise in E2 as ->]; cbn [bind].
    2: { eexists. split; [done|]. by rewrite lookup_insert_ne. }
    destruct (group mt 3) as [g3|e3] eqn:E3;
      [|apply group_raise in E3 as ->]; cbn [bind];
      eexists; (split; [done|]); by rewrite lookup_insert_ne.
  - destruct (group mt 1) as [g1|e1] eqn:E1;
      [|apply group_raise in E1 as ->].
    2: { eexists. split; [done|]. by rewrite lookup_insert_ne. }
    destruct (group mt 2) as [g2|e2] eqn:E2;
      [|apply group_raise in E2 as ->];
      eexists; (split; [done|]); by rewrite !lookup_insert_ne.
  - destruct (Nat.ltb_spec 0 (m_ngroups mt)) as [Hpos|Hz].
    + rewrite group_first by done. cbn [bind].
      destruct (Hg1 Hpos) as [g1 ->]. cbn [strip_group].
      eexists. split; [done|]. by rewrite lookup_insert_ne.
    + eexists. split; [done|]. by rewrite lookup_insert_ne.
Qed.

Lemma extract_entries_other text entries data k :
  Forall (λ entry, first_group_sure entry = true ∧ k ≠ entry.1) entries →
  k ≠ u "vlsfo_quantity" → k ≠ u "mgo_quantity" →
  ∃ data', extract_entries text entries data = Ok data'
           ∧ data' !! k = data !! k.
Proof.
  intros Hall Hv Hm. revert data.
  induction Hall as [|[key pat] entries [Hsure Hk] _ IH]; intros data;
    cbn [extract_entries].
  { by exists data. }
  destruct (extract_entry_other text data key pat k Hsure Hk Hv Hm)
    as (data1 & -> & H1).
  cbn [bind]. destruct (IH data1) as (data2 & -> & H2).
  exists data2. split; [done|]. congruence.
Qed.

Lemma extract_section_other text key pat data k :
  0 < ngroups pat → always_sets 1 pat = true → k ≠ key →
  ∃ data', extract_section text key pat data = Ok data'
           ∧ data' !! k = data !! k.
Proof.
  intros Hn Hs Hk. unfold extract_section.
  destruct (search extract_flags pat text) as [[skipped mt]|] eqn:E;
    [|by exists data].
  apply search_inv in E as (s' & _ & Hm).
  apply match_at_inv in Hm as (_ & _ & Hng & Hg).
  rewrite group_first by lia. cbn [bind].
  destruct (Hg 1 Hs) as [g1 ->]. cbn [strip_group bind].
  eexists. split; [done|]. by rewrite lookup_insert_ne.
Qed.

Lemma patterns_first_group_sure :
  Forall (λ entry, first_group_sure entry = true) patterns.
Proof. repeat constructor. Qed.

(** [extract_recap_data] never raises: a pattern that does not match, or
    a match without an optional part, leaves its key out. *)
Lemma extract_recap_data_returns text :
  ∃ fm, extract_recap_data text = Ok fm.
Proof.
  unfold extract_recap_data.
  destruct (extract_entries_other text patterns ∅ (u "no such key"))
    as (data1 & -> & _).
  { unfold patterns. repeat constructor; vm_compute; discriminate. }
  { vm_compute. discriminate. }
  { vm_compute. discriminate. }
  cbn [bind].
  destruct (extract_section_other text (u "trading_exclusions")
              x_trading_section data1 (u "no such key"))
    as (data2 & -> & _); [vm_compute; lia|done|vm_compute; discriminate|].
  cbn [bind].
  destruct (extract_section_other text (u "hire_payment")
              x_hire_section data2 (u "no such key"))
    as (data3 & -> & _); [vm_compute; lia|done|vm_compute; discriminate|].
  by exists data3.
Qed.

Lemma strip_digits : strip (u "1234567") = u "1234567".
Proof.
  assert (Hs : ∀ c, c ∈ [49; 50; 51; 52; 53; 54; 55]%N → is_space c = false).
  { intros c Hc. apply digit_facts. set_solver. }
  unfold strip.
  change (u "1234567") with [49; 50; 51; 52; 53; 54; 55]%N.
  cbn [drop_while]. rewrite (Hs 49%N) by set_solver.
  cbn [rev app drop_while]. rewrite (Hs 55%N) by set_solver. done.
Qed.

Lemma extract_entries_cons text entry entries data :
  extract_entries text (entry :: entries) data
  = (let* data' := extract_entry text data entry in
     extract_entries text entries data').
Proof. done. Qed.

(** The value stored under [imo_number] is decided by the IMO entry
    alone. *)
Lemma extract_recap_data_imo text :
  ∃ fm, extract_recap_data text = Ok fm
    ∧ fm !! u "imo_number"
      = match search extract_flags x_imo_number text with
        | Some (_, mt) => PStr <$> (strip <$> m_caps mt !! 1)
        | None => None
        end.
Proof.
  unfold extract_recap_data, patterns. rewrite extract_entries_cons.
  destruct (extract_entry_other text ∅ (u "vessel_name") x_vessel_name
              (u "imo_number"))
    as (data1 & -> & H1); [done|vm_compute; discriminate..|].
  cbn [bind]. rewrite extract_entries_cons.
  assert (∃ data2,
    extract_entry text data1 (u "imo_number", x_imo_number) = Ok data2
    ∧ data2 !! u "imo_number"
      = match search extract_flags x_imo_number text with
        | Some (_, mt) => PStr <$> (strip <$> m_caps mt !! 1)
        | None => None
        end) as (data2 & -> & H2).
  { unfold extract_entry.
    destruct (search extract_flags x_imo_number text) as [[skipped mt]|] eqn:E.
    - pose proof E as (s' & _ & Hm)%search_inv.
      apply match_at_inv in Hm as (_ & _ & Hng & Hg).
      unfold store.
      rewrite !bool_decide_eq_false_2 by (vm_compute; discriminate).
      rewrite Hng. change (0 <? ngroups x_imo_number) with true. cbn iota.
      rewrite group_first by (rewrite Hng; vm_compute; lia). cbn [bind].
      destruct (Hg 1 eq_refl) as [g1 Hg1]. rewrite Hg1.
      cbn [strip_group]. eexists. split; [done|].
      by rewrite lookup_insert_eq.
    - exists data1. split; [done|]. by rewrite H1, lookup_empty. }
  cbn [bind].
  match goal with
  | |- context [extract_entries text ?rest data2] =>
      destruct (extract_entries_other text rest data2 (u "imo_number"))
        as (data3 & -> & H3)
  end.
  { repeat constructor; vm_compute; discriminate. }
  { vm_compute; discriminate. }
  { vm_compute; discriminate. }
  cbn [bind].
  destruct (extract_section_other text (u "trading_exclusions")
              x_trading_section data3 (u "imo_number"))
    as (data4 & -> & H4); [vm_compute; lia|done|vm_compute; discriminate|].
  cbn [bind].
  destruct (extract_section_other text (u "hire_payment")
              x_hire_section data4 (u "imo_number"))
    as (data5 & -> & H5); [vm_compute; lia|done|vm_compute; discriminate|].
  exists data5. split; [done|]. congruence.
Qed.

(** C9, as the code has it.  When [IMO 1234567] is the first IMO token of
    the recap text (no further digit follows it and the IMO pattern
    matches nowhere before it), the FieldMap holds
    [imo_number = 1234567]; when the text has no IMO token, the FieldMap
    has no such key; in neither case is anything raised. *)
Theorem extract_imo_number :
  (∀ pre post,
     match post with
     | [] => True
     | x :: _ => is_digit x = false
     end →
     (∀ i, i < length pre →
        ¬ imo_token_at (pre ++ u "IMO 1234567" ++ post) i) →
     ∃ fm, extract_recap_data (pre ++ u "IMO 1234567" ++ post) = Ok fm
       ∧ fm !! u "imo_number" = Some (PStr (u "1234567")))
  ∧ (∀ text,
       (∀ i, ¬ imo_token_at text i) →
       ∃ fm, extract_recap_data text = Ok fm
         ∧ fm !! u "imo_number" = None).
Proof.
  assert (Hno : ∀ text i, ¬ imo_token_at text i →
            match_at extract_flags x_imo_number (drop i text) false = None).
  { intros text i Hi. unfold imo_token_at in Hi.
    destruct (match_at _ _ _ _); [|done]. destruct Hi. by eexists. }
  split.
  - intros pre post Hpost Hfirst.
    destruct (extract_recap_data_imo (pre ++ u "IMO 1234567" ++ post))
      as (fm & Hfm & Himo).
    exists fm. split; [done|]. rewrite Himo.
    rewrite (search_first extract_flags x_imo_number pre
               (u "IMO 1234567" ++ post) _
               (λ i Hi, Hno _ i (Hfirst i Hi)) (imo_match_here post Hpost)).
    cbn [m_caps]. rewrite lookup_singleton_eq.
    cbn [fmap option_fmap option_map]. by rewrite strip_digits.
  - intros text Hnone.
    destruct (extract_recap_data_imo text) as (fm & Hfm & Himo).
    exists fm. split; [done|]. rewrite Himo.
    rewrite search_None; [done|]. intros i. by apply Hno.
Qed.

End extraction_facts.

(** C9 fails on the code as stated: the recap text contains the token
    [IMO 1234567], but an IMO token comes before it, and [re.search]
    stops at the first. *)
Lemma earlier_imo_token_wins :
  let text := u "IMO 1 IMO 1234567" in
  text = u "IMO 1 " ++ u "IMO 1234567" ++ []
  ∧ ∃ fm, extract_recap_data (uni := ascii_tables) text = Ok fm
      ∧ fm !! u "imo_number" = Some (PStr (u "1"))
      ∧ fm !! u "imo_number" ≠ Some (PStr (u "1234567")).
Proof.
  intros text. split; [done|].
  destruct (extract_recap_data_imo (uni := ascii_tables) text)
    as (fm & Hfm & Himo).
  exists fm. split; [done|]. rewrite Himo. split.
  - vm_compute. reflexivity.
  - vm_compute. discriminate.
Qed.

Lemma extract_imo_number_witness :
  (∃ fm, extract_recap_data (uni := ascii_tables)
           (u "MV LUNAR STAR 1 " ++ u "IMO 1234567" ++ u " Cyprus flag")
         = Ok fm
     ∧ fm !! u "imo_number" = Some (PStr (u "1234567")))
  ∧ (∃ fm, extract_recap_data (uni := ascii_tables)
             (u "MV LUNAR STAR 1 Cyprus flag") = Ok fm
       ∧ fm !! u "imo_number" = None).
Proof.
  split.
  - apply (proj1 (extract_imo_number (uni := ascii_tables))
             (u "MV LUNAR STAR 1 ") (u " Cyprus flag")).
    + reflexivity.
    + intros i Hi. unfold imo_token_at.
      do 16 (destruct i as [|i];
             [vm_compute; intros [? ?]; discriminate|]).
      simpl in Hi. lia.
  - apply (proj2 (extract_imo_number (uni := ascii_tables))
             (u "MV LUNAR STAR 1 Cyprus flag")).
    intros i. unfold imo_token_at.
    do 28 (destruct i as [|i];
           [vm_compute; intros [? ?]; discriminate|]).
    vm_compute. intros [? ?]; discriminate.
Defined.

(** * Further properties of the code *)

(** ** Display of the log *)

Lemma truncate_text_length text max_length :
  length (_truncate_text text max_length) ≤ max_length + 3.
Proof.
  unfold _truncate_text. destruct text as [|c text]; simpl negb; cbn iota.
  { simpl. lia. }
  destruct (Nat.leb_spec (length (c :: text)) max_length) as [Hle|Hlt];
    [lia|].
  rewrite length_app, length_take. change (length (u "...")) with 3. lia.
Qed.

(** X1. A truncated text is never longer than the bound plus the three
    dots, and it starts like the text. *)
Theorem truncate_text_bound text max_length :
  length (_truncate_text text max_length) ≤ max_length + 3
  ∧ take max_length (_truncate_text text max_length) = take max_length text.
Proof.
  unfold _truncate_text. destruct text as [|c text]; simpl negb; cbn iota.
  { split; [simpl; lia|by rewrite !take_nil]. }
  destruct (Nat.leb_spec (length (c :: text)) max_length) as [Hle|Hlt].
  - split; [lia|done].
  - split.
    + rewrite length_app, length_take. change (length (u "...")) with 3. lia.
    + rewrite take_app_le by (rewrite length_take; lia).
      by rewrite take_take, Nat.min_id.
Qed.

(** X2. Truncating twice with the same bound is truncating once. *)
Theorem truncate_text_idempotent text max_length :
  _truncate_text (_truncate_text text max_length) max_length
  = _truncate_text text max_length.
Proof.
  unfold _truncate_text at 2. destruct text as [|c text]; simpl negb; cbn iota.
  { done. }
  destruct (Nat.leb_spec (length (c :: text)) max_length) as [Hle|Hlt].
  - unfold _truncate_text. simpl negb. cbn iota.
    by destruct (Nat.leb_spec (length (c :: text)) max_length); [|lia].
  - unfold _truncate_text.
    assert (Hlen : length (take max_length (c :: text) ++ u "...")
                   = max_length + 3).
    { rewrite length_app, length_take. change (length (u "...")) with 3. lia. }
    destruct (take max_length (c :: text) ++ u "...") as [|c' rest] eqn:E.
    { simpl in Hlen. lia. }
    simpl negb. cbn iota.
    destruct (Nat.leb_spec (length (c' :: rest)) max_length); [lia|].
    rewrite <- E. rewrite take_app_le by (rewrite length_take; lia).
    rewrite take_take, Nat.min_id.
    by destruct (Nat.leb_spec (length (c :: text)) max_length); [lia|].
Qed.

Lemma track_all_log calls self :
  ∃ new,
    track_all calls self = self ++ new
    ∧ ch_id <$> new = seq (S (length self)) (length calls)
    ∧ ch_field <$> new = c_field <$> calls
    ∧ ch_old_value <$> new = c_old_value <$> calls
    ∧ ch_new_value <$> new = c_new_value <$> calls
    ∧ ch_description <$> new = c_description <$> calls
    ∧ ch_timestamp <$> new = c_now <$> calls
    ∧ ch_change_type <$> new
      = (λ c, _determine_change_type (c_old_value c) (c_new_value c))
        <$> calls.
Proof.
  revert self. induction calls as [|c calls IH]; intros self.
  { exists []. by rewrite app_nil_r. }
  unfold track_all in *. cbn [foldl].
  destruct (IH (track_change (c_now c) (c_field c) (c_old_value c)
                  (c_new_value c) (c_description c) self).2)
    as (new & -> & Hid & Hf & Ho & Hn & Hd & Ht & Hty).
  cbn [track_change snd] in *. rewrite length_app in Hid. cbn [length] in Hid.
  rewrite !Nat.add_1_r in *.
  eexists (_ :: new). rewrite <- app_assoc. split; [done|].
  rewrite !fmap_cons, Hid, Hf, Ho, Hn, Hd, Ht, Hty. cbn [length seq].
  by split_and!.
Qed.

(** X3. The log is append-only: calls to [track_change] leave the records
    already there as they are, and each call adds one record, in call
    order, that holds its arguments, the clock reading, the next id and
    the change type of its two values. *)
Theorem track_all_appends calls self :
  ∃ new,
    track_all calls self = self ++ new
    ∧ ch_id <$> new = seq (S (length self)) (length calls)
    ∧ ch_field <$> new = c_field <$> calls
    ∧ ch_old_value <$> new = c_old_value <$> calls
    ∧ ch_new_value <$> new = c_new_value <$> calls
    ∧ ch_description <$> new = c_description <$> calls
    ∧ ch_timestamp <$> new = c_now <$> calls
    ∧ ch_change_type <$> new
      = (λ c, _determine_change_type (c_old_value c) (c_new_value c))
        <$> calls.
Proof. apply track_all_log. Qed.

(** X4. Exporting the log of a fresh tracker after N calls gives N display
    records with the ids 1..N in call order, the descriptions and
    timestamps of the calls, and old and new values of at most 203
    characters. *)
Theorem export_after_tracking title calls :
  let out := export_changes_to_dict title (track_all calls []) in
  d_id <$> out = seq 1 (length calls)
  ∧ d_description <$> out = c_description <$> calls
  ∧ d_timestamp <$> out = c_now <$> calls
  ∧ Forall (λ d, length (d_old_value d) ≤ 203
                 ∧ length (d_new_value d) ≤ 203) out.
Proof.
  destruct (track_all_log calls [])
    as (new & Hlog & Hid & _ & _ & _ & Hd & Ht & _).
  cbn [app length] in *. cbn zeta. rewrite Hlog.
  unfold export_changes_to_dict. rewrite <- !list_fmap_compose.
  split_and!.
  - by rewrite <- Hid.
  - by rewrite <- Hd.
  - by rewrite <- Ht.
  - apply Forall_fmap, Forall_forall. intros c _. cbn.
    split; apply truncate_text_length.
Qed.

(** ** The summary *)

Lemma foldl_tally_fields l types fields :
  (foldl tally (types, fields) l).2
  = list_to_set (ch_field <$> l) ∪ fields.
Proof.
  revert types fields. induction l as [|c l IH]; intros types fields.
  { cbn. set_solver. }
  cbn [foldl]. unfold tally at 2. rewrite IH, fmap_cons. cbn [list_to_set].
  set_solver.
Qed.

(** X5. The fields a summary reports are exactly the fields of the
    records of the list, each once. *)
Theorem generate_summary_fields now changes :
  fields_modified (generate_summary now changes)
  = list_to_set (ch_field <$> changes).
Proof.
  destruct changes as [|c l]; [done|].
  unfold generate_summary.
  pose proof (foldl_tally_fields (c :: l)
    (<[u "deletions":=0]> (<[u "modifications":=0]>
       (<[u "additions":=0]> ∅))) ∅) as Hf.
  destruct (foldl tally _ (c :: l)) as [types fields].
  cbn [snd] in Hf. cbn [fields_modified]. rewrite Hf. set_solver.
Qed.

Lemma determine_change_type_no_change old new :
  _determine_change_type old new = u "no_change" ↔ old = new.
Proof.
  unfold _determine_change_type.
  destruct old as [|a old], new as [|b new]; cbn [truthy negb andb].
  - done.
  - split; [vm_compute; discriminate|done].
  - split; [vm_compute; discriminate|done].
  - case_bool_decide as Hne; split; try done;
      first [vm_compute; discriminate|intros _; by apply dec_stable].
Qed.

Lemma determine_change_type_values old new :
  _determine_change_type old new
  ∈ [u "addition"; u "deletion"; u "modification"; u "no_change"].
Proof.
  unfold _determine_change_type.
  destruct old as [|a old], new as [|b new]; cbn [truthy negb andb];
    try case_bool_decide; set_solver.
Qed.

Lemma tracked_types_partition (calls : list call) :
  let types :=
    (λ c, _determine_change_type (c_old_value c) (c_new_value c)) <$> calls in
  length (filter (λ t, t = u "addition") types)
  + length (filter (λ t, t = u "modification") types)
  + length (filter (λ t, t = u "deletion") types)
  + length (filter (λ c, c_old_value c = c_new_value c) calls)
  = length calls.
Proof.
  cbn zeta. induction calls as [|c calls IH]; [done|].
  rewrite fmap_cons, !filter_cons.
  pose proof (determine_change_type_values (c_old_value c) (c_new_value c))
    as Hv.
  pose proof (determine_change_type_no_change (c_old_value c) (c_new_value c))
    as Hn.
  destruct type_names_distinct as (H1 & H2 & H3).
  assert (H4 : u "addition" ≠ u "no_change") by (vm_compute; discriminate).
  assert (H5 : u "modification" ≠ u "no_change") by (vm_compute; discriminate).
  assert (H6 : u "deletion" ≠ u "no_change") by (vm_compute; discriminate).
  repeat (apply elem_of_cons in Hv as [Hv|Hv]);
    [..|by apply elem_of_nil in Hv];
    rewrite Hv in *; repeat case_decide; try congruence;
    cbn [length]; try lia; exfalso; naive_solver.
Qed.

(** X6. In the summary of the log of a fresh tracker every call whose two
    values differ is counted under exactly one of additions,
    modifications and deletions, and a call with equal values under
    none; the total is the number of calls. *)
Theorem generate_summary_of_tracked now calls :
  let s := generate_summary now (track_all calls []) in
  total_changes s = length calls
  ∧ count (u "additions") (change_types s)
    + count (u "modifications") (change_types s)
    + count (u "deletions") (change_types s)
    + length (filter (λ c, c_old_value c = c_new_value c) calls)
    = length calls.
Proof.
  destruct (track_all_log calls [])
    as (new & Hlog & Hid & _ & _ & _ & _ & _ & Hty).
  cbn [app] in Hlog. cbn zeta. rewrite Hlog.
  assert (Hlen : length new = length calls).
  { by rewrite <- (length_fmap ch_id), Hid, length_seq. }
  destruct new as [|c l].
  { destruct calls; [done|discriminate]. }
  destruct (generate_summary_nonempty now c l) as (-> & -> & _).
  destruct (count_type_counts
              (occurrences_of_type (u "addition") (c :: l))
              (occurrences_of_type (u "modification") (c :: l))
              (occurrences_of_type (u "deletion") (c :: l)))
    as (-> & -> & ->).
  split; [done|].
  rewrite !(occurrences_of_type_perm _ _ _ (reflexivity _)), Hty.
  apply tracked_types_partition.
Qed.

(** ** More on the rule loop *)

Section rule_loop_facts.
Context {uni : Unicode} (clock : nat → list N).
Implicit Types (st : mstate) (rl : rule).

Lemma search_None_inv fl r s i :
  search fl r s = None → match_at fl r (drop i s) false = None.
Proof.
  revert i. induction s as [|c s IH]; intros i; cbn [search].
  - destruct (match_at fl r [] false) eqn:E; [done|]. by rewrite drop_nil.
  - destruct (match_at fl r (c :: s) false) eqn:E; [done|].
    destruct (search fl r s) as [[p mt]|] eqn:Es; [done|]. intros _.
    destruct i as [|i]; [done|]. by apply IH.
Qed.

Lemma subx_no_match {St : Type} fl r
    (repl : Match → St → result (list N * St)) fuel s w :
  search fl r s = None → subx fl r repl fuel s false w = Ok (s, w).
Proof.
  revert s. induction fuel as [|fuel IH]; intros s Hs; cbn [subx]; [done|].
  rewrite (search_None_inv fl r s 0 Hs : match_at fl r s false = None).
  destruct s as [|c s]; [done|].
  rewrite IH; [done|].
  cbn [search] in Hs. destruct (match_at fl r (c :: s) false); [done|].
  by destruct (search fl r s) as [[??]|].
Qed.

Lemma apply_rule_skip rl text st :
  search merge_flags (pattern rl) text = None →
  apply_rule clock rl text st = Ok (text, st).
Proof.
  intros Hs. unfold apply_rule. destruct (repl rl) as [[f|new_text]|].
  - by apply subx_no_match.
  - by rewrite Hs.
  - done.
Qed.

(** X7. A rule whose pattern does not occur in the text is skipped in
    silence, whatever its replacement: the text and the log stay as they
    are and nothing is raised. *)
Theorem apply_rule_no_match rl text st :
  search merge_flags (pattern rl) text = None →
  apply_rule clock rl text st = Ok (text, st).
Proof. apply apply_rule_skip. Qed.

(** The first occurrence of a scan is the match [re.search] finds. *)
Lemma Occ_search fl r adv s hits tail :
  Occ fl r adv s hits tail → adv = false → search fl r s = head hits.
Proof.
  induction 1 as [adv Hm|adv s mt hits tail Hm _ _
    |adv c s gap mt hits tail Hm _ IH|adv c s tail Hm _ IH]; intros ->.
  - cbn. by rewrite Hm.
  - destruct s; cbn; by rewrite Hm.
  - cbn [search]. rewrite Hm, IH by done. done.
  - cbn [search]. rewrite Hm, IH by done. done.
Qed.

Lemma search_occurrences fl r s :
  search fl r s = head (occurrences fl r s).1.
Proof. eapply Occ_search; [apply occurrences_Occ|done]. Qed.

(** X8. A catalogue rule with a fixed replacement whose pattern occurs
    logs one record, whose old value is the first occurrence, and
    rewrites every occurrence, the later ones included. *)
Theorem fixed_rule_logs_once_rewrites_all rl new_text text st :
  rl ∈ merge_rules → repl rl = Some (Fixed new_text) →
  let hits := (occurrences merge_flags (pattern rl) text).1 in
  let tail := (occurrences merge_flags (pattern rl) text).2 in
  original hits tail = text
  ∧ apply_rule clock rl text st =
      match hits with
      | [] => Ok (text, st)
      | (_, mt) :: _ =>
          Ok (splice hits ((λ _, new_text) <$> hits) tail,
              extend st [ {| ch_id := length (tracker st) + 1;
                             ch_field := field rl;
                             ch_old_value := m_span mt;
                             ch_new_value := new_text;
                             ch_description := description rl;
                             ch_timestamp := clock (ticks st);
                             ch_change_type :=
                               _determine_change_type (m_span mt) new_text |} ])
      end.
Proof.
  intros Hin Hf hits tail. split.
  { eapply Occ_original, occurrences_Occ. }
  rewrite (fixed_rule_rewrites clock rl new_text) by done.
  rewrite search_occurrences. fold hits tail.
  by destruct hits as [|[gap mt] hits'].
Qed.

End rule_loop_facts.

(** ** What the merge keeps true of its log *)

Section merge_invariant.
Context {uni : Unicode} (clock : nat → list N).
Implicit Types (st : mstate) (rl : rule) (tr : list ChangeRecord).

Lemma merge_inv_start tr :
  merge_inv clock tr {| changes := []; tracker := tr; ticks := 0 |}.
Proof.
  unfold merge_inv. cbn. rewrite app_nil_r. by split_and!.
Qed.

Lemma track_inv tr fld old_text new_text descr st :
  merge_inv clock tr st → new_text ≠ [] → is_Some (field_names !! fld) →
  merge_inv clock tr (track clock fld old_text new_text descr st).
Proof.
  intros (Htr & Hticks & Hids & Hts & Hok) Hnew Hfld.
  rewrite track_extend. unfold merge_inv, extend. cbn [changes tracker ticks].
  rewrite !fmap_app, !length_app. cbn [length fmap list_fmap].
  rewrite !Nat.add_1_r, !seq_S, fmap_app. cbn [fmap list_fmap].
  repeat apply conj.
  - by rewrite Htr, app_assoc.
  - lia.
  - cbn [ch_id]. by rewrite Hids, Htr, length_app.
  - cbn [ch_timestamp]. by rewrite Hts, Hticks.
  - apply Forall_app. split; [done|]. by repeat constructor.
Qed.

Lemma subx_preserves {St : Type} (P : St → Prop) fl r
    (repl : Match → St → result (list N * St)) :
  (∀ mt w new w', P w → repl mt w = Ok (new, w') → P w') →
  ∀ fuel s adv w out w',
    P w → subx fl r repl fuel s adv w = Ok (out, w') → P w'.
Proof.
  intros Hrepl. induction fuel as [|fuel IH]; intros s adv w out w' HP;
    cbn [subx].
  { by intros [= _ <-]. }
  destruct (match_at fl r s adv) as [mt|].
  - destruct (repl mt w) as [[new w1]|e] eqn:E; cbn [bind]; [|done].
    destruct (subx fl r repl fuel _ _ w1) as [[out2 w2]|e] eqn:E2;
      cbn [bind]; [|done].
    intros [= _ <-]. eapply IH; [|exact E2]. by eapply Hrepl.
  - destruct s as [|c s]; [by intros [= _ <-]|].
    destruct (subx fl r repl fuel s false w) as [[out2 w2]|e] eqn:E2;
      cbn [bind]; [|done].
    intros [= _ <-]. by eapply IH.
Qed.

Lemma catalogue_callable_nonempty rl f mt new :
  rl ∈ merge_rules → repl rl = Some (Callable f) → f mt = Ok new → new ≠ [].
Proof.
  unfold merge_rules. intros Hin Hf Hnew.
  repeat (apply elem_of_cons in Hin as [->|Hin]);
    [..|by apply elem_of_nil in Hin]; cbn in Hf; simplify_eq.
  - unfold charter_date_repl in Hnew.
    destruct (group mt 1); cbn [bind] in Hnew; [|done].
    destruct (group mt 3); cbn [bind] in Hnew; [|done].
    destruct (group mt 4) as [[s4|]|]; cbn [bind] in Hnew; [|done..].
    injection Hnew as <-. intros Heq%(f_equal length).
    rewrite ?length_app in Heq. cbn [length] in Heq. lia.
  - unfold vessel_name_repl in Hnew.
    destruct (group mt 1); cbn [bind] in Hnew; [|done].
    destruct (group mt 3); cbn [bind] in Hnew; [|done].
    injection Hnew as <-. intros Heq%(f_equal length).
    rewrite ?length_app in Heq. cbn [length] in Heq. lia.
  - done.
Qed.

Lemma catalogue_fixed_nonempty rl new_text :
  rl ∈ merge_rules → repl rl = Some (Fixed new_text) → new_text ≠ [].
Proof.
  unfold merge_rules. intros Hin Hf.
  repeat (apply elem_of_cons in Hin as [->|Hin]);
    [..|by apply elem_of_nil in Hin]; cbn in Hf; by simplify_eq.
Qed.

Lemma catalogue_field_named rl :
  rl ∈ merge_rules → is_Some (field_names !! field rl).
Proof.
  unfold merge_rules. intros Hin.
  repeat (apply elem_of_cons in Hin as [->|Hin]);
    [..|by apply elem_of_nil in Hin]; vm_compute; by eexists.
Qed.

Lemma apply_rule_inv tr rl text st text' st' :
  rl ∈ merge_rules → merge_inv clock tr st →
  apply_rule clock rl text st = Ok (text', st') →
  merge_inv clock tr st'.
Proof.
  intros Hin Hinv. unfold apply_rule.
  destruct (repl rl) as [[f|new_text]|] eqn:Hf.
  - unfold sub_callable. apply subx_preserves; [|done].
    intros mt w new w' Hw. unfold replace_func.
    destruct (f mt) as [new_text|e] eqn:E; cbn [bind]; [|done].
    intros [= <- <-]. apply track_inv; [done| |].
    + by eapply catalogue_callable_nonempty.
    + by apply catalogue_field_named.
  - destruct (search _ _ _) as [[skipped mt]|]; [|by intros [= _ <-]].
    destruct (sub_template _ _ _ _); cbn [bind]; [|done].
    intros [= _ <-]. apply track_inv; [done| |].
    + by eapply catalogue_fixed_nonempty.
    + by apply catalogue_field_named.
  - by intros [= _ <-].
Qed.

Lemma apply_rules_inv tr rules text st text' st' :
  Forall (λ rl, rl ∈ merge_rules) rules → merge_inv clock tr st →
  apply_rules clock rules text st = Ok (text', st') →
  merge_inv clock tr st'.
Proof.
  intros Hall. revert text st.
  induction Hall as [|rl rules Hin _ IH]; intros text st Hinv;
    cbn [apply_rules].
  { by intros [= _ <-]. }
  destruct (apply_rule clock rl text st) as [[text1 st1]|e] eqn:E;
    cbn [bind]; [|done].
  apply IH. by eapply apply_rule_inv.
Qed.

Lemma add_trading_exclusions_inv tr fm text st text' st' :
  merge_inv clock tr st →
  add_trading_exclusions clock fm text st = Ok (text', st') →
  merge_inv clock tr st'.
Proof.
  intros Hinv. unfold add_trading_exclusions.
  destruct (fm !! _) as [v|]; [|by intros [= _ <-]].
  destruct (search _ _ _); [|by intros [= _ <-]].
  destruct (sub_template _ _ _ _); cbn [bind]; [|done].
  intros [= _ <-]. apply track_inv; [done|done|].
  vm_compute. by eexists.
Qed.

(** How a merge that returns went: the rule loop, the insertion, and
    then the dry-docking clause, logged last. *)
Lemma merge_documents_Ok base fm tr text st :
  merge_documents clock base fm tr = Ok (text, st) →
  ∃ text2 st2,
    merge_inv clock tr st2
    ∧ st = track clock (u "dry_docking") [] dd_clause
             (u "Added dry-docking clause") st2
    ∧ text = (text2 ++ dd_clause) ++ summary_section (changes st).
Proof.
  unfold merge_documents.
  destruct (apply_rules clock merge_rules base _) as [[text1 st1]|e] eqn:E1;
    cbn [bind]; [|done].
  destruct (add_trading_exclusions clock fm text1 st1) as [[text2 st2]|e]
    eqn:E2; cbn [bind]; [|done].
  intros [= <- <-]. exists text2, st2. split; [|done].
  eapply add_trading_exclusions_inv; [|exact E2].
  eapply apply_rules_inv; [|apply merge_inv_start|exact E1].
  by apply Forall_forall.
Qed.

Lemma merge_documents_inv base fm tr text st :
  merge_documents clock base fm tr = Ok (text, st) → merge_inv clock tr st.
Proof.
  intros (text2 & st2 & Hinv & -> & _)%merge_documents_Ok.
  apply track_inv; [done|done|]. vm_compute. by eexists.
Qed.

(** X9. In what [merge_documents] returns, the tracker's log is its log
    from before followed by the records of the returned list, whose ids
    continue the numbering without a gap and whose timestamps are the
    successive clock readings. *)
Theorem merge_documents_numbering base fm tr text st :
  merge_documents clock base fm tr = Ok (text, st) →
  tracker st = tr ++ changes st
  ∧ ch_id <$> changes st = seq (S (length tr)) (length (changes st))
  ∧ ch_timestamp <$> changes st = clock <$> seq 0 (length (changes st)).
Proof.
  intros (Htr & _ & Hids & Hts & _)%merge_documents_inv. done.
Qed.

Lemma determine_change_type_deletion old new :
  new ≠ [] → _determine_change_type old new ≠ u "deletion".
Proof.
  intros Hnew. unfold _determine_change_type.
  destruct old as [|a old], new as [|b new]; cbn [truthy negb andb];
    try done; try case_bool_decide; vm_compute; discriminate.
Qed.

Lemma occurrences_of_type_zero ty l :
  Forall (λ c, ch_change_type c ≠ ty) l → occurrences_of_type ty l = 0.
Proof.
  induction 1 as [|c l Hc _ IH]; [done|].
  rewrite occurrences_of_type_cons, IH. by rewrite bool_decide_eq_false_2.
Qed.

Lemma occurrences_of_type_app ty l1 l2 :
  occurrences_of_type ty (l1 ++ l2)
  = occurrences_of_type ty l1 + occurrences_of_type ty l2.
Proof.
  unfold occurrences_of_type. by rewrite filter_app, length_app.
Qed.

(** X10. The summary of the change list of a merge counts every record in
    its total, reports no deletion and at least one addition, and so
    never says that no changes were made. *)
Theorem generate_summary_of_merge now base fm tr text st :
  merge_documents clock base fm tr = Ok (text, st) →
  let s := generate_summary now (changes st) in
  total_changes s = length (changes st)
  ∧ 1 ≤ total_changes s
  ∧ count (u "deletions") (change_types s) = 0
  ∧ 1 ≤ count (u "additions") (change_types s)
  ∧ summary s ≠ u "No changes were made to the document.".
Proof.
  intros Hm. pose proof (merge_documents_inv _ _ _ _ _ Hm) as
    (_ & _ & _ & _ & Hok).
  apply merge_documents_Ok in Hm as (text2 & st2 & _ & Hst & _).
  rewrite track_extend in Hst. subst st. cbn [extend changes] in *.
  destruct (changes st2 ++ _) as [|c l] eqn:Hcl.
  { by apply app_eq_nil in Hcl as [_ ?]. }
  cbn zeta.
  destruct (generate_summary_nonempty now c l) as (-> & -> & ->).
  destruct (count_type_counts
              (occurrences_of_type (u "addition") (c :: l))
              (occurrences_of_type (u "modification") (c :: l))
              (occurrences_of_type (u "deletion") (c :: l)))
    as (-> & _ & ->).
  split_and!.
  - done.
  - cbn. lia.
  - apply occurrences_of_type_zero. eapply Forall_impl; [exact Hok|].
    intros c' (Hnew & -> & _). by apply determine_change_type_deletion.
  - rewrite <- Hcl, occurrences_of_type_app.
    rewrite (occurrences_of_type_cons _ _ []). cbn [ch_change_type].
    rewrite bool_decide_eq_true_2 by done. lia.
  - unfold narrative. vm_compute. discriminate.
Qed.

(** X11. Every record of a merge has a field with an entry in the table
    of display names, so displaying the change list never falls back on
    title-casing a field name. *)
Theorem merge_documents_display_names base fm tr text st :
  merge_documents clock base fm tr = Ok (text, st) →
  Forall (λ c, ∃ name,
            field_names !! ch_field c = Some name
            ∧ ∀ title, d_field (format_change_for_display title c) = name)
    (changes st).
Proof.
  intros (_ & _ & _ & _ & Hok)%merge_documents_inv.
  eapply Forall_impl; [exact Hok|].
  intros c (_ & _ & [name Hname]). exists name. split; [done|].
  intros title. cbn. unfold _format_field_name. by rewrite Hname.
Qed.

End merge_invariant.

(** ** The trading-exclusions insertion and the untouched base text *)

Section insertion_facts.
Context {uni : Unicode} (clock : nat → list N).
Implicit Types (st : mstate) (fm : gmap (list N) pyval).

(** The outermost group of a pattern holds the whole match. *)
Lemma match_at_outer_group fl r s adv mt :
  match_at fl (Grp 1 r) s adv = Some mt →
  m_caps mt !! 1 = Some (m_span mt).
Proof.
  unfold match_at. cbn [m].
  destruct (m fl r s ∅ _) as [[s1 g1]|] eqn:E; [|done].
  apply m_inv in E as (s2 & g2 & Hk & _ & _). cbn beta in Hk.
  destruct (adv && _); [done|]. injection Hk as <- <-.
  intros [= <-]. cbn. by rewrite lookup_insert_eq.
Qed.

(** Without [re.IGNORECASE] a literal matches its own text only. *)
Lemma m_literal_inv cs s g k res :
  m no_flags (cat (Chr <$> cs)) s g k = Some res →
  ∃ s', s = cs ++ s' ∧ k s' g = Some res.
Proof.
  revert s. induction cs as [|c cs IH]; intros s; cbn.
  { intros Hk. by exists s. }
  destruct s as [|x s]; [done|].
  destruct (x =? c)%N eqn:Ex; [|done]. apply N.eqb_eq in Ex as ->.
  intros (s' & -> & Hk)%IH. by exists s'.
Qed.

Lemma match_at_literal_span cs s adv mt :
  match_at no_flags (Grp 1 (cat (Chr <$> cs))) s adv = Some mt →
  m_span mt = cs.
Proof.
  unfold match_at. cbn [m].
  destruct (m no_flags _ s ∅ _) as [[s1 g1]|] eqn:E; [|done].
  apply m_literal_inv in E as (s' & -> & Hk). cbn beta in Hk.
  destruct (adv && _); [done|]. injection Hk as <- <-.
  intros [= <-]. cbn [m_span]. rewrite length_app.
  replace (length cs + length s' - length s') with (length cs) by lia.
  by rewrite take_app_length.
Qed.

Lemma exclusion_match_span s adv mt :
  match_at no_flags exclusion_pattern s adv = Some mt →
  m_span mt
  = u "as the Charterers or their Agents shall direct, on the following conditions:".
Proof. apply match_at_literal_span. Qed.

(** X12. When the FieldMap holds trading exclusions without a backslash
    and the anchor sentence occurs in the text, the block with the
    exclusions is put after every occurrence of the anchor and one
    addition is logged, with the block as new value; without an
    occurrence the step does nothing. *)
Theorem trading_exclusions_inserted fm v text st :
  fm !! u "trading_exclusions" = Some v →
  forallb (λ c, negb (c =? 92)%N) (fmt v) = true →
  let block := [nl; nl] ++ u "TRADING EXCLUSIONS:" ++ [nl] ++ fmt v ++ [nl] in
  let anchor :=
    u "as the Charterers or their Agents shall direct, on the following conditions:" in
  let hits := (occurrences no_flags exclusion_pattern text).1 in
  let tail := (occurrences no_flags exclusion_pattern text).2 in
  original hits tail = text
  ∧ Forall (λ hit, m_span hit.2 = anchor) hits
  ∧ add_trading_exclusions clock fm text st =
      match hits with
      | [] => Ok (text, st)
      | _ :: _ =>
          Ok (splice hits ((λ _, anchor ++ block) <$> hits) tail,
              extend st [ {| ch_id := length (tracker st) + 1;
                             ch_field := u "trading_exclusions";
                             ch_old_value := [];
                             ch_new_value := block;
                             ch_description :=
                               u "Added trading exclusions clause";
                             ch_timestamp := clock (ticks st);
                             ch_change_type := u "addition" |} ])
      end.
Proof.
  intros Hv Hplain block anchor hits tail.
  pose proof (occurrences_Occ no_flags exclusion_pattern text) as Hocc.
  fold hits tail in Hocc.
  assert (Hspans : Forall (λ hit, m_span hit.2 = anchor
                                  ∧ m_caps hit.2 !! 1 = Some anchor) hits).
  { eapply Forall_impl; [by eapply Occ_matches|].
    intros hit (s & adv & Hm).
    pose proof (exclusion_match_span _ _ _ Hm) as Hspan.
    apply match_at_outer_group in Hm. by rewrite Hm, Hspan. }
  split; [by eapply Occ_original|].
  split; [eapply Forall_impl; [exact Hspans|]; by intros hit [? _]|].
  unfold add_trading_exclusions. rewrite Hv, search_occurrences.
  fold hits. destruct hits as [|hit hits'] eqn:Hhits; [done|].
  cbn [head].
  rewrite (sub_template_occurrences _ _ _ (TGroup 1 :: (TLit <$> block))).
  2: { change (u "\1" ++ [nl; nl] ++ u "TRADING EXCLUSIONS:" ++ [nl]
                 ++ fmt v ++ [nl]) with (u "\1" ++ nl :: (nl :: u "TRADING EXCLUSIONS:" ++ [nl] ++ fmt v ++ [nl])).
       rewrite exclusion_template_parse.
       rewrite (parse_template_plain 1 block); [done|].
       unfold block. rewrite !forallb_app, Hplain. done. }
  cbn [bind]. rewrite track_extend. fold hits tail. rewrite Hhits.
  do 3 f_equal.
  - apply Forall_fmap_ext. eapply Forall_impl; [exact Hspans|].
    intros h [_ Hg]. unfold expand_template. cbn [map concat].
    rewrite Hg. cbn [default]. f_equal.
    by rewrite <- (expand_template_lits block h.2) at 2.
Qed.

End insertion_facts.


Section template_errors.
Context {uni : Unicode}.

(** A backslash before an ASCII letter that is no escape makes a
    template malformed. *)
Lemma parse_template_bad_escape n plain c rest :
  forallb (λ x, negb (x =? 92)%N) plain = true →
  is_ascii_letter c = true →
  c ∉ [97; 98; 102; 103; 110; 114; 116; 118]%N →
  parse_template n TNormal (plain ++ 92%N :: c :: rest) = Raise ReError.
Proof.
  intros Hplain Hletter Hc.
  assert (Hne : ∀ x, x ∈ [97; 98; 102; 103; 110; 114; 116; 118]%N →
                     (c =? x)%N = false).
  { intros x Hx. apply N.eqb_neq. intros ->. done. }
  assert (H48 : (c =? 48)%N = false ∧ is_decdigit c = false
                ∧ (c =? 92)%N = false).
  { unfold is_ascii_letter, is_decdigit in *.
    apply orb_true_iff in Hletter as [[H1 H2]%andb_true_iff|[H1 H2]%andb_true_iff];
      apply N.leb_le in H1, H2; split_and!;
      first [apply N.eqb_neq; lia
            |apply andb_false_iff; right; apply N.leb_gt; lia]. }
  destruct H48 as (H48 & Hdec & H92).
  induction plain as [|x plain IH]; cbn [app].
  - cbn [parse_template]. rewrite N.eqb_refl. cbn [negb].
    rewrite (Hne 103%N) by set_solver. rewrite H48, Hdec.
    unfold escape. rewrite (Hne 97%N), (Hne 98%N), (Hne 102%N),
      (Hne 110%N), (Hne 114%N), (Hne 116%N), (Hne 118%N), H92 by set_solver.
    by rewrite Hletter.
  - cbn [forallb] in Hplain. apply andb_true_iff in Hplain as [Hx Hplain].
    cbn [parse_template]. rewrite Hx. unfold addlit. by rewrite IH.
Qed.

End template_errors.

Section insertion_errors.
Context {uni : Unicode} (clock : nat → list N).
Implicit Types (st : mstate) (fm : gmap (list N) pyval).

(** X13. When the trading exclusions of the FieldMap hold a backslash
    followed by an ASCII letter other than a, b, f, g, n, r, t and v, with
    no backslash before it, and the anchor sentence occurs in the text,
    the insertion raises [re.error]: the exclusions are handed to
    [re.sub] as a replacement template. *)
Theorem trading_exclusions_bad_escape fm v plain c rest text st :
  fm !! u "trading_exclusions" = Some v →
  fmt v = plain ++ 92%N :: c :: rest →
  forallb (λ x, negb (x =? 92)%N) plain = true →
  is_ascii_letter c = true →
  c ∉ [97; 98; 102; 103; 110; 114; 116; 118]%N →
  is_Some (search no_flags exclusion_pattern text) →
  add_trading_exclusions clock fm text st = Raise ReError.
Proof.
  intros Hv Hfmt Hplain Hletter Hc [found Hs].
  unfold add_trading_exclusions. rewrite Hv, Hs.
  rewrite (sub_template_raise _ _ _ _ ReError); [done|].
  change (u "\1" ++ [nl; nl] ++ u "TRADING EXCLUSIONS:" ++ [nl]
            ++ fmt v ++ [nl])
    with (u "\1" ++ nl :: (nl :: u "TRADING EXCLUSIONS:" ++ [nl] ++ fmt v
                              ++ [nl])).
  rewrite exclusion_template_parse, Hfmt.
  replace (nl :: nl :: u "TRADING EXCLUSIONS:" ++ [nl]
             ++ (plain ++ 92%N :: c :: rest) ++ [nl])
    with ((nl :: nl :: u "TRADING EXCLUSIONS:" ++ [nl] ++ plain)
            ++ 92%N :: c :: (rest ++ [nl])).
  2: { cbn [app]. rewrite <- !app_assoc. done. }
  rewrite parse_template_bad_escape; [done| |done|done].
  cbn [forallb]. rewrite !forallb_app, Hplain. done.
Qed.

Lemma apply_rules_skip rules text st :
  Forall (λ rl, search merge_flags (pattern rl) text = None) rules →
  apply_rules clock rules text st = Ok (text, st).
Proof.
  induction 1 as [|rl rules Hs _ IH]; cbn [apply_rules]; [done|].
  by rewrite apply_rule_skip.
Qed.

(** X14. A base text in which no pattern of the catalogue occurs, merged
    with a FieldMap without trading exclusions or without the anchor
    sentence in the text, comes back unchanged, followed by the
    dry-docking clause and a summary block that lists this one change;
    the dry-docking record is the only one logged. *)
Theorem merge_documents_untouched base fm tr :
  Forall (λ rl, search merge_flags (pattern rl) base = None) merge_rules →
  fm !! u "trading_exclusions" = None
  ∨ search no_flags exclusion_pattern base = None →
  let dry_docking :=
    {| ch_id := length tr + 1;
       ch_field := u "dry_docking";
       ch_old_value := [];
       ch_new_value := dd_clause;
       ch_description := u "Added dry-docking clause";
       ch_timestamp := clock 0;
       ch_change_type := u "addition" |} in
  merge_documents clock base fm tr
  = Ok (base ++ dd_clause ++ summary_section [dry_docking],
        {| changes := [dry_docking];
           tracker := tr ++ [dry_docking];
           ticks := 1 |}).
Proof.
  intros Hrules Hte. unfold merge_documents.
  rewrite apply_rules_skip by done. cbn [bind].
  assert (add_trading_exclusions clock fm base
            {| changes := []; tracker := tr; ticks := 0 |}
          = Ok (base, {| changes := []; tracker := tr; ticks := 0 |})) as ->.
  { unfold add_trading_exclusions. destruct Hte as [->| ->]; [done|].
    by destruct (fm !! _). }
  cbn [bind]. rewrite track_extend. cbn [extend changes tracker ticks app].
  by rewrite <- app_assoc.
Qed.

End insertion_errors.

(** ** What the extraction leaves in the dict *)

Lemma drop_while_head p s :
  match drop_while p s with
  | [] => True
  | c :: _ => p c = false
  end.
Proof.
  induction s as [|c s IH]; cbn [drop_while]; [done|].
  destruct (p c) eqn:E; [done|]. by rewrite E.
Qed.

Lemma drop_while_suffix p s : drop_while p s `suffix_of` s.
Proof.
  induction s as [|c s IH]; cbn [drop_while]; [done|].
  destruct (p c); [by apply suffix_cons_r|done].
Qed.

Section extraction_results.
Context {uni : Unicode}.
Implicit Types (data : gmap (list N) pyval) (text key k : list N).

Lemma strip_trimmed s : trimmed (strip s).
Proof.
  unfold trimmed, strip.
  pose proof (drop_while_head is_space s) as Ha.
  pose proof (drop_while_head is_space (rev (drop_while is_space s))) as Hb.
  destruct (drop_while_suffix is_space (rev (drop_while is_space s)))
    as [pre Hpre].
  set (a := drop_while is_space s) in *.
  set (b := drop_while is_space (rev a)) in *.
  split.
  - apply (f_equal (@rev N)) in Hpre. rewrite rev_involutive, rev_app_distr in Hpre.
    destruct (rev b) as [|c rb]; [done|].
    rewrite Hpre in Ha. done.
  - destruct b as [|c b']; [done|].
    cbn [rev]. by rewrite last_snoc.
Qed.

Lemma value_ok_stripped k s : value_ok k (PStr (strip s)).
Proof. exists (strip s). split; [done|]. intros _. apply strip_trimmed. Qed.

Lemma value_ok_unstripped k s : k ∈ unstripped_keys → value_ok k (PStr s).
Proof. intros Hk. exists s. split; [done|]. by intros []. Qed.

Ltac entry_done :=
  eexists; split; [reflexivity|]; split;
  [rewrite dom_insert_L; set_solver
  |apply map_Forall_insert_2;
   [first [apply value_ok_stripped|by apply value_ok_unstripped]|done]].

Lemma extract_entry_facts text data key pat :
  entry_sure (key, pat) →
  map_Forall value_ok data →
  ∃ data', extract_entry text data (key, pat) = Ok data'
    ∧ dom data'
      = dom data ∪ list_to_set (if occurs pat text then written_keys key
                                else [])
    ∧ map_Forall value_ok data'.
Proof.
  intros [Hsure Hbunkers] Hdata. cbn [fst snd] in Hbunkers.
  unfold extract_entry, occurs.
  destruct (search extract_flags pat text) as [[skipped mt]|] eqn:Hs.
  2: { exists data. rewrite bool_decide_eq_false_2 by by intros [? [=]].
       split_and!; [done|set_solver|done]. }
  rewrite bool_decide_eq_true_2 by done.
  pose proof (search_first_group _ _ _ _ _ Hsure Hs) as Hg1.
  apply search_inv in Hs as (s' & _ & Hm).
  apply match_at_inv in Hm as (_ & _ & Hng & Hg).
  unfold store, written_keys.
  destruct (decide (key = u "period")) as [->|Hperiod].
  { rewrite bool_decide_eq_true_2 by done.
    rewrite (bool_decide_eq_false_2 (u "period" = u "bunkers_delivery"))
      by (vm_compute; discriminate).
    assert (Hu : u "period" ∈ unstripped_keys) by (unfold unstripped_keys; set_solver).
    destruct (group mt 1) as [g1|e1] eqn:E1;
      [|apply group_raise in E1 as ->]; cbn [bind].
    2: { entry_done. }
    destruct (group mt 2) as [g2|e2] eqn:E2;
      [|apply group_raise in E2 as ->]; cbn [bind]; entry_done. }
  rewrite (bool_decide_eq_false_2 (key = u "period")) by done.
  destruct (decide (key = u "optional_period")) as [->|Hoptional].
  { rewrite bool_decide_eq_true_2 by done.
    rewrite (bool_decide_eq_false_2
               (u "optional_period" = u "bunkers_delivery"))
      by (vm_compute; discriminate).
    assert (Hu : u "optional_period" ∈ unstripped_keys)
      by (unfold unstripped_keys; set_solver).
    destruct (group mt 1) as [g1|e1] eqn:E1;
      [|apply group_raise in E1 as ->]; cbn [bind].
    2: { entry_done. }
    destruct (group mt 2) as [g2|e2] eqn:E2;
      [|apply group_raise in E2 as ->]; cbn [bind].
    2: { entry_done. }
    destruct (group mt 3) as [g3|e3] eqn:E3;
      [|apply group_raise in E3 as ->]; cbn [bind]; entry_done. }
  rewrite (bool_decide_eq_false_2 (key = u "optional_period")) by done.
  destruct (decide (key = u "bunkers_delivery")) as [->|Hb].
  { rewrite !bool_decide_eq_true_2 by done.
    destruct (Hbunkers eq_refl) as (Hn & H1 & H2).
    unfold group. rewrite Hng.
    destruct (Nat.leb_spec 1 (ngroups pat)); [|lia].
    destruct (Nat.leb_spec 2 (ngroups pat)); [|lia].
    destruct (Hg 1 H1) as [g1 ->]. destruct (Hg 2 H2) as [g2 ->].
    cbn [of_group].
    eexists. split; [done|]. split.
    - rewrite !dom_insert_L. set_solver.
    - apply map_Forall_insert_2;
        [apply value_ok_unstripped; unfold unstripped_keys; set_solver|].
      apply map_Forall_insert_2;
        [apply value_ok_unstripped; unfold unstripped_keys; set_solver|done]. }
  rewrite !(bool_decide_eq_false_2 (key = u "bunkers_delivery")) by done.
  destruct (Nat.ltb_spec 0 (m_ngroups mt)) as [Hpos|Hz].
  - rewrite group_first by done. cbn [bind].
    destruct (Hg1 Hpos) as [g1 ->]. cbn [strip_group]. entry_done.
  - entry_done.
Qed.

Lemma extract_entries_facts text entries data :
  Forall entry_sure entries →
  map_Forall value_ok data →
  ∃ data', extract_entries text entries data = Ok data'
    ∧ dom data'
      = dom data
        ∪ list_to_set
            (flat_map (λ entry : list N * regex,
                         if occurs entry.2 text then written_keys entry.1
                         else [])
                      entries)
    ∧ map_Forall value_ok data'.
Proof.
  intros Hall. revert data.
  induction Hall as [|[key pat] entries Hsure _ IH]; intros data Hdata;
    cbn [extract_entries flat_map].
  { exists data. split_and!; [done|set_solver|done]. }
  destruct (extract_entry_facts text data key pat Hsure Hdata)
    as (data1 & -> & Hdom1 & Hok1).
  cbn [bind]. destruct (IH data1 Hok1) as (data2 & -> & Hdom2 & Hok2).
  exists data2. split_and!; [done| |done].
  rewrite Hdom2, Hdom1, list_to_set_app_L. cbn [fst snd]. set_solver.
Qed.

Lemma extract_section_facts text key pat data :
  0 < ngroups pat → always_sets 1 pat = true →
  map_Forall value_ok data →
  ∃ data', extract_section text key pat data = Ok data'
    ∧ dom data' = dom data ∪ (if occurs pat text then {[ key ]} else ∅)
    ∧ map_Forall value_ok data'.
Proof.
  intros Hn Hsets Hdata. unfold extract_section, occurs.
  destruct (search extract_flags pat text) as [[skipped mt]|] eqn:E.
  2: { exists data. rewrite bool_decide_eq_false_2 by by intros [? [=]].
       split_and!; [done|set_solver|done]. }
  rewrite bool_decide_eq_true_2 by done.
  apply search_inv in E as (s' & _ & Hm).
  apply match_at_inv in Hm as (_ & _ & Hng & Hg).
  rewrite group_first by lia. cbn [bind].
  destruct (Hg 1 Hsets) as [g1 ->]. cbn [strip_group bind].
  eexists. split; [done|]. split.
  - rewrite dom_insert_L. set_solver.
  - apply map_Forall_insert_2; [apply value_ok_stripped|done].
Qed.

Lemma patterns_entry_sure : Forall entry_sure patterns.
Proof.
  unfold patterns.
  repeat (apply Forall_cons; split;
          [split; [done|intros Hkey; first
             [exfalso; vm_compute in Hkey; discriminate Hkey
             |split_and!; [vm_compute; lia|done|done]]]|]).
  apply Forall_nil_2.
Qed.

Lemma extract_recap_data_facts text :
  ∃ fm, extract_recap_data text = Ok fm
    ∧ dom fm = expected_keys text
    ∧ map_Forall value_ok fm.
Proof.
  unfold extract_recap_data, expected_keys.
  destruct (extract_entries_facts text patterns ∅ patterns_entry_sure)
    as (data1 & -> & Hdom1 & Hok1); [apply map_Forall_empty|].
  cbn [bind].
  destruct (extract_section_facts text (u "trading_exclusions")
              x_trading_section data1)
    as (data2 & -> & Hdom2 & Hok2); [vm_compute; lia|done|done|].
  cbn [bind].
  destruct (extract_section_facts text (u "hire_payment")
              x_hire_section data2)
    as (data3 & -> & Hdom3 & Hok3); [vm_compute; lia|done|done|].
  exists data3. split_and!; [done| |done].
  rewrite Hdom3, Hdom2, Hdom1, dom_empty_L. by rewrite (left_id_L ∅ (∪)).
Qed.

Lemma written_keys_not_bunkers :
  Forall (λ entry : list N * regex,
            u "bunkers_delivery" ∉ written_keys entry.1) patterns.
Proof.
  unfold patterns.
  repeat (apply Forall_cons; split;
          [by apply (bool_decide_unpack _); vm_compute|]).
  apply Forall_nil_2.
Qed.

(** X15. [extract_recap_data] never raises, and the dict it returns has
    exactly the keys of the patterns that occur in the recap text: an
    entry of [patterns] gives its own key, except the bunkers entry which
    gives [vlsfo_quantity] and [mgo_quantity]; the two section searches
    give [trading_exclusions] and [hire_payment].  No dict has the key
    [bunkers_delivery]. *)
Theorem extract_recap_data_keys text :
  ∃ fm, extract_recap_data text = Ok fm
    ∧ dom fm = expected_keys text
    ∧ fm !! u "bunkers_delivery" = None.
Proof.
  destruct (extract_recap_data_facts text) as (fm & Hfm & Hdom & _).
  exists fm. split_and!; [done..|].
  apply not_elem_of_dom. rewrite Hdom. unfold expected_keys.
  intros [[Hin|Hin]%elem_of_union|Hin]%elem_of_union.
  - apply elem_of_list_to_set, list_elem_of_In, in_flat_map in Hin
      as ([key pat] & Hentry%list_elem_of_In & Hin%list_elem_of_In).
    pose proof written_keys_not_bunkers as Hnot.
    rewrite Forall_forall in Hnot. apply (Hnot _ Hentry).
    cbn [fst snd] in *. by destruct (occurs pat text); [|set_solver].
  - destruct (occurs _ _); [|set_solver].
    apply elem_of_singleton in Hin. by apply (f_equal length) in Hin.
  - destruct (occurs _ _); [|set_solver].
    apply elem_of_singleton in Hin. by apply (f_equal length) in Hin.
Qed.

(** X16. Every value of the dict that [extract_recap_data] returns is a
    string, never [None]; and apart from the keys [period],
    [optional_period], [vlsfo_quantity] and [mgo_quantity] the string has
    no white space at either end. *)
Theorem extract_recap_data_values text :
  ∃ fm, extract_recap_data text = Ok fm
    ∧ ∀ k v, fm !! k = Some v →
        ∃ s, v = PStr s ∧ (k ∉ unstripped_keys → trimmed s).
Proof.
  destruct (extract_recap_data_facts text) as (fm & Hfm & _ & Hok).
  exists fm. split; [done|]. intros k v Hk. apply (Hok k v Hk).
Qed.

End extraction_results.

(** ** app.py: the extension test *)

Import App.

Lemma rfind_none sep s : rfind sep s = None ↔ sep ∉ s.
Proof.
  induction s as [|c s IH]; cbn [rfind].
  - split; [|done]. intros _. apply not_elem_of_nil.
  - destruct (rfind sep s) as [i|].
    + split; [done|]. intros Hn. exfalso.
      assert (sep ∉ s) as Hs by (intros ?; apply Hn; by right).
      by apply IH in Hs.
    + destruct (N.eqb_spec c sep) as [->|Hne].
      * split; [done|]. intros Hn. destruct Hn. by left.
      * split; [|done]. intros _. apply not_elem_of_cons. split; [done|].
        by apply IH.
Qed.

Lemma rfind_some sep s i :
  rfind sep s = Some i →
  s = take i s ++ sep :: drop (S i) s ∧ sep ∉ drop (S i) s.
Proof.
  revert i. induction s as [|c s IH]; intros i; cbn [rfind]; [done|].
  destruct (rfind sep s) as [j|] eqn:E.
  - intros [= <-]. destruct (IH j eq_refl) as [Hs Hn].
    cbn [take drop app]. split; [by f_equal|done].
  - destruct (N.eqb_spec c sep) as [->|Hne]; [|done].
    intros [= <-]. cbn [take drop app]. split; [done|].
    rewrite drop_0. by apply rfind_none.
Qed.

Lemma existsb_dot (s : list N) : existsb (N.eqb 46) s = true ↔ 46%N ∈ s.
Proof.
  rewrite existsb_exists. split.
  - intros (c & Hc%list_elem_of_In & ->%N.eqb_eq). done.
  - intros Hin. exists 46%N. split; [by apply list_elem_of_In|done].
Qed.

(** X17. [allowed_file] never raises.  It rejects a name without a dot;
    a name with a dot is judged by what follows its last dot: accepted
    exactly when the lower-cased extension is one of the allowed ones. *)
Theorem allowed_file_last_extension (lower : list N → list N) filename :
  (46%N ∉ filename ∧ allowed_file lower filename = Ok false)
  ∨ (∃ stem ext,
       filename = stem ++ 46%N :: ext
       ∧ 46%N ∉ ext
       ∧ allowed_file lower filename
         = Ok (bool_decide (lower ext ∈ ALLOWED_EXTENSIONS))).
Proof.
  unfold allowed_file, rsplit1.
  destruct (rfind 46 filename) as [i|] eqn:E.
  - right. apply rfind_some in E as [Hs Hn].
    exists (take i filename), (drop (S i) filename).
    split_and!; [done..|].
    assert (existsb (N.eqb 46) filename = true) as ->.
    { apply existsb_dot. rewrite Hs. set_solver. }
    done.
  - left. apply rfind_none in E. split; [done|].
    destruct (existsb (N.eqb 46) filename) eqn:Ex; [|done].
    by apply existsb_dot in Ex.
Qed.

(** ** Paragraphs of the PDF story *)

Section pdf_facts.
Context {uni : Unicode}.

Lemma ws_class x : cls_match (icase no_flags) false [CSpace] x = is_space x.
Proof. by rewrite cls_match_single. Qed.

(** A text starts with a run of white space, possibly empty, that ends
    where the text ends or before a character that is not white space. *)
Lemma ws_run_split s :
  ∃ run rest,
    s = run ++ rest
    ∧ Forall (λ x, is_space x = true) run
    ∧ match rest with
      | [] => True
      | x :: _ => is_space x = false
      end.
Proof.
  induction s as [|c s (run & rest & -> & Hrun & Hrest)].
  { by exists [], []. }
  destruct (is_space c) eqn:Hc.
  - exists (c :: run), rest. split_and!; [done|by constructor|done].
  - exists [], (c :: run ++ rest). split_and!; [done|constructor|done].
Qed.

Lemma ws_match_some run rest adv :
  run ≠ [] →
  Forall (λ x, is_space x = true) run →
  match rest with
  | [] => True
  | x :: _ => is_space x = false
  end →
  match_at no_flags (plus ws) (run ++ rest) adv
  = Some {| m_span := run; m_caps := ∅; m_ngroups := 0 |}.
Proof.
  intros Hne Hrun Hrest. destruct run as [|c run]; [done|].
  unfold match_at.
  set (k0 := λ (s' : list N) (g : caps),
         if adv && (length s' =? length ((c :: run) ++ rest))
         then None else Some (s', g)).
  assert (Hm : m no_flags (plus ws) ((c :: run) ++ rest) ∅ k0
               = Some (rest, ∅)).
  { change (m no_flags (plus ws) ((c :: run) ++ rest) ∅ k0)
      with (m no_flags (Rep true 1 None (Cls false [CSpace]))
              ([c] ++ run ++ rest) ∅ k0).
    apply m_greedy_class; [done| | |].
    - eapply Forall_impl; [exact Hrun|]. intros x Hx. by rewrite ws_class.
    - destruct rest as [|x rest]; [done|]. by rewrite ws_class.
    - unfold k0. rewrite length_app. cbn [length].
      destruct (Nat.eqb_spec (length rest) (S (length run) + length rest));
        [lia|]. by rewrite andb_false_r. }
  rewrite Hm. do 2 f_equal.
  rewrite length_app.
  replace (length (c :: run) + length rest - length rest)
    with (length (c :: run)) by lia.
  by rewrite take_app_length.
Qed.

Lemma ws_match_none s adv :
  match s with
  | [] => True
  | x :: _ => is_space x = false
  end →
  match_at no_flags (plus ws) s adv = None.
Proof.
  intros Hs. unfold match_at. destruct s as [|x s]; [done|].
  cbn. rewrite orb_false_r. by rewrite Hs.
Qed.

(** What a match of "\s+" at the head of a text is: the white space the
    text starts with, all of it, and not empty. *)
Lemma ws_match_inv s adv mt :
  match_at no_flags (plus ws) s adv = Some mt →
  ∃ c run rest,
    s = (c :: run) ++ rest
    ∧ m_span mt = c :: run
    ∧ Forall (λ x, is_space x = true) (c :: run)
    ∧ match rest with
      | [] => True
      | x :: _ => is_space x = false
      end.
Proof.
  intros Hm. destruct (ws_run_split s) as (run & rest & -> & Hrun & Hrest).
  destruct run as [|c run].
  { by rewrite ws_match_none in Hm. }
  rewrite ws_match_some in Hm by done. injection Hm as <-.
  by exists c, run, rest.
Qed.

Lemma ws_no_match_inv c s adv :
  match_at no_flags (plus ws) (c :: s) adv = None → is_space c = false.
Proof.
  intros Hm.
  destruct (ws_run_split (c :: s)) as (run & rest & Heq & Hrun & Hrest).
  destruct run as [|x run].
  { cbn [app] in Heq. by subst rest. }
  rewrite Heq, ws_match_some in Hm by done. done.
Qed.

Lemma squeeze_after_space b rest :
  match rest with
  | [] => True
  | x :: _ => is_space x = false
  end →
  squeeze b rest = squeeze false rest.
Proof. destruct rest as [|x rest]; [done|]. cbn [squeeze]. by intros ->. Qed.

Lemma squeeze_run run rest :
  Forall (λ x, is_space x = true) run →
  squeeze true (run ++ rest) = squeeze true rest.
Proof.
  induction 1 as [|x run Hx _ IH]; [done|].
  cbn [app squeeze]. by rewrite Hx.
Qed.

(** Replacing every match of "\s+" by a blank is squeezing. *)
Lemma Occ_squeeze adv s hits tail :
  Occ no_flags (plus ws) adv s hits tail →
  splice hits ((λ _, [32%N]) <$> hits) tail = squeeze false s.
Proof.
  induction 1 as [adv Hm|adv s mt hits tail Hm _ IH
                 |adv c s gap mt hits tail Hm _ IH
                 |adv c s tail Hm _ IH].
  - done.
  - apply ws_match_inv in Hm as (c & run & rest & -> & Hspan & Hrun & Hrest).
    rewrite Hspan in IH. rewrite drop_app_length in IH.
    unfold splice in *. rewrite fmap_cons. cbn [zip_with concat fst app].
    rewrite IH. cbn [app squeeze].
    apply Forall_cons in Hrun as [-> Hrun].
    by rewrite squeeze_run, (squeeze_after_space true).
  - apply ws_no_match_inv in Hm.
    unfold splice in *. rewrite fmap_cons in *.
    cbn [zip_with concat fst app] in *.
    cbn [squeeze]. rewrite Hm. f_equal.
    rewrite <- IH. by rewrite <- !app_assoc.
  - apply ws_no_match_inv in Hm.
    unfold splice in *. cbn [fmap list_fmap zip_with concat app] in *.
    cbn [squeeze]. rewrite Hm. by f_equal.
Qed.

Lemma visible_squeeze b s : visible (squeeze b s) = visible s.
Proof.
  unfold visible. revert b.
  induction s as [|c s IH]; intros b; cbn [squeeze]; [done|].
  destruct (is_space c) eqn:Hc.
  - rewrite (filter_cons_False _ c) by by rewrite Hc.
    destruct b; [apply IH|].
    rewrite filter_cons_False by by rewrite blank_is_space.
    apply IH.
  - rewrite !filter_cons_True by done. by rewrite IH.
Qed.

Lemma visible_drop_while s : visible (drop_while is_space s) = visible s.
Proof.
  unfold visible. induction s as [|c s IH]; cbn [drop_while]; [done|].
  destruct (is_space c) eqn:Hc; [|done].
  by rewrite (filter_cons_False _ c) by by rewrite Hc.
Qed.

Lemma visible_rev s : visible (rev s) = rev (visible s).
Proof.
  unfold visible. induction s as [|c s IH]; [done|].
  cbn [rev]. rewrite filter_app, IH.
  destruct (is_space c) eqn:Hc.
  - rewrite (filter_cons_False _ c) by by rewrite Hc.
    rewrite (filter_cons_False _ c) by by rewrite Hc.
    by rewrite filter_nil, app_nil_r.
  - by rewrite !filter_cons_True by done.
Qed.

Lemma visible_strip s : visible (strip s) = visible s.
Proof.
  unfold strip.
  by rewrite visible_rev, visible_drop_while, visible_rev, rev_involutive,
    visible_drop_while.
Qed.

Lemma squeeze_true_head s :
  match last s with
  | Some d => is_space d = false
  | None => False
  end →
  ∃ e t, squeeze true s = e :: t ∧ is_space e = false.
Proof.
  induction s as [|c s IH]; [done|].
  intros Hlast. cbn [squeeze]. destruct (is_space c) eqn:Hc.
  - destruct s as [|c' s]; [cbn in Hlast; congruence|].
    apply IH. by rewrite last_cons_cons in Hlast.
  - by eexists _, _.
Qed.

Lemma single_spaced_squeeze b s :
  match last s with
  | Some d => is_space d = false
  | None => True
  end →
  single_spaced (squeeze b s) = true.
Proof.
  revert b. induction s as [|c s IH]; intros b Hlast; [done|].
  assert (Hs : match last s with
               | Some d => is_space d = false
               | None => True
               end).
  { destruct s as [|c' s]; [done|]. by rewrite last_cons_cons in Hlast. }
  cbn [squeeze]. destruct (is_space c) eqn:Hc.
  - destruct b; [by apply IH|].
    cbn [single_spaced]. rewrite blank_is_space, N.eqb_refl, IH by done.
    destruct (squeeze_true_head s) as (e & t & -> & ->); [|done].
    destruct s as [|c' s]; [cbn in Hlast; congruence|].
    rewrite last_cons_cons in Hlast.
    destruct (last (c' :: s)) eqn:El; [done|]. by apply last_None in El.
  - cbn [single_spaced]. by rewrite Hc, IH.
Qed.

Lemma squeeze_blank_template s :
  sub_template no_flags (plus ws) (u " ") s = Ok (squeeze false s).
Proof.
  rewrite (sub_template_occurrences _ _ _ (TLit <$> u " "))
    by by apply parse_template_plain.
  f_equal.
  by rewrite <- (Occ_squeeze false s _ _ (occurrences_Occ _ _ _)).
Qed.

(** X18. [_add_pdf_paragraph] calls nothing and adds nothing for a text
    that is empty or all white space.  For any other text the
    substitution does not raise and one paragraph is built, from a text
    that has the characters of the given text that are not white space,
    in their order, starts with the first of them, and has one blank
    wherever the given text had white space between two of them: no white
    space at either end, no two white-space characters in a row, and no
    white-space character other than the blank.  When reportlab takes the
    paragraph it is put at the end of the story; when it refuses it, its
    exception is what the call raises. *)
Theorem add_pdf_paragraph_normalises refused story text normal section :
  match strip text with
  | [] => _add_pdf_paragraph refused story text normal section = Laid story
  | _ :: _ =>
      ∃ t,
        let style :=
          if is_prefix (u "That the") t && (50 <? length t)
          then section else normal in
        _add_pdf_paragraph refused story text normal section
        = match refused t style with
          | None => Laid (story ++ [Paragraph t style])
          | Some e => Failed (OfLib e)
          end
        ∧ visible t = visible text
        ∧ single_spaced t = true
        ∧ match t with
          | [] => False
          | c :: _ => is_space c = false
          end
  end.
Proof.
  unfold _add_pdf_paragraph.
  pose proof (strip_trimmed text) as [Hhead Hlast].
  pose proof (visible_strip text) as Hvis.
  destruct (strip text) as [|c s]; [done|].
  cbn [truthy negb]. rewrite squeeze_blank_template. cbn [of_re lbind].
  exists (squeeze false (c :: s)). split_and!.
  - unfold append_paragraph. by destruct (is_prefix _ _ && _).
  - by rewrite visible_squeeze.
  - by apply single_spaced_squeeze.
  - cbn [squeeze]. by rewrite Hhead.
Qed.

End pdf_facts.

(** ** The PDF story *)

Lemma post_lbind {A B} (P : A → Prop) (Q : B → Prop) (R : layout_exn → Prop)
    (x : lresult A) (f : A → lresult B) :
  post P R x → (∀ a, P a → post Q R (f a)) → post Q R (lbind x f).
Proof. destruct x as [a|e]; cbn [post lbind]; [|done]. intros Ha Hf. by apply Hf. Qed.

Lemma post_impl {A} (P Q : A → Prop) (R : layout_exn → Prop) (x : lresult A) :
  post P R x → (∀ a, P a → Q a) → post Q R x.
Proof. destruct x as [a|e]; cbn [post]; [|done]. intros Ha Hf. by apply Hf. Qed.

Section pdf_story_facts.
Context {uni : Unicode}.
Variable refused : list N → pstyle → option lib_exn.

Lemma visible_app a b : visible (a ++ b) = visible a ++ visible b.
Proof. apply filter_app. Qed.

Lemma visible_blank : visible (u " ") = [].
Proof.
  change (u " ") with [32%N]. unfold visible.
  by rewrite filter_cons_False by by rewrite blank_is_space.
Qed.

Lemma visible_blank_strip s : strip s = [] → visible s = [].
Proof. intros Hs. by rewrite <- visible_strip, Hs. Qed.

Lemma append_paragraph_post story text style :
  post (λ story', story' = story ++ [Paragraph text style])
    (paragraph_refused refused)
    (append_paragraph refused story text style).
Proof.
  unfold append_paragraph. destruct (refused text style) as [e|] eqn:E;
    cbn [post paragraph_refused]; [by eexists _, _|done].
Qed.

Lemma add_pdf_paragraph_visible story text normal section :
  post (λ story', ∃ added,
          story' = story ++ added
          ∧ visible (concat (text_of <$> added)) = visible text)
    (paragraph_refused refused)
    (_add_pdf_paragraph refused story text normal section).
Proof.
  unfold _add_pdf_paragraph.
  destruct (strip text) as [|c s] eqn:Hs.
  { cbn [truthy negb post]. exists []. rewrite app_nil_r. split; [done|].
    by rewrite (visible_blank_strip text). }
  cbn [truthy negb]. rewrite squeeze_blank_template. cbn [of_re lbind].
  assert (Hany : ∀ style,
    post (λ story', ∃ added,
            story' = story ++ added
            ∧ visible (concat (text_of <$> added)) = visible text)
      (paragraph_refused refused)
      (append_paragraph refused story (squeeze false (c :: s)) style)).
  { intros style. eapply post_impl; [apply append_paragraph_post|].
    intros story' ->. eexists. split; [done|].
    cbn [fmap list_fmap text_of concat]. rewrite app_nil_r.
    by rewrite visible_squeeze, <- Hs, visible_strip. }
  destruct (is_prefix _ _ && _); apply Hany.
Qed.

Lemma pdf_flush_visible story current :
  post (λ state, ∃ added,
          state = (story ++ added, [])
          ∧ visible (concat (text_of <$> added)) = visible current)
    (paragraph_refused refused)
    (pdf_flush refused story current).
Proof.
  unfold pdf_flush. destruct current as [|c current]; cbn [truthy].
  { cbn [post]. exists []. by rewrite app_nil_r. }
  eapply post_lbind; [apply add_pdf_paragraph_visible|].
  intros story' (added & -> & Hv). cbn [post]. by exists added.
Qed.

Lemma pdf_line_visible story current line :
  post (λ state, ∃ added current',
          state = (story ++ added, current')
          ∧ visible (concat (text_of <$> added) ++ current')
            = visible (current ++ rendered line))
    (paragraph_refused refused)
    (pdf_line refused (story, current) line).
Proof.
  unfold pdf_line, rendered.
  pose proof (pdf_flush_visible story current) as Hflush.
  destruct (strip line) as [|c l] eqn:Hs.
  { cbn [truthy negb]. change (is_prefix (u "===") []) with false. cbn iota.
    eapply post_impl; [exact Hflush|].
    intros state (flushed & -> & Hv). exists flushed, [].
    split; [done|]. by rewrite !app_nil_r. }
  cbn [truthy negb]. set (ln := c :: l).
  destruct (is_prefix (u "===") ln).
  { eapply post_lbind; [exact Hflush|].
    intros state (flushed & -> & Hv).
    destruct (contains (u "SUMMARY OF CHANGES") ln).
    - eapply post_lbind; [apply append_paragraph_post|].
      intros story' ->. cbn [post].
      exists (flushed ++ [Spacer 1 20;
                          Paragraph (u "Summary of Changes") section_style]),
        [].
      split; [by rewrite <- !app_assoc|].
      rewrite fmap_app, concat_app. cbn [fmap list_fmap text_of concat].
      rewrite !app_nil_r, !visible_app. cbn [app]. by rewrite Hv.
    - cbn [post]. exists flushed, []. split; [done|].
      by rewrite !app_nil_r. }
  case_bool_decide.
  { eapply post_lbind; [exact Hflush|].
    intros state (flushed & -> & Hv).
    eapply post_lbind; [apply append_paragraph_post|].
    intros story' ->. cbn [post].
    exists (flushed ++ [Paragraph ln section_style]), [].
    split; [by rewrite <- app_assoc|].
    rewrite fmap_app, concat_app. cbn [fmap list_fmap text_of concat].
    rewrite !app_nil_r, !visible_app. by rewrite Hv. }
  set (current' := if truthy current then current ++ u " " ++ ln else ln).
  assert (Hcur : visible current' = visible (current ++ ln)).
  { unfold current'. destruct current as [|x current]; [done|].
    cbn [truthy]. by rewrite !visible_app, visible_blank. }
  destruct (800 <? length current').
  - eapply post_lbind; [apply add_pdf_paragraph_visible|].
    intros story' (added & -> & Hadd). cbn [post].
    exists added, []. split; [done|]. by rewrite app_nil_r, Hadd.
  - cbn [post]. exists [], current'. rewrite app_nil_r. by split.
Qed.

Lemma pdf_lines_visible lines story current :
  post (λ state, ∃ added current',
          state = (story ++ added, current')
          ∧ visible (concat (text_of <$> added) ++ current')
            = visible (current ++ concat (rendered <$> lines)))
    (paragraph_refused refused)
    (pdf_lines refused lines (story, current)).
Proof.
  revert story current.
  induction lines as [|line lines IH]; intros story current;
    cbn [pdf_lines].
  { cbn [post]. exists [], current. by rewrite !app_nil_r. }
  eapply post_lbind; [apply pdf_line_visible|].
  intros state (added1 & current1 & -> & Hv1).
  eapply post_impl; [apply IH|].
  intros state (added2 & current2 & -> & Hv2).
  exists (added1 ++ added2), current2. split; [by rewrite app_assoc|].
  rewrite fmap_app, concat_app, fmap_cons. cbn [concat].
  rewrite <- app_assoc, visible_app, Hv2, <- visible_app.
  rewrite (app_assoc _ current1), visible_app, Hv1, <- visible_app.
  by rewrite <- !app_assoc.
Qed.

Lemma generate_pdf_post content :
  post (λ story, ∃ body,
          story = pdf_header ++ body
          ∧ visible (concat (text_of <$> body))
            = visible (concat (rendered <$> split nl content)))
    (paragraph_refused refused)
    (generate_pdf refused content).
Proof.
  unfold generate_pdf.
  do 4 (eapply post_lbind; [apply append_paragraph_post|]; intros ? ->).
  eapply post_lbind; [apply pdf_lines_visible|].
  intros state (added & current & -> & Hv). cbn [app] in Hv.
  destruct current as [|c current]; cbn [truthy].
  { cbn [post]. exists added. split; [done|]. by rewrite app_nil_r in Hv. }
  eapply post_impl; [apply add_pdf_paragraph_visible|].
  intros story (last & -> & Hlast).
  exists (added ++ last). split; [by rewrite <- app_assoc|].
  by rewrite fmap_app, concat_app, visible_app, Hlast, <- visible_app.
Qed.

(** X19. When [generate_pdf] gets as far as [doc.build], the story it
    hands over starts with the five flowables of the header, and after
    them its paragraphs carry the characters of the content that are not
    white space, all of them and in their order, with two exceptions: a
    line that starts with the marker [===] is left out, and where such a
    line contains [SUMMARY OF CHANGES] the heading [Summary of Changes]
    stands in its place.  It raises before that only when reportlab
    refuses the text of a paragraph, with the exception of reportlab;
    the string and regex steps raise nothing. *)
Theorem generate_pdf_keeps_text content :
  match generate_pdf refused content with
  | Laid story =>
      ∃ body,
        story = pdf_header ++ body
        ∧ visible (concat (text_of <$> body))
          = visible (concat (rendered <$> split nl content))
  | Failed (OfLib e) => ∃ text style, refused text style = Some e
  | Failed (OfRe _) => False
  end.
Proof.
  pose proof (generate_pdf_post content) as Hpost.
  by destruct (generate_pdf refused content) as [story|[e|e]].
Qed.

End pdf_story_facts.

(** ** The DOCX document *)

Section docx_facts.
Context {uni : Unicode}.
Variable refused : docx_item → option lib_exn.

Lemma docx_call_post doc item :
  post (λ doc', doc' = doc ++ [item]) (call_refused refused)
    (docx_call refused doc item).
Proof.
  unfold docx_call. destruct (refused item) as [e|] eqn:E;
    cbn [post call_refused]; [by eexists|done].
Qed.

Lemma add_formatted_paragraph_visible doc text :
  post (λ doc', ∃ added,
          doc' = doc ++ added
          ∧ visible (concat (docx_text <$> added)) = visible text)
    (call_refused refused)
    (_add_formatted_paragraph refused doc text).
Proof.
  unfold _add_formatted_paragraph.
  destruct (strip text) as [|c s] eqn:Hs.
  { cbn [truthy negb post]. exists []. rewrite app_nil_r. split; [done|].
    by rewrite (visible_blank_strip text). }
  cbn [truthy negb].
  assert (Hany : ∀ style,
    post (λ doc', ∃ added,
            doc' = doc ++ added
            ∧ visible (concat (docx_text <$> added)) = visible text)
      (call_refused refused)
      (docx_call refused doc (DocParagraph (c :: s) style))).
  { intros style. eapply post_impl; [apply docx_call_post|].
    intros doc' ->. eexists. split; [done|].
    cbn [fmap list_fmap docx_text concat]. rewrite app_nil_r.
    by rewrite <- Hs, visible_strip. }
  case_bool_decide; apply Hany.
Qed.

Lemma docx_flush_visible doc current :
  post (λ state, ∃ added,
          state = (doc ++ added, [])
          ∧ visible (concat (docx_text <$> added)) = visible current)
    (call_refused refused)
    (docx_flush refused doc current).
Proof.
  unfold docx_flush. destruct current as [|c current]; cbn [truthy].
  { cbn [post]. exists []. by rewrite app_nil_r. }
  eapply post_lbind; [apply add_formatted_paragraph_visible|].
  intros doc' (added & -> & Hv). cbn [post]. by exists added.
Qed.

Lemma docx_line_visible doc current line :
  post (λ state, ∃ added current',
          state = (doc ++ added, current')
          ∧ visible (concat (docx_text <$> added) ++ current')
            = visible (current ++ rendered line))
    (call_refused refused)
    (docx_line refused (doc, current) line).
Proof.
  unfold docx_line, rendered.
  pose proof (docx_flush_visible doc current) as Hflush.
  assert (Hplus : ∀ flushed item,
    visible (concat (docx_text <$> flushed)) = visible current →
    visible (concat (docx_text <$> flushed ++ [item]) ++ [])
    = visible (current ++ docx_text item)).
  { intros flushed item Hv. rewrite fmap_app, concat_app.
    cbn [fmap list_fmap concat]. by rewrite !app_nil_r, !visible_app, Hv. }
  destruct (strip line) as [|c l] eqn:Hs.
  { cbn [truthy negb]. change (is_prefix (u "===") []) with false. cbn iota.
    eapply post_impl; [exact Hflush|].
    intros state (flushed & -> & Hv). exists flushed, [].
    split; [done|]. by rewrite !app_nil_r. }
  cbn [truthy negb]. set (ln := c :: l).
  destruct (is_prefix (u "===") ln).
  { eapply post_lbind; [exact Hflush|].
    intros state (flushed & -> & Hv).
    destruct (contains (u "SUMMARY OF CHANGES") ln).
    - eapply post_lbind; [apply docx_call_post|]. intros doc1 ->.
      eapply post_lbind; [apply docx_call_post|]. intros doc2 ->.
      cbn [post].
      exists (flushed ++ [PageBreak; Heading (u "Summary of Changes") 1]),
        [].
      split; [by rewrite <- !app_assoc|].
      rewrite fmap_app, concat_app. cbn [fmap list_fmap docx_text concat].
      rewrite !app_nil_r, !visible_app. cbn [app]. by rewrite Hv.
    - destruct (contains (u "END SUMMARY") ln).
      + eapply post_lbind; [apply docx_call_post|]. intros doc1 ->.
        cbn [post]. exists (flushed ++ [DocParagraph [] None]), [].
        split; [by rewrite <- app_assoc|]. by rewrite Hplus.
      + cbn [post]. exists flushed, []. split; [done|].
        by rewrite !app_nil_r. }
  case_bool_decide.
  { eapply post_lbind; [exact Hflush|].
    intros state (flushed & -> & Hv).
    eapply post_lbind; [apply docx_call_post|]. intros doc1 ->.
    cbn [post]. exists (flushed ++ [Heading ln 2]), [].
    split; [by rewrite <- app_assoc|]. by rewrite Hplus. }
  destruct (is_prefix (u "That the") ln && (50 <? length ln)).
  { eapply post_lbind; [exact Hflush|].
    intros state (flushed & -> & Hv).
    eapply post_lbind; [apply docx_call_post|]. intros doc1 ->.
    cbn [post]. exists (flushed ++ [Heading ln 3]), [].
    split; [by rewrite <- app_assoc|]. by rewrite Hplus. }
  set (current' := if truthy current then current ++ u " " ++ ln else ln).
  assert (Hcur : visible current' = visible (current ++ ln)).
  { unfold current'. destruct current as [|x current]; [done|].
    cbn [truthy]. by rewrite !visible_app, visible_blank. }
  destruct (500 <? length current').
  - eapply post_lbind; [apply add_formatted_paragraph_visible|].
    intros doc' (added & -> & Hadd). cbn [post].
    exists added, []. split; [done|]. by rewrite app_nil_r, Hadd.
  - cbn [post]. exists [], current'. rewrite app_nil_r. by split.
Qed.

Lemma docx_lines_visible lines doc current :
  post (λ state, ∃ added current',
          state = (doc ++ added, current')
          ∧ visible (concat (docx_text <$> added) ++ current')
            = visible (current ++ concat (rendered <$> lines)))
    (call_refused refused)
    (docx_lines refused lines (doc, current)).
Proof.
  revert doc current.
  induction lines as [|line lines IH]; intros doc current;
    cbn [docx_lines].
  { cbn [post]. exists [], current. by rewrite !app_nil_r. }
  eapply post_lbind; [apply docx_line_visible|].
  intros state (added1 & current1 & -> & Hv1).
  eapply post_impl; [apply IH|].
  intros state (added2 & current2 & -> & Hv2).
  exists (added1 ++ added2), current2. split; [by rewrite app_assoc|].
  rewrite fmap_app, concat_app, fmap_cons. cbn [concat].
  rewrite <- app_assoc, visible_app, Hv2, <- visible_app.
  rewrite (app_assoc _ current1), visible_app, Hv1, <- visible_app.
  by rewrite <- !app_assoc.
Qed.

Lemma generate_docx_post content :
  post (λ doc, ∃ body,
          doc = docx_header ++ body
          ∧ visible (concat (docx_text <$> body))
            = visible (concat (rendered <$> split nl content)))
    (call_refused refused)
    (generate_docx refused content).
Proof.
  unfold generate_docx.
  do 5 (eapply post_lbind; [apply docx_call_post|]; intros ? ->).
  eapply post_lbind; [apply docx_lines_visible|].
  intros state (added & current & -> & Hv). cbn [app] in Hv.
  destruct current as [|c current]; cbn [truthy].
  { cbn [post]. exists added. split; [done|]. by rewrite app_nil_r in Hv. }
  eapply post_impl; [apply add_formatted_paragraph_visible|].
  intros doc (last & -> & Hlast).
  exists (added ++ last). split; [by rewrite <- app_assoc|].
  by rewrite fmap_app, concat_app, visible_app, Hlast, <- visible_app.
Qed.

(** X20. When [generate_docx] gets as far as saving, the calls it has
    made on the document start with the five of the header, and the
    headings and paragraphs after them carry the characters of the
    content that are not white space, all of them and in their order,
    with two exceptions: a line that starts with the marker [===] is left
    out, and where such a line contains [SUMMARY OF CHANGES] the heading
    [Summary of Changes] stands in its place.  It raises before that only
    when python-docx refuses one of the calls, with the exception of
    python-docx. *)
Theorem generate_docx_keeps_text content :
  match generate_docx refused content with
  | Laid doc =>
      ∃ body,
        doc = docx_header ++ body
        ∧ visible (concat (docx_text <$> body))
          = visible (concat (rendered <$> split nl content))
  | Failed (OfLib e) => ∃ item, refused item = Some e
  | Failed (OfRe _) => False
  end.
Proof.
  pose proof (generate_docx_post content) as Hpost.
  by destruct (generate_docx refused content) as [doc|[e|e]].
Qed.

End docx_facts.

(** ** Where the merge completes *)

Section merge_completes.
Context {uni : Unicode} (clock : nat → list N).

(** X21. For a FieldMap without trading exclusions, the empty one
    included, or with exclusions that hold no backslash, [merge_documents]
    returns, whatever the base text and the log of the tracker: the
    dry-docking clause is appended and logged last, as an addition with
    an empty old value; the list returned is not empty, and the text ends
    with the clause and the summary block in its listing form, whose
    first line is the first change. *)
Theorem merge_documents_completes base fm tr :
  match fm !! u "trading_exclusions" with
  | None => True
  | Some v => forallb (λ c, negb (c =? 92)%N) (fmt v) = true
  end →
  ∃ text st body prior ts c l,
    merge_documents clock base fm tr = Ok (text, st)
    ∧ changes st
      = prior ++ [ {| ch_id := length tr + length prior + 1;
                      ch_field := u "dry_docking";
                      ch_old_value := [];
                      ch_new_value := dd_clause;
                      ch_description := u "Added dry-docking clause";
                      ch_timestamp := ts;
                      ch_change_type := u "addition" |} ]
    ∧ tracker st = tr ++ changes st
    ∧ changes st = c :: l
    ∧ text = body ++ dd_clause ++ summary_section (changes st)
    ∧ summary_section (changes st)
      = [nl; nl] ++ u "=== SUMMARY OF CHANGES ===" ++ [nl]
        ++ u "The following modifications were made to the base Charter Party:"
        ++ [nl; nl]
        ++ (u "1. " ++ ch_description c ++ [nl] ++ summary_lines 2 l)
        ++ [nl] ++ u "=== END SUMMARY ===" ++ [nl].
Proof.
  intros Hsafe.
  pose proof (merge_documents_logs_dry_docking clock base fm tr) as Hm.
  destruct (merge_documents clock base fm tr) as [[text st]|e].
  - destruct Hm as (body & prior & ts & c & l & Hm).
    by exists text, st, body, prior, ts, c, l.
  - exfalso. destruct Hm as (v & Hv & Hparse). rewrite Hv in Hsafe.
    change (u "\1" ++ [nl; nl] ++ u "TRADING EXCLUSIONS:" ++ [nl]
              ++ fmt v ++ [nl])
      with (u "\1" ++ nl :: (nl :: u "TRADING EXCLUSIONS:" ++ [nl] ++ fmt v
                                ++ [nl])) in Hparse.
    change (parse_template 1 TNormal) with
      (parse_template (ngroups exclusion_pattern) TNormal) in Hparse.
    rewrite exclusion_template_parse in Hparse.
    rewrite (parse_template_plain 1) in Hparse; [done|].
    cbn [forallb]. rewrite !forallb_app, Hsafe. done.
Qed.

End merge_completes.

(** ** The further properties at concrete inputs *)

Lemma apply_rule_no_match_witness :
  let st := {| changes := []; tracker := []; ticks := 0 |} in
  apply_rule (uni := ascii_tables) sample_clock laycan_rule
    (u "no placeholder here") st
  = Ok (u "no placeholder here", st).
Proof.
  intros st.
  apply (apply_rule_no_match (uni := ascii_tables) sample_clock laycan_rule
           (u "no placeholder here") st).
  vm_compute. reflexivity.
Defined.

Lemma fixed_rule_logs_once_rewrites_all_witness :
  let sentence :=
    u "WOULD SUGGEST 1 (ONE) MONTH AFTER DIVER SURVEY TO BE CARRIED OUT IN YEOSU" in
  let text := sentence ++ u "; " ++ sentence in
  let st := {| changes := []; tracker := []; ticks := 0 |} in
  let hits :=
    (occurrences (uni := ascii_tables) merge_flags (pattern laycan_rule)
       text).1 in
  let tail :=
    (occurrences (uni := ascii_tables) merge_flags (pattern laycan_rule)
       text).2 in
  original hits tail = text
  ∧ apply_rule (uni := ascii_tables) sample_clock laycan_rule text st =
      match hits with
      | [] => Ok (text, st)
      | (_, mt) :: _ =>
          Ok (splice hits ((λ _, laycan_text) <$> hits) tail,
              extend st [ {| ch_id := length (tracker st) + 1;
                             ch_field := field laycan_rule;
                             ch_old_value := m_span mt;
                             ch_new_value := laycan_text;
                             ch_description := description laycan_rule;
                             ch_timestamp := sample_clock (ticks st);
                             ch_change_type :=
                               _determine_change_type (m_span mt)
                                 laycan_text |} ])
      end.
Proof.
  intros sentence text st.
  apply (fixed_rule_logs_once_rewrites_all (uni := ascii_tables) sample_clock
           laycan_rule laycan_text text st).
  - unfold merge_rules. do 6 (apply elem_of_cons; right).
    apply elem_of_cons. by left.
  - reflexivity.
Defined.

Lemma merge_documents_numbering_witness :
  let base := u "Steamship/Motorship " ++ [dquote] ++ u "OLD NAME" ++ [dquote] in
  ∃ text st,
    merge_documents (uni := ascii_tables) sample_clock base ∅ [] = Ok (text, st)
    ∧ tracker st = [] ++ changes st
    ∧ ch_id <$> changes st = seq 1 (length (changes st))
    ∧ ch_timestamp <$> changes st
      = sample_clock <$> seq 0 (length (changes st)).
Proof.
  intros base. eexists _, _. split.
  - vm_compute. reflexivity.
  - eapply (merge_documents_numbering (uni := ascii_tables) sample_clock base
             ∅ []).
    vm_compute. reflexivity.
Defined.

Lemma generate_summary_of_merge_witness :
  let base := u "Steamship/Motorship " ++ [dquote] ++ u "OLD NAME" ++ [dquote] in
  ∃ text st,
    merge_documents (uni := ascii_tables) sample_clock base ∅ [] = Ok (text, st)
    ∧ let s := generate_summary (sample_clock 2) (changes st) in
      total_changes s = length (changes st)
      ∧ 1 ≤ total_changes s
      ∧ count (u "deletions") (change_types s) = 0
      ∧ 1 ≤ count (u "additions") (change_types s)
      ∧ summary s ≠ u "No changes were made to the document.".
Proof.
  intros base. eexists _, _. split.
  - vm_compute. reflexivity.
  - eapply (generate_summary_of_merge (uni := ascii_tables) sample_clock
             (sample_clock 2) base ∅ []).
    vm_compute. reflexivity.
Defined.

Lemma merge_documents_display_names_witness :
  let base := u "Steamship/Motorship " ++ [dquote] ++ u "OLD NAME" ++ [dquote] in
  ∃ text st,
    merge_documents (uni := ascii_tables) sample_clock base ∅ [] = Ok (text, st)
    ∧ Forall (λ c, ∃ name,
                field_names !! ch_field c = Some name
                ∧ ∀ title, d_field (format_change_for_display title c) = name)
        (changes st).
Proof.
  intros base. eexists _, _. split.
  - vm_compute. reflexivity.
  - eapply (merge_documents_display_names (uni := ascii_tables) sample_clock
             base ∅ []).
    vm_compute. reflexivity.
Defined.

Lemma trading_exclusions_inserted_witness :
  let fm : gmap (list N) pyval :=
    {[ u "trading_exclusions" := PStr (u "No ice-bound ports") ]} in
  let text :=
    u "to be employed as the Charterers or their Agents shall direct, on the following conditions: 1. That" in
  let st := {| changes := []; tracker := []; ticks := 0 |} in
  let block :=
    [nl; nl] ++ u "TRADING EXCLUSIONS:" ++ [nl]
    ++ fmt (PStr (u "No ice-bound ports")) ++ [nl] in
  let anchor :=
    u "as the Charterers or their Agents shall direct, on the following conditions:" in
  let hits :=
    (occurrences (uni := ascii_tables) no_flags exclusion_pattern text).1 in
  let tail :=
    (occurrences (uni := ascii_tables) no_flags exclusion_pattern text).2 in
  original hits tail = text
  ∧ Forall (λ hit, m_span hit.2 = anchor) hits
  ∧ add_trading_exclusions (uni := ascii_tables) sample_clock fm text st =
      match hits with
      | [] => Ok (text, st)
      | _ :: _ =>
          Ok (splice hits ((λ _, anchor ++ block) <$> hits) tail,
              extend st [ {| ch_id := length (tracker st) + 1;
                             ch_field := u "trading_exclusions";
                             ch_old_value := [];
                             ch_new_value := block;
                             ch_description :=
                               u "Added trading exclusions clause";
                             ch_timestamp := sample_clock (ticks st);
                             ch_change_type := u "addition" |} ])
      end.
Proof.
  intros fm text st.
  apply (trading_exclusions_inserted (uni := ascii_tables) sample_clock fm
           (PStr (u "No ice-bound ports")) text st).
  - apply lookup_singleton_eq.
  - vm_compute. reflexivity.
Defined.

Lemma trading_exclusions_bad_escape_witness :
  let fm : gmap (list N) pyval :=
    {[ u "trading_exclusions" := PStr (u "No ports in zone \q of the list") ]} in
  let text :=
    u "as the Charterers or their Agents shall direct, on the following conditions:" in
  let st := {| changes := []; tracker := []; ticks := 0 |} in
  add_trading_exclusions (uni := ascii_tables) sample_clock fm text st
  = Raise ReError.
Proof.
  intros fm text st.
  apply (trading_exclusions_bad_escape (uni := ascii_tables) sample_clock fm
           (PStr (u "No ports in zone \q of the list"))
           (u "No ports in zone ") 113%N (u " of the list") text st).
  - apply lookup_singleton_eq.
  - vm_compute. reflexivity.
  - vm_compute. reflexivity.
  - vm_compute. reflexivity.
  - apply (bool_decide_unpack _). vm_compute. exact I.
  - vm_compute. eexists. reflexivity.
Defined.

Lemma merge_documents_untouched_witness :
  let base := u "This Charter Party has no text that a rule looks for." in
  let dry_docking :=
    {| ch_id := 0 + 1;
       ch_field := u "dry_docking";
       ch_old_value := [];
       ch_new_value := dd_clause;
       ch_description := u "Added dry-docking clause";
       ch_timestamp := sample_clock 0;
       ch_change_type := u "addition" |} in
  merge_documents (uni := ascii_tables) sample_clock base ∅ []
  = Ok (base ++ dd_clause ++ summary_section [dry_docking],
        {| changes := [dry_docking];
           tracker := [] ++ [dry_docking];
           ticks := 1 |}).
Proof.
  intros base.
  apply (merge_documents_untouched (uni := ascii_tables) sample_clock base ∅
           []).
  - unfold merge_rules. repeat apply Forall_cons_2; [..|apply Forall_nil_2];
      vm_compute; reflexivity.
  - left. apply lookup_empty.
Defined.

Lemma merge_documents_completes_witness :
  let base :=
    u "to be employed as the Charterers or their Agents shall direct, on the following conditions: 1. That" in
  let fm : gmap (list N) pyval :=
    {[ u "trading_exclusions" := PStr (u "No ice-bound ports") ]} in
  ∃ text st body prior ts c l,
    merge_documents (uni := ascii_tables) sample_clock base fm []
    = Ok (text, st)
    ∧ changes st
      = prior ++ [ {| ch_id := length (@nil ChangeRecord) + length prior + 1;
                      ch_field := u "dry_docking";
                      ch_old_value := [];
                      ch_new_value := dd_clause;
                      ch_description := u "Added dry-docking clause";
                      ch_timestamp := ts;
                      ch_change_type := u "addition" |} ]
    ∧ tracker st = [] ++ changes st
    ∧ changes st = c :: l
    ∧ text = body ++ dd_clause ++ summary_section (changes st)
    ∧ summary_section (changes st)
      = [nl; nl] ++ u "=== SUMMARY OF CHANGES ===" ++ [nl]
        ++ u "The following modifications were made to the base Charter Party:"
        ++ [nl; nl]
        ++ (u "1. " ++ ch_description c ++ [nl] ++ summary_lines 2 l)
        ++ [nl] ++ u "=== END SUMMARY ===" ++ [nl].
Proof.
  intros base fm.
  apply (merge_documents_completes (uni := ascii_tables) sample_clock base fm
           []).
  vm_compute. reflexivity.
Defined.
